(** * Sliding puzzle solver: bidirectional A* search (n-puzzle.ipynb)

    A shallow embedding of the notebook's functions and the properties of
    its specification.

    Data model.
    - A puzzle state is a NumPy integer array of shape
      [(PUZZLE_DIM, PUZZLE_DIM)].  It is modelled by its row-major buffer, a
      [list Z]; the cell [state[x, y]] is the element [x * PUZZLE_DIM + y].
      An array of any other shape is outside the model: the statements
      about states carry the length of the buffer as a hypothesis.
    - [state.tobytes()] is the key of the dictionaries, sets and heap
      entries.  The key is modelled by the list of the elements of the
      buffer, and two keys are compared as Python compares the [bytes]:
      by the little-endian bytes of the 64-bit elements ([bytes_of]).
      [Module Encoding] shows that this is the order of the lists of
      values when the cell values are below 256 (boards up to 16 x 16).
    - Python exceptions are the constructors of [exn]; a function that can
      raise returns a [result].
    - The integers of the cells are [Z].  The arithmetic of
      [manhattan_distance] on them is that of the 64-bit integers as long
      as no value is near the 64-bit bounds, which holds for every valid
      state; the statements about the heuristic are made for valid states.
      Counters that start at 0 and only grow by one ([g_score],
      [nodes_evaluated]) are [nat]. *)

From Stdlib Require Import ZArith Lia.

From stdpp Require Import gmap list list_monad sorting relations.

(** ** Exceptions *)

Inductive exn := IndexError | KeyError | ValueError.

Inductive result (A : Type) :=
| Ok (a : A)
| Raise (e : exn).

Arguments Ok {A} a.

Arguments Raise {A} e.

#[global] Instance result_ret : MRet result := fun A a => Ok a.

#[global] Instance result_bind : MBind result := fun A B f m =>
  match m with
  | Ok a => f a
  | Raise e => Raise e
  end.

(** A [for] loop whose body can raise. *)
Fixpoint for_each {A B} (body : B -> A -> result B) (acc : B) (l : list A)
  : result B :=
  match l with
  | [] => Ok acc
  | a :: l' => acc' ← body acc a; for_each body acc' l'
  end.

(** ** Arrays and keys *)

Abbreviation ndarray := (list Z).

Abbreviation key := (list Z).

Definition tobytes (state : ndarray) : key := state.

Record Action := mkAction { pos1 : nat * nat; pos2 : nat * nat }.

#[global] Instance Action_eq_dec : EqDecision Action.
Proof. solve_decision. Defined.

Section Puzzle.

Variable PUZZLE_DIM : nat.

(** [np.frombuffer(b, dtype=int).reshape((PUZZLE_DIM, PUZZLE_DIM))]:
    [reshape] raises [ValueError] when the size does not fit. *)
Definition reshape (buf : list Z) : result ndarray :=
  if bool_decide (length buf = PUZZLE_DIM * PUZZLE_DIM) then Ok buf
  else Raise ValueError.

Definition frombuffer (b : key) : result ndarray := reshape b.

(** [state[x, y]] and [state[pos]] for a coordinate pair. *)
Definition getitem (state : ndarray) (pos : nat * nat) : result Z :=
  let '(x, y) := pos in
  if bool_decide (x < PUZZLE_DIM /\ y < PUZZLE_DIM) then
    match state !! (x * PUZZLE_DIM + y) with
    | Some v => Ok v
    | None => Raise IndexError
    end
  else Raise IndexError.

(** [state[pos] = v] on a copy. *)
Definition setitem (state : ndarray) (pos : nat * nat) (v : Z) : ndarray :=
  let '(x, y) := pos in <[x * PUZZLE_DIM + y := v]> state.

(** [np.argwhere(state == 0)[0]]: the coordinates of the first zero in
    row-major order; [IndexError] when there is none. *)
Definition argwhere_zero (state : ndarray) : result (nat * nat) :=
  match list_find (fun v => v = 0%Z) state with
  | Some (i, _) => Ok (i / PUZZLE_DIM, i mod PUZZLE_DIM)
  | None => Raise IndexError
  end.

Definition available_actions (state : ndarray) : result (list Action) :=
  '(x, y) ← argwhere_zero state;
  let actions := [] in
  let actions :=
    if bool_decide (0 < x) then actions ++ [mkAction (x, y) (x - 1, y)]
    else actions in
  let actions :=
    if bool_decide (x < PUZZLE_DIM - 1) then actions ++ [mkAction (x, y) (x + 1, y)]
    else actions in
  let actions :=
    if bool_decide (0 < y) then actions ++ [mkAction (x, y) (x, y - 1)]
    else actions in
  let actions :=
    if bool_decide (y < PUZZLE_DIM - 1) then actions ++ [mkAction (x, y) (x, y + 1)]
    else actions in
  Ok actions.

(** The right-hand side reads both cells, then [pos1] is assigned before
    [pos2]. *)
Definition do_action (state : ndarray) (action : Action) : result ndarray :=
  let new_state := state in
  v2 ← getitem new_state (pos2 action);
  v1 ← getitem new_state (pos1 action);
  Ok (setitem (setitem new_state (pos1 action) v2) (pos2 action) v1).

(** The body of the two nested loops of [manhattan_distance].  [divmod]
    rounds towards minus infinity, as [Z.div] and [Z.modulo] do; the body
    only runs when [PUZZLE_DIM] is positive. *)
Definition manhattan_cell (state : ndarray) (distance : Z) (xy : nat * nat)
  : result Z :=
  let '(x, y) := xy in
  value ← getitem state (x, y);
  if bool_decide (value ≠ 0%Z) then
    let target_x := ((value - 1) `div` Z.of_nat PUZZLE_DIM)%Z in
    let target_y := ((value - 1) `mod` Z.of_nat PUZZLE_DIM)%Z in
    Ok (distance + (Z.abs (Z.of_nat x - target_x) + Z.abs (Z.of_nat y - target_y)))%Z
  else Ok distance.

(** The index pairs in the order the nested [range] loops visit them. *)
Definition cells : list (nat * nat) :=
  x ← seq 0 PUZZLE_DIM; y ← seq 0 PUZZLE_DIM; [(x, y)].

Definition manhattan_distance (state : ndarray) : result Z :=
  for_each (manhattan_cell state) 0%Z cells.

(** [is_solvable]: the truth value of an integer is "non-zero". *)
Definition inversion_pair (flat_state : list Z) (i j : nat) : bool :=
  let a := nth i flat_state 0%Z in
  let b := nth j flat_state 0%Z in
  bool_decide (a ≠ 0%Z) && bool_decide (b ≠ 0%Z) && bool_decide (b < a)%Z.

Definition count_inversions (flat_state : list Z) : nat :=
  foldl (fun inversions i =>
    foldl (fun inversions j =>
      if inversion_pair flat_state i j then inversions + 1 else inversions)
      inversions (seq (i + 1) (length flat_state - (i + 1))))
    0 (seq 0 (length flat_state)).

Definition is_solvable (state : ndarray) : bool :=
  let flat_state := state in
  bool_decide (count_inversions flat_state mod 2 = 0).

(** [np.array([i for i in range(1, PUZZLE_DIM**2)] + [0]).reshape(...)] *)
Definition goal_buffer : list Z :=
  map Z.of_nat (seq 1 (PUZZLE_DIM ^ 2 - 1)) ++ [0%Z].

Definition goal_state : result ndarray := reshape goal_buffer.

End Puzzle.

(** ** The frontier

    [heapq] keeps the least tuple at the front of its list and the program
    only pushes, pops and tests for emptiness, so the frontier is modelled
    by the list of its entries in ascending order: [heappop] takes the
    head.  Entries are Python tuples [(f_score, key)]: they compare by
    [f_score], then by the bytes of the key, so two entries that compare
    equal are the same entry, and every heap that returns a least entry
    returns the same one ([bidirectional_a_star_with_model]). *)

Definition entry := (Z * key)%type.

(** The eight bytes of a 64-bit element, least significant first. *)
Definition int64_bytes (v : Z) : list Z :=
  (fun i => (v `div` 256 ^ Z.of_nat i) `mod` 256)%Z <$> seq 0 8.

(** [state.tobytes()], byte by byte. *)
Definition bytes_of (s : ndarray) : list Z := s ≫= int64_bytes.

(** The order of Python on [bytes]: lexicographic, a proper prefix first. *)
Fixpoint bytes_ltb (a b : list Z) : bool :=
  match a, b with
  | [], [] => false
  | [], _ :: _ => true
  | _ :: _, [] => false
  | x :: a', y :: b' =>
      if bool_decide (x < y)%Z then true
      else if bool_decide (x = y) then bytes_ltb a' b'
      else false
  end.

(** Two keys compare as their bytes do. *)
Definition key_ltb (a b : key) : bool := bytes_ltb (bytes_of a) (bytes_of b).

Definition entry_ltb (e1 e2 : entry) : bool :=
  if bool_decide (e1.1 < e2.1)%Z then true
  else if bool_decide (e1.1 = e2.1) then key_ltb e1.2 e2.2
  else false.

Fixpoint heappush (heap : list entry) (item : entry) : list entry :=
  match heap with
  | [] => [item]
  | e :: heap' =>
      if entry_ltb e item then e :: heappush heap' item else item :: heap
  end.

Definition heappop (heap : list entry) : result (entry * list entry) :=
  match heap with
  | [] => Raise IndexError
  | e :: heap' => Ok (e, heap')
  end.

(** ** One directional search *)

Record search := mkSearch {
  open_set : list entry;
  came_from : gmap key (option key);
  g_score : gmap key nat
}.

(** [d[k]] raises [KeyError] on a missing key; [d.get(k)] gives [None]. *)
Definition dict_item {V} (d : gmap key V) (k : key) : result V :=
  match d !! k with
  | Some v => Ok v
  | None => Raise KeyError
  end.

Definition dict_get (d : gmap key (option key)) (k : key) : option key :=
  match d !! k with
  | Some v => v
  | None => None
  end.

Section Search.

Variable PUZZLE_DIM : nat.

Definition a_star_search (initial_state goal_state : ndarray) (forward : bool)
  : result search :=
  h ← manhattan_distance PUZZLE_DIM initial_state;
  let open_set := heappush [] (h, tobytes initial_state) in
  let came_from := {[ tobytes initial_state := None ]} in
  let g_score := {[ tobytes initial_state := 0 ]} in
  Ok (mkSearch open_set came_from g_score).

(** The body of [for action in available_actions(current_state)], the same
    text in both directions. *)
Definition relax (current : key) (current_state : ndarray)
    (acc : search * nat) (action : Action) : result (search * nat) :=
  let '(sr, nodes_evaluated) := acc in
  neighbor ← do_action PUZZLE_DIM current_state action;
  let neighbor_bytes := tobytes neighbor in
  g_current ← dict_item (g_score sr) current;
  let tentative_g := g_current + 1 in
  let better :=
    match g_score sr !! neighbor_bytes with
    | None => true
    | Some g_old => bool_decide (tentative_g < g_old)
    end in
  if better then
    let g_score' := <[neighbor_bytes := tentative_g]> (g_score sr) in
    h ← manhattan_distance PUZZLE_DIM neighbor;
    let f_score := (Z.of_nat tentative_g + h)%Z in
    let open_set' := heappush (open_set sr) (f_score, neighbor_bytes) in
    let came_from' := <[neighbor_bytes := Some current]> (came_from sr) in
    Ok (mkSearch open_set' came_from' g_score', nodes_evaluated + 1)
  else Ok (sr, nodes_evaluated).

Inductive step_result :=
| Meeting (meeting_node : key) (sr : search) (explored : gset key)
| Expanded (sr : search) (explored : gset key) (nodes_evaluated : nat).

(** One "Expand ... search" block of the main loop, run on a non-empty
    frontier: pop, rebuild the array, mark explored, test for a meeting
    with the other direction, relax every neighbour. *)
Definition expand_step (sr : search) (explored other_explored : gset key)
    (nodes_evaluated : nat) : result step_result :=
  '((f, current), rest) ← heappop (open_set sr);
  current_state ← frombuffer PUZZLE_DIM current;
  let sr := mkSearch rest (came_from sr) (g_score sr) in
  let explored := explored ∪ {[ current ]} in
  if bool_decide (current ∈ other_explored) then Ok (Meeting current sr explored)
  else
    actions ← available_actions PUZZLE_DIM current_state;
    '(sr', nodes') ←
      for_each (relax current current_state) (sr, nodes_evaluated) actions;
    Ok (Expanded sr' explored nodes').

(** [while node is not None: path.append(node); node = came_from.get(node)].
    The loop has no bound in the source; [None] is "out of fuel". *)
Fixpoint walk (fuel : nat) (came_from : gmap key (option key))
    (node : option key) : option (list key) :=
  match node with
  | None => Some []
  | Some k =>
      match fuel with
      | 0 => None
      | S fuel' => cons k <$> walk fuel' came_from (dict_get came_from k)
      end
  end.

Inductive outcome :=
| OutOfFuel
| Raised (e : exn)
| Returned (full_path : option (list key)) (nodes_evaluated : nat).

Record loop_state := mkLoop {
  fwd : search;
  bwd : search;
  explored_forward : gset key;
  explored_backward : gset key;
  nodes_evaluated : nat
}.

(** The code after the main loop. *)
Definition reconstruct (fuel : nat) (st : loop_state) (meeting_node : option key)
  : outcome :=
  match meeting_node with
  | None => Returned None (nodes_evaluated st)
  | Some m =>
      match walk fuel (came_from (fwd st)) (Some m),
            walk fuel (came_from (bwd st)) (dict_get (came_from (bwd st)) m) with
      | Some path_forward, Some path_backward =>
          Returned (Some (reverse path_forward ++ path_backward)) (nodes_evaluated st)
      | _, _ => OutOfFuel
      end
  end.

Definition nonempty {A} (l : list A) : bool :=
  match l with [] => false | _ => true end.

Inductive iteration_result :=
| Break (meeting_node : key) (st : loop_state)
| Continue (st : loop_state).

(** The body of [while open_forward and open_backward]. *)
Definition iteration (st : loop_state) : result iteration_result :=
  r ← (if nonempty (open_set (fwd st)) then
         r ← expand_step (fwd st) (explored_forward st) (explored_backward st)
               (nodes_evaluated st);
         match r with
         | Meeting m sr ef =>
             Ok (Break m (mkLoop sr (bwd st) ef (explored_backward st)
                            (nodes_evaluated st)))
         | Expanded sr ef n =>
             Ok (Continue (mkLoop sr (bwd st) ef (explored_backward st) n))
         end
       else Ok (Continue st));
  match r with
  | Break m st' => Ok (Break m st')
  | Continue st =>
      if nonempty (open_set (bwd st)) then
        r ← expand_step (bwd st) (explored_backward st) (explored_forward st)
              (nodes_evaluated st);
        match r with
        | Meeting m sr eb =>
            Ok (Break m (mkLoop (fwd st) sr (explored_forward st) eb
                           (nodes_evaluated st)))
        | Expanded sr eb n =>
            Ok (Continue (mkLoop (fwd st) sr (explored_forward st) eb n))
        end
      else Ok (Continue st)
  end.

Fixpoint main_loop (fuel : nat) (st : loop_state) : outcome :=
  match fuel with
  | 0 => OutOfFuel
  | S fuel' =>
      if nonempty (open_set (fwd st)) && nonempty (open_set (bwd st)) then
        match iteration st with
        | Raise e => Raised e
        | Ok (Break m st') => reconstruct fuel' st' (Some m)
        | Ok (Continue st') => main_loop fuel' st'
        end
      else reconstruct fuel' st None
  end.

Definition initial_loop_state (initial_state : ndarray) : result loop_state :=
  goal_state ← goal_state PUZZLE_DIM;
  fwd ← a_star_search initial_state goal_state true;
  bwd ← a_star_search goal_state initial_state false;
  Ok (mkLoop fwd bwd ∅ ∅ 0).

Definition bidirectional_a_star (fuel : nat) (initial_state : ndarray) : outcome :=
  match initial_loop_state initial_state with
  | Raise e => Raised e
  | Ok st => main_loop fuel st
  end.

End Search.

(** ** Valid states and the state graph *)

(** A valid state of dimension [n]: a permutation of [0 .. n*n-1] (so it
    has exactly one blank), on a board with at least one cell. *)
Definition valid_state (n : nat) (s : ndarray) : Prop :=
  0 < n /\ s ≡ₚ Z.of_nat <$> seq 0 (n * n).

#[global] Instance valid_state_dec n s : Decision (valid_state n s).
Proof. unfold valid_state. apply _. Defined.

Ltac decide_valid := apply (bool_decide_unpack _); vm_compute; exact I.

(** Two cells are neighbours in a row or in a column. *)
Definition adjacent (p q : nat * nat) : Prop :=
  (p.2 = q.2 /\ (p.1 = S q.1 \/ q.1 = S p.1)) \/
  (p.1 = q.1 /\ (p.2 = S q.2 \/ q.2 = S p.2)).

(** The list that [available_actions] builds for a blank at [(x, y)]. *)
Definition moves_at (n : nat) (x y : nat) : list Action :=
  (if bool_decide (0 < x) then [mkAction (x, y) (x - 1, y)] else []) ++
  (if bool_decide (x < n - 1) then [mkAction (x, y) (x + 1, y)] else []) ++
  (if bool_decide (0 < y) then [mkAction (x, y) (x, y - 1)] else []) ++
  (if bool_decide (y < n - 1) then [mkAction (x, y) (x, y + 1)] else []).

(** [legal_move n s s']: some action of [available_actions(s)] turns [s]
    into [s']. *)
Definition legal_move (n : nat) (s s' : ndarray) : Prop :=
  exists acts a,
    available_actions n s = Ok acts /\ a ∈ acts /\ do_action n s a = Ok s'.

(** Consecutive elements of a list are related by [R]. *)
Fixpoint linked (R : key -> key -> Prop) (l : list key) : Prop :=
  match l with
  | a :: l' =>
      match l' with
      | b :: _ => R a b /\ linked R l'
      | [] => True
      end
  | [] => True
  end.

(** A path from [start] to the goal in which every step is a legal move. *)
Definition good_path (n : nat) (start : key) (path : list key) : Prop :=
  head path = Some start /\ last path = Some (goal_buffer n) /\
  linked (legal_move n) path.

(** A finite set that holds every valid state: the state space. *)
Definition universe (n : nat) : gset key :=
  list_to_set (permutations (Z.of_nat <$> seq 0 (n * n))).

(** ** The heuristic, cell by cell *)

Fixpoint Zsum (l : list Z) : Z :=
  match l with
  | [] => 0%Z
  | z :: l' => (z + Zsum l')%Z
  end.

(** What one cell adds to the distance. *)
Definition cell_cost (n : nat) (s : ndarray) (xy : nat * nat) : Z :=
  match getitem n s xy with
  | Ok value =>
      if bool_decide (value ≠ 0%Z) then
        (Z.abs (Z.of_nat xy.1 - (value - 1) `div` Z.of_nat n) +
         Z.abs (Z.of_nat xy.2 - (value - 1) `mod` Z.of_nat n))%Z
      else 0%Z
  | Raise _ => 0%Z
  end.

(** The two-argument heuristic as the specification words it (section 4.2):
    for every non-blank value at [(x, y)], take its position [(tx, ty)] in
    [target] and add [|x - tx| + |y - ty|].  Named [spec_] because the
    source has no such function: it serves for comparison only. *)
Definition spec_position (n : nat) (target : ndarray) (v : Z) : option (nat * nat) :=
  match list_find (fun w => w = v) target with
  | Some (i, _) => Some (i / n, i mod n)
  | None => None
  end.

Definition spec_cell_cost (n : nat) (state target : ndarray) (xy : nat * nat) : Z :=
  match getitem n state xy with
  | Ok v =>
      if bool_decide (v ≠ 0%Z) then
        match spec_position n target v with
        | Some (tx, ty) =>
            (Z.abs (Z.of_nat xy.1 - Z.of_nat tx) +
             Z.abs (Z.of_nat xy.2 - Z.of_nat ty))%Z
        | None => 0%Z
        end
      else 0%Z
  | Raise _ => 0%Z
  end.

Definition spec_manhattanDistance (n : nat) (state target : ndarray) : Z :=
  Zsum (spec_cell_cost n state target <$> cells n).

(** ** Measuring the progress of a direction *)

(** The sum of the values of a [g_score] dictionary. *)
Definition gsum (g : gmap key nat) : nat :=
  map_fold (fun _ v acc => v + acc) 0 g.

(** The lexicographic order on pairs of numbers. *)
Definition lex_lt (a b : nat * nat) : Prop :=
  a.1 < b.1 \/ (a.1 = b.1 /\ a.2 < b.2).

Definition lex_le (a b : nat * nat) : Prop :=
  a.1 < b.1 \/ (a.1 = b.1 /\ a.2 <= b.2).

(** The valid states without a score yet, then twice the sum of the scores
    plus the length of the frontier. *)
Definition measure (n : nat) (sr : search) : nat * nat :=
  (size (universe n ∖ dom (g_score sr)),
   2 * gsum (g_score sr) + length (open_set sr)).

(** ** The invariant of one direction and of the main loop *)

Record dir_inv (n : nat) (root : key) (sr : search) (explored : gset key)
  : Prop := {
  inv_root_g : g_score sr !! root = Some 0;
  inv_root_came : came_from sr !! root = Some None;
  inv_came_none : forall k, came_from sr !! k = Some None -> k = root;
  inv_came_some : forall k p, came_from sr !! k = Some (Some p) ->
    exists gp gk, g_score sr !! p = Some gp /\ g_score sr !! k = Some gk /\
                  gp < gk /\ legal_move n p k;
  inv_g_came : forall k, is_Some (g_score sr !! k) -> is_Some (came_from sr !! k);
  inv_g_valid : forall k, is_Some (g_score sr !! k) -> valid_state n k;
  inv_open : forall e, e ∈ open_set sr -> is_Some (g_score sr !! e.2);
  inv_explored : forall k, k ∈ explored -> is_Some (g_score sr !! k)
}.

(** What one "Expand" block does to a direction that satisfies the
    invariant and has a non-empty frontier. *)
Definition step_post (n : nat) (root : key) (sr : search) (ex oex : gset key)
    (r : step_result) : Prop :=
  match r with
  | Meeting m sr' ex' =>
      m ∈ oex /\ ex' = ex ∪ {[ m ]} /\ dir_inv n root sr' ex'
  | Expanded sr' ex' nodes' =>
      (exists e rest, open_set sr = e :: rest /\ (e.2 ∉ oex) /\
                      ex' = ex ∪ {[ e.2 ]}) /\
      dir_inv n root sr' ex' /\ lex_lt (measure n sr') (measure n sr)
  end.

Definition loop_inv (n : nat) (start : key) (st : loop_state) : Prop :=
  dir_inv n start (fwd st) (explored_forward st) /\
  dir_inv n (goal_buffer n) (bwd st) (explored_backward st).

Definition iteration_post (n : nat) (start : key) (st : loop_state)
    (r : iteration_result) : Prop :=
  match r with
  | Break m st' =>
      loop_inv n start st' /\
      is_Some (g_score (fwd st') !! m) /\ is_Some (g_score (bwd st') !! m)
  | Continue st' =>
      loop_inv n start st' /\
      lex_lt (measure n (fwd st')) (measure n (fwd st))
  end.

(** The states at the head of the main loop. *)
Inductive reachable (n : nat) (start : ndarray) : loop_state -> Prop :=
| reachable_init st :
    initial_loop_state n start = Ok st -> reachable n start st
| reachable_step st st' :
    reachable n start st ->
    nonempty (open_set (fwd st)) && nonempty (open_set (bwd st)) = true ->
    iteration n st = Ok (Continue st') ->
    reachable n start st'.

(** [k] iterations of the main loop that all go on. *)
Fixpoint run_iterations (n k : nat) (st : loop_state) : option loop_state :=
  match k with
  | 0 => Some st
  | S k' =>
      if nonempty (open_set (fwd st)) && nonempty (open_set (bwd st)) then
        match iteration n st with
        | Ok (Continue st') => run_iterations n k' st'
        | _ => None
        end
      else None
  end.

(** The state at the head of the loop after [k] iterations on [start]. *)
Definition state_after (n : nat) (start : ndarray) (k : nat) : option loop_state :=
  match initial_loop_state n start with
  | Ok st0 => run_iterations n k st0
  | Raise _ => None
  end.

(** ** Stale entries and the order of the frontier *)

Definition entry_le (e1 e2 : entry) : Prop := entry_ltb e2 e1 = false.

(** An entry is stale when its priority is not the current score of its
    state plus the heuristic. *)
Definition stale (n : nat) (sr : search) (e : entry) : Prop :=
  exists g h, g_score sr !! e.2 = Some g /\ manhattan_distance n e.2 = Ok h /\
              e.1 <> (Z.of_nat g + h)%Z.

(** The state [k] with score [g] waits in the frontier with its current
    priority. *)
Definition queued (n : nat) (sr : search) (k : key) (g : nat) : Prop :=
  exists h, manhattan_distance n k = Ok h /\
            ((Z.of_nat g + h)%Z, k) ∈ open_set sr.

(** The state [k] has been expanded with its current score [g]. *)
Definition settled (n : nat) (sr : search) (ex : gset key) (k : key) (g : nat)
  : Prop :=
  k ∈ ex /\
  forall nb, legal_move n k nb ->
    exists gn, g_score sr !! nb = Some gn /\ gn <= g + 1.

(** No entry is below the current score of its state plus the heuristic. *)
Definition lower_bound (n : nat) (sr : search) : Prop :=
  forall e, e ∈ open_set sr ->
    exists g h, g_score sr !! e.2 = Some g /\ manhattan_distance n e.2 = Ok h /\
                (Z.of_nat g + h <= e.1)%Z.

Record lazy_inv (n : nat) (sr : search) (ex : gset key) : Prop := {
  lz_sorted : StronglySorted entry_le (open_set sr);
  lz_lower : lower_bound n sr;
  lz_settled : forall k g, g_score sr !! k = Some g ->
    queued n sr k g \/ settled n sr ex k g
}.

(** The same during the expansion of [cur]: every other state is queued or
    settled. *)
Record relax_inv_lazy (n : nat) (cur : key) (sr : search) (ex : gset key)
  : Prop := {
  rl_sorted : StronglySorted entry_le (open_set sr);
  rl_lower : lower_bound n sr;
  rl_others : forall k g, g_score sr !! k = Some g -> k <> cur ->
    queued n sr k g \/ settled n sr ex k g
}.

Definition loop_lazy (n : nat) (st : loop_state) : Prop :=
  lazy_inv n (fwd st) (explored_forward st) /\
  lazy_inv n (bwd st) (explored_backward st) /\
  explored_forward st ## explored_backward st.

(** ** The loop with the specification's test for stale entries

    Section 4.5 of the specification has a test that the source does not
    have: each step pops the lowest entry and "skips (continue loop) if it
    is a stale duplicate".  The definitions named [spec_] add that test, and
    nothing else, to the two blocks of the source; they serve for
    comparison only. *)

Definition stale_entryb (n : nat) (sr : search) (e : entry) : bool :=
  match g_score sr !! e.2, manhattan_distance n e.2 with
  | Some g, Ok h => negb (bool_decide (e.1 = (Z.of_nat g + h)%Z))
  | _, _ => false
  end.

(** The direction after a pop that is skipped, when the head is stale. *)
Definition spec_skip (n : nat) (sr : search) : option search :=
  match open_set sr with
  | e :: rest =>
      if stale_entryb n sr e
      then Some (mkSearch rest (came_from sr) (g_score sr))
      else None
  | [] => None
  end.

Definition spec_iteration (n : nat) (st : loop_state) : result iteration_result :=
  match spec_skip n (fwd st) with
  | Some sr =>
      Ok (Continue (mkLoop sr (bwd st) (explored_forward st)
                      (explored_backward st) (nodes_evaluated st)))
  | None =>
      r ← (if nonempty (open_set (fwd st)) then
             r ← expand_step n (fwd st) (explored_forward st)
                   (explored_backward st) (nodes_evaluated st);
             match r with
             | Meeting m sr ef =>
                 Ok (Break m (mkLoop sr (bwd st) ef (explored_backward st)
                                (nodes_evaluated st)))
             | Expanded sr ef k =>
                 Ok (Continue (mkLoop sr (bwd st) ef (explored_backward st) k))
             end
           else Ok (Continue st));
      match r with
      | Break m st' => Ok (Break m st')
      | Continue st =>
          match spec_skip n (bwd st) with
          | Some sr =>
              Ok (Continue (mkLoop (fwd st) sr (explored_forward st)
                              (explored_backward st) (nodes_evaluated st)))
          | None =>
              if nonempty (open_set (bwd st)) then
                r ← expand_step n (bwd st) (explored_backward st)
                      (explored_forward st) (nodes_evaluated st);
                match r with
                | Meeting m sr eb =>
                    Ok (Break m (mkLoop (fwd st) sr (explored_forward st) eb
                                   (nodes_evaluated st)))
                | Expanded sr eb k =>
                    Ok (Continue (mkLoop (fwd st) sr (explored_forward st) eb k))
                end
              else Ok (Continue st)
          end
      end
  end.

Fixpoint spec_main_loop (n fuel : nat) (st : loop_state) : outcome :=
  match fuel with
  | 0 => OutOfFuel
  | S fuel' =>
      if nonempty (open_set (fwd st)) && nonempty (open_set (bwd st)) then
        match spec_iteration n st with
        | Raise e => Raised e
        | Ok (Break m st') => reconstruct fuel' st' (Some m)
        | Ok (Continue st') => spec_main_loop n fuel' st'
        end
      else reconstruct fuel' st None
  end.

Definition spec_bidirectional_a_star (n fuel : nat) (initial_state : ndarray)
  : outcome :=
  match initial_loop_state n initial_state with
  | Raise e => Raised e
  | Ok st => spec_main_loop n fuel st
  end.

(** ** The search over any heap

    [heapq] documents a contract, not a layout: [heappush] adds an item to
    the heap and [heappop] removes and returns a smallest one.  The
    functions below are the blocks of the source once more, with the
    frontier given by two functions [push] and [pop] on lists of entries
    in any arrangement; [heap_contract] is the contract of [heapq] for
    them, under an invariant [heap_inv] of the arrangement. *)

Section AnyHeap.

Variable push : list entry -> entry -> list entry.
Variable pop : list entry -> option (entry * list entry).
Variable PUZZLE_DIM : nat.

Definition pop_item (heap : list entry) : result (entry * list entry) :=
  match pop heap with
  | Some r => Ok r
  | None => Raise IndexError
  end.

Definition a_star_search_with (initial_state goal_state : ndarray)
    (forward : bool) : result search :=
  h ← manhattan_distance PUZZLE_DIM initial_state;
  let open_set := push [] (h, tobytes initial_state) in
  let came_from := {[ tobytes initial_state := None ]} in
  let g_score := {[ tobytes initial_state := 0 ]} in
  Ok (mkSearch open_set came_from g_score).

Definition relax_with (current : key) (current_state : ndarray)
    (acc : search * nat) (action : Action) : result (search * nat) :=
  let '(sr, nodes_evaluated) := acc in
  neighbor ← do_action PUZZLE_DIM current_state action;
  let neighbor_bytes := tobytes neighbor in
  g_current ← dict_item (g_score sr) current;
  let tentative_g := g_current + 1 in
  let better :=
    match g_score sr !! neighbor_bytes with
    | None => true
    | Some g_old => bool_decide (tentative_g < g_old)
    end in
  if better then
    let g_score' := <[neighbor_bytes := tentative_g]> (g_score sr) in
    h ← manhattan_distance PUZZLE_DIM neighbor;
    let f_score := (Z.of_nat tentative_g + h)%Z in
    let open_set' := push (open_set sr) (f_score, neighbor_bytes) in
    let came_from' := <[neighbor_bytes := Some current]> (came_from sr) in
    Ok (mkSearch open_set' came_from' g_score', nodes_evaluated + 1)
  else Ok (sr, nodes_evaluated).

Definition expand_step_with (sr : search) (explored other_explored : gset key)
    (nodes_evaluated : nat) : result step_result :=
  '((f, current), rest) ← pop_item (open_set sr);
  current_state ← frombuffer PUZZLE_DIM current;
  let sr := mkSearch rest (came_from sr) (g_score sr) in
  let explored := explored ∪ {[ current ]} in
  if bool_decide (current ∈ other_explored) then Ok (Meeting current sr explored)
  else
    actions ← available_actions PUZZLE_DIM current_state;
    '(sr', nodes') ←
      for_each (relax_with current current_state) (sr, nodes_evaluated) actions;
    Ok (Expanded sr' explored nodes').

Definition iteration_with (st : loop_state) : result iteration_result :=
  r ← (if nonempty (open_set (fwd st)) then
         r ← expand_step_with (fwd st) (explored_forward st)
               (explored_backward st) (nodes_evaluated st);
         match r with
         | Meeting m sr ef =>
             Ok (Break m (mkLoop sr (bwd st) ef (explored_backward st)
                            (nodes_evaluated st)))
         | Expanded sr ef k =>
             Ok (Continue (mkLoop sr (bwd st) ef (explored_backward st) k))
         end
       else Ok (Continue st));
  match r with
  | Break m st' => Ok (Break m st')
  | Continue st =>
      if nonempty (open_set (bwd st)) then
        r ← expand_step_with (bwd st) (explored_backward st)
              (explored_forward st) (nodes_evaluated st);
        match r with
        | Meeting m sr eb =>
            Ok (Break m (mkLoop (fwd st) sr (explored_forward st) eb
                           (nodes_evaluated st)))
        | Expanded sr eb k =>
            Ok (Continue (mkLoop (fwd st) sr (explored_forward st) eb k))
        end
      else Ok (Continue st)
  end.

Fixpoint main_loop_with (fuel : nat) (st : loop_state) : outcome :=
  match fuel with
  | 0 => OutOfFuel
  | S fuel' =>
      if nonempty (open_set (fwd st)) && nonempty (open_set (bwd st)) then
        match iteration_with st with
        | Raise e => Raised e
        | Ok (Break m st') => reconstruct fuel' st' (Some m)
        | Ok (Continue st') => main_loop_with fuel' st'
        end
      else reconstruct fuel' st None
  end.

Definition initial_loop_state_with (initial_state : ndarray)
  : result loop_state :=
  goal_state ← goal_state PUZZLE_DIM;
  fwd ← a_star_search_with initial_state goal_state true;
  bwd ← a_star_search_with goal_state initial_state false;
  Ok (mkLoop fwd bwd ∅ ∅ 0).

Definition bidirectional_a_star_with (fuel : nat) (initial_state : ndarray)
  : outcome :=
  match initial_loop_state_with initial_state with
  | Raise e => Raised e
  | Ok st => main_loop_with fuel st
  end.

End AnyHeap.

(** The contract of a heap: the empty list is a heap; a push adds the
    item; a pop of a non-empty heap removes an entry that no entry of the
    heap is smaller than. *)
Definition heap_contract (heap_inv : list entry -> Prop)
    (push : list entry -> entry -> list entry)
    (pop : list entry -> option (entry * list entry)) : Prop :=
  heap_inv [] /\
  (forall h e, heap_inv h -> heap_inv (push h e) /\ push h e ≡ₚ e :: h) /\
  (forall h, heap_inv h -> h <> [] -> is_Some (pop h)) /\
  (forall h e rest, heap_inv h -> pop h = Some (e, rest) ->
     heap_inv rest /\ h ≡ₚ e :: rest /\
     forall e', e' ∈ h -> entry_ltb e' e = false).

(** Two heaps: the sorted list of the model, and a list in the order of
    the pushes that is searched for its least entry at every pop. *)
Definition sorted_pop (heap : list entry) : option (entry * list entry) :=
  match heap with
  | [] => None
  | e :: heap' => Some (e, heap')
  end.

Definition push_front (heap : list entry) (item : entry) : list entry :=
  item :: heap.

Fixpoint pop_least (heap : list entry) : option (entry * list entry) :=
  match heap with
  | [] => None
  | e :: heap' =>
      match pop_least heap' with
      | None => Some (e, [])
      | Some (m, rest) =>
          if entry_ltb m e then Some (m, e :: rest) else Some (e, heap')
      end
  end.

(** The relation between a state of the search over any heap and a state
    of the search over the sorted list: the same entries, the same
    dictionaries. *)
Definition sim_search (heap_inv : list entry -> Prop) (gs s : search) : Prop :=
  heap_inv (open_set gs) /\ open_set gs ≡ₚ open_set s /\
  came_from gs = came_from s /\ g_score gs = g_score s.

Definition sim_loop (heap_inv : list entry -> Prop) (gst st : loop_state)
  : Prop :=
  sim_search heap_inv (fwd gst) (fwd st) /\
  sim_search heap_inv (bwd gst) (bwd st) /\
  explored_forward gst = explored_forward st /\
  explored_backward gst = explored_backward st /\
  nodes_evaluated gst = nodes_evaluated st.

(** Two results raise the same exception or return related values. *)
Definition sim_result {A} (R : A -> A -> Prop) (r1 r2 : result A) : Prop :=
  match r1, r2 with
  | Ok a1, Ok a2 => R a1 a2
  | Raise e1, Raise e2 => e1 = e2
  | _, _ => False
  end.

Definition sim_step (heap_inv : list entry -> Prop) (r1 r2 : step_result)
  : Prop :=
  match r1, r2 with
  | Meeting m1 gs ex1, Meeting m2 s ex2 =>
      m1 = m2 /\ sim_search heap_inv gs s /\ ex1 = ex2
  | Expanded gs ex1 k1, Expanded s ex2 k2 =>
      sim_search heap_inv gs s /\ ex1 = ex2 /\ k1 = k2
  | _, _ => False
  end.

Definition sim_iteration (heap_inv : list entry -> Prop)
    (r1 r2 : iteration_result) : Prop :=
  match r1, r2 with
  | Break m1 gst, Break m2 st => m1 = m2 /\ sim_loop heap_inv gst st
  | Continue gst, Continue st => sim_loop heap_inv gst st
  | _, _ => False
  end.

(** ** The states of the examples *)

(** The 3 x 3 state of the notebook's run: 22 moves, 296 nodes. *)
Definition scenario : ndarray := [0;3;1;6;7;5;4;8;2]%Z.

(** The state reached from the 4 x 4 goal by moving the blank up and then
    left: two legal moves. *)
Definition two_moves_from_goal4 : ndarray :=
  [1;2;3;4; 5;6;7;8; 9;10;0;11; 13;14;15;12]%Z.

(** A run that meets a stale entry: after 18 iterations on this 3 x 3 state
    the forward frontier starts with the entry
    [(13, 1 2 0 / 7 4 3 / 5 8 6)]; the score of that state is 5 by then and
    its heuristic is 6, and the state is in the explored set already. *)
Definition stale_start : ndarray := [1;0;4;7;3;2;5;8;6]%Z.

Definition stale_state : loop_state :=
  default (mkLoop (mkSearch [] ∅ ∅) (mkSearch [] ∅ ∅) ∅ ∅ 0)
          (state_after 3 stale_start 18).

Definition stale_entry : entry := (13%Z, [1;2;0;7;4;3;5;8;6]%Z).

(** The state at the head of the loop one iteration later. *)
Definition stale_next : loop_state :=
  default (mkLoop (mkSearch [] ∅ ∅) (mkSearch [] ∅ ∅) ∅ ∅ 0)
          (state_after 3 stale_start 19).

(** ** The rest of the notebook: the randomizer and the decoder of a path *)

(** [random.choice(seq)]: the element at a random index below [len(seq)],
    [IndexError] on an empty sequence.  The number [r] is what the
    generator draws; [r mod len(seq)] ranges over every index. *)
Definition choice {A} (r : nat) (seq : list A) : result A :=
  match seq with
  | [] => Raise IndexError
  | _ :: _ =>
      match seq !! (r mod length seq) with
      | Some a => Ok a
      | None => Raise IndexError
      end
  end.

Section Randomize.

Variable PUZZLE_DIM : nat.
Variable RANDOMIZE_STEPS : nat.

(** The body of the loop of [randomize_puzzle]; [draws k] is the number
    drawn in iteration [k]. *)
Definition randomize_step (draws : nat -> nat) (state : ndarray) (k : nat)
  : result ndarray :=
  actions ← available_actions PUZZLE_DIM state;
  action ← choice (draws k) actions;
  do_action PUZZLE_DIM state action.

Definition randomize_puzzle (draws : nat -> nat) : result ndarray :=
  state ← goal_state PUZZLE_DIM;
  for_each (randomize_step draws) state (seq 0 RANDOMIZE_STEPS).

(** The list comprehension of [reconstruct_full_path]: the first key of
    the wrong size raises. *)
Fixpoint reconstruct_full_path (path_bytes : list key) : result (list ndarray) :=
  match path_bytes with
  | [] => Ok []
  | state_bytes :: rest =>
      state ← frombuffer PUZZLE_DIM state_bytes;
      states ← reconstruct_full_path rest;
      Ok (state :: states)
  end.

End Randomize.

(** ** Inversions, structurally *)

(** The test of [is_solvable] on two values, the earlier one first. *)
Definition inv_pair (a b : Z) : bool :=
  bool_decide (a ≠ 0%Z) && bool_decide (b ≠ 0%Z) && bool_decide (b < a)%Z.

(** The number of elements of [l] that form an inversion with an earlier
    [a]. *)
Fixpoint inv_after (a : Z) (l : list Z) : nat :=
  match l with
  | [] => 0
  | b :: l' => (if inv_pair a b then 1 else 0) + inv_after a l'
  end.

Fixpoint inversions (l : list Z) : nat :=
  match l with
  | [] => 0
  | a :: l' => inv_after a l' + inversions l'
  end.

(** The inversions between an element of [l1] and a later element of [l2]. *)
Fixpoint cross (l1 l2 : list Z) : nat :=
  match l1 with
  | [] => 0
  | a :: l1' => inv_after a l2 + cross l1' l2
  end.

(** The row of the blank, counted from the bottom row. *)
Definition blank_rows_above_bottom (n : nat) (s : ndarray) : nat :=
  match list_find (fun v => v = 0%Z) s with
  | Some (i, _) => n - 1 - i / n
  | None => 0
  end.

(** The quantity that legal moves keep: the parity of the inversions plus,
    on boards with an even side, the row of the blank. *)
Definition move_parity (n : nat) (s : ndarray) : nat :=
  (count_inversions s + (n - 1) * blank_rows_above_bottom n s) mod 2.

(** ** A checker for paths of legal moves *)

Definition moved (n : nat) (s s' : ndarray) (a : Action) : bool :=
  match do_action n s a with
  | Ok t => bool_decide (t = s')
  | Raise _ => false
  end.

Definition legal_moveb (n : nat) (s s' : ndarray) : bool :=
  match available_actions n s with
  | Ok acts => existsb (moved n s s') acts
  | Raise _ => false
  end.

Fixpoint linkedb (n : nat) (l : list key) : bool :=
  match l with
  | a :: l' =>
      match l' with
      | b :: _ => legal_moveb n a b && linkedb n l'
      | [] => true
      end
  | [] => true
  end.

(** A 3 x 3 state twelve moves from the goal, and twelve legal moves that
    solve it. *)
Definition detour_start : ndarray := [1;7;2;4;0;3;8;5;6]%Z.

Definition detour_shorter : list key :=
  [[1;7;2;4;0;3;8;5;6]; [1;0;2;4;7;3;8;5;6]; [0;1;2;4;7;3;8;5;6];
   [4;1;2;0;7;3;8;5;6]; [4;1;2;7;0;3;8;5;6]; [4;1;2;7;5;3;8;0;6];
   [4;1;2;7;5;3;0;8;6]; [4;1;2;0;5;3;7;8;6]; [0;1;2;4;5;3;7;8;6];
   [1;0;2;4;5;3;7;8;6]; [1;2;0;4;5;3;7;8;6]; [1;2;3;4;5;0;7;8;6];
   [1;2;3;4;5;6;7;8;0]]%Z.

(** ** Shortest distances *)

(** [g] is the least number of legal moves from [root] to [k]. *)
Definition shortest (n : nat) (root k : key) (g : nat) : Prop :=
  nsteps (legal_move n) g root k /\
  forall j, nsteps (legal_move n) j root k -> g <= j.

(** No sequence of legal moves from the root to an explored state is
    shorter than the state's score. *)
Definition explored_optimal (n : nat) (root : key) (sr : search)
    (ex : gset key) : Prop :=
  forall k g, k ∈ ex -> g_score sr !! k = Some g ->
    forall j, nsteps (legal_move n) j root k -> g <= j.

(** Every predecessor recorded in [came_from] has been expanded. *)
Definition pred_explored (sr : search) (ex : gset key) : Prop :=
  forall k p, came_from sr !! k = Some (Some p) -> p ∈ ex.

(** * Lemmas and theorems *)

(** ** The error monad and the model on concrete inputs *)

Lemma bind_Ok {A B} (m : result A) (f : A -> result B) (b : B) :
  m ≫= f = Ok b -> exists a, m = Ok a /\ f a = Ok b.
Proof. destruct m as [a|e]; simpl; [eauto | discriminate]. Qed.

Lemma for_each_cons {A B} (body : B -> A -> result B) acc a l :
  for_each body acc (a :: l) =
  body acc a ≫= fun acc' => for_each body acc' l.
Proof. reflexivity. Qed.

Lemma for_each_app {A B} (body : B -> A -> result B) acc l1 l2 :
  for_each body acc (l1 ++ l2) =
  for_each body acc l1 ≫= fun acc' => for_each body acc' l2.
Proof.
  revert acc; induction l1 as [|a l1 IH]; intros acc; simpl; [done|].
  destruct (body acc a) as [acc'|e]; simpl; [apply IH | done].
Qed.

Example goal3 : goal_state 3 = Ok [1;2;3;4;5;6;7;8;0]%Z.
Proof. reflexivity. Qed.

Example actions_goal3 :
  available_actions 3 [1;2;3;4;5;6;7;8;0]%Z =
  Ok [mkAction (2, 2) (1, 2); mkAction (2, 2) (2, 1)].
Proof. reflexivity. Qed.

Example do_action_goal3 :
  do_action 3 [1;2;3;4;5;6;7;8;0]%Z (mkAction (2, 2) (1, 2)) =
  Ok [1;2;3;4;5;0;7;8;6]%Z.
Proof. reflexivity. Qed.

Example manhattan_example :
  manhattan_distance 3 [0;3;1;6;7;5;4;8;2]%Z = Ok 12%Z.
Proof. reflexivity. Qed.

Example is_solvable_example : is_solvable [0;3;1;6;7;5;4;8;2]%Z = true.
Proof. reflexivity. Qed.

(** The numbers that the README reports for the 3 x 3 puzzle: a solution of
    22 steps after 296 evaluated nodes. *)
Example scenario_run :
  exists path,
    bidirectional_a_star 3 300 scenario = Returned (Some path) 296 /\
    length path - 1 = 22.
Proof. eexists. split; [vm_compute; reflexivity | reflexivity]. Qed.

Section Primitives.

Variable n : nat.

Lemma valid_length s : valid_state n s -> length s = n * n.
Proof.
  intros [_ Hp]. rewrite Hp, length_fmap, length_seq. done.
Qed.

Lemma valid_NoDup s : valid_state n s -> NoDup s.
Proof.
  intros [_ Hp]. rewrite Hp. apply NoDup_fmap_2; [apply _ | apply NoDup_seq].
Qed.

Lemma valid_elem s v :
  valid_state n s -> v ∈ s <-> (0 <= v < Z.of_nat (n * n))%Z.
Proof.
  intros [_ Hp]. rewrite Hp, list_elem_of_fmap. split.
  - intros (k & -> & Hk). apply elem_of_seq in Hk. lia.
  - intros Hv. exists (Z.to_nat v). split; [lia|]. apply elem_of_seq. lia.
Qed.

Lemma valid_of_NoDup s :
  0 < n -> length s = n * n -> NoDup s ->
  (forall v, v ∈ s -> (0 <= v < Z.of_nat (n * n))%Z) ->
  valid_state n s.
Proof.
  intros Hn Hlen Hnd Hin. split; [done|].
  apply submseteq_length_Permutation.
  - apply NoDup_submseteq; [done|]. intros v Hv. apply Hin in Hv.
    apply list_elem_of_fmap. exists (Z.to_nat v). split; [lia|].
    apply elem_of_seq. lia.
  - rewrite length_fmap, length_seq. lia.
Qed.

Lemma coords_lt i : i < n * n -> i / n < n /\ i mod n < n.
Proof.
  intros Hi. assert (n <> 0) by lia. split.
  - apply Nat.Div0.div_lt_upper_bound. lia.
  - by apply Nat.mod_upper_bound.
Qed.

Lemma coords_index i : i / n * n + i mod n = i.
Proof. pose proof (Nat.div_mod_eq i n). lia. Qed.

Lemma index_coords x y :
  y < n -> (x * n + y) / n = x /\ (x * n + y) mod n = y.
Proof.
  intros Hy. split.
  - rewrite Nat.div_add_l by lia. rewrite Nat.div_small by done. lia.
  - rewrite Nat.add_comm, Nat.Div0.mod_add. by apply Nat.mod_small.
Qed.

Lemma index_lt x y : x < n -> y < n -> x * n + y < n * n.
Proof. nia. Qed.

Lemma index_inj x y x' y' :
  y < n -> y' < n -> x * n + y = x' * n + y' -> x = x' /\ y = y'.
Proof.
  intros Hy Hy' Heq.
  destruct (index_coords x y Hy) as [Hx1 Hy1].
  destruct (index_coords x' y' Hy') as [Hx2 Hy2].
  rewrite Heq in Hx1, Hy1. split; congruence.
Qed.

Lemma getitem_Ok s x y v :
  getitem n s (x, y) = Ok v <->
  x < n /\ y < n /\ s !! (x * n + y) = Some v.
Proof.
  unfold getitem. case_bool_decide as Hb.
  - destruct (s !! (x * n + y)) as [w|]; split.
    + intros [= ->]. tauto.
    + intros (_ & _ & Hw). congruence.
    + discriminate.
    + intros (_ & _ & Hw). discriminate.
  - split; [discriminate | tauto].
Qed.

Lemma getitem_valid s x y :
  length s = n * n -> x < n -> y < n -> exists v, getitem n s (x, y) = Ok v.
Proof.
  intros Hlen Hx Hy.
  destruct (lookup_lt_is_Some_2 s (x * n + y)) as [v Hv].
  { rewrite Hlen. by apply index_lt. }
  exists v. by apply getitem_Ok.
Qed.

(** The blank of a valid state. *)
Lemma valid_blank s :
  valid_state n s ->
  exists i, i < n * n /\ s !! i = Some 0%Z /\
    argwhere_zero n s = Ok (i / n, i mod n) /\
    forall j, s !! j = Some 0%Z -> j = i.
Proof.
  intros Hv.
  assert (0%Z ∈ s) as Hin.
  { apply (valid_elem _ _ Hv). destruct Hv. nia. }
  destruct (list_find_elem_of (fun v => v = 0%Z) s 0%Z Hin eq_refl)
    as [[i v] Hf].
  pose proof Hf as Hf'.
  apply list_find_Some in Hf' as (Hi & -> & _).
  exists i. split; [|split; [done|split]].
  - rewrite <- (valid_length _ Hv). by eapply lookup_lt_Some.
  - unfold argwhere_zero. by rewrite Hf.
  - intros j Hj. eapply NoDup_lookup; eauto using valid_NoDup.
Qed.

Lemma available_actions_moves s x y :
  argwhere_zero n s = Ok (x, y) -> available_actions n s = Ok (moves_at n x y).
Proof.
  intros Hz. unfold available_actions, moves_at. rewrite Hz. simpl.
  repeat case_bool_decide; reflexivity.
Qed.

Lemma elem_of_moves_at x y a :
  x < n -> y < n ->
  a ∈ moves_at n x y <->
  exists q, a = mkAction (x, y) q /\ q.1 < n /\ q.2 < n /\ adjacent (x, y) q.
Proof.
  intros Hx Hy. unfold moves_at, adjacent.
  rewrite !elem_of_app. split.
  - intros [H|[H|[H|H]]]; case_bool_decide; try (by apply elem_of_nil in H);
      apply list_elem_of_singleton in H as ->;
      eexists; (split; [reflexivity|]); simpl; lia.
  - intros ([qx qy] & -> & Hqx & Hqy & Hadj). simpl in *.
    destruct Hadj as [[-> [-> | ->]] | [-> [-> | ->]]].
    + left. rewrite bool_decide_true by lia.
      replace (S qx - 1) with qx by lia. apply list_elem_of_singleton. done.
    + right; left. rewrite bool_decide_true by lia.
      replace (x + 1) with (S x) by lia. apply list_elem_of_singleton. done.
    + right; right; left. rewrite bool_decide_true by lia.
      replace (S qy - 1) with qy by lia. apply list_elem_of_singleton. done.
    + right; right; right. rewrite bool_decide_true by lia.
      replace (y + 1) with (S y) by lia. apply list_elem_of_singleton. done.
Qed.

Lemma adjacent_sym p q : adjacent p q -> adjacent q p.
Proof. unfold adjacent. intuition lia. Qed.

Lemma adjacent_ne p q : adjacent p q -> p <> q.
Proof. unfold adjacent. intros H ->. lia. Qed.

(** Exchanging two cells. *)
Lemma swap_lookup (s : list Z) i t a b k :
  i < length s -> t < length s -> i <> t ->
  <[t := a]> (<[i := b]> s) !! k =
  if decide (k = t) then Some a else if decide (k = i) then Some b else s !! k.
Proof.
  intros Hi Ht Hne. repeat case_decide; subst.
  - apply list_lookup_insert_eq. by rewrite length_insert.
  - rewrite list_lookup_insert_ne by done. by apply list_lookup_insert_eq.
  - by rewrite !list_lookup_insert_ne by done.
Qed.

Lemma swap_valid s i t a b :
  valid_state n s -> i <> t -> s !! i = Some a -> s !! t = Some b ->
  valid_state n (<[t := a]> (<[i := b]> s)).
Proof.
  intros Hv Hne Hi Ht.
  pose proof (lookup_lt_Some _ _ _ Hi) as Hil.
  pose proof (lookup_lt_Some _ _ _ Ht) as Htl.
  pose proof (valid_NoDup _ Hv) as Hnd.
  apply valid_of_NoDup.
  - by destruct Hv.
  - rewrite !length_insert. by apply valid_length.
  - apply NoDup_alt. intros j k x.
    rewrite !swap_lookup by done.
    intros Hj Hk.
    assert (forall p q y, s !! p = Some y -> s !! q = Some y -> p = q) as Hinj.
    { intros p q y. by apply NoDup_lookup. }
    repeat case_decide; simplify_eq; try done;
      first [ by eapply Hinj
            | exfalso; eauto using eq_sym ].
  - intros v Hin. apply (valid_elem _ _ Hv).
    apply list_elem_of_lookup in Hin as [k Hk].
    rewrite swap_lookup in Hk by done.
    repeat case_decide; simplify_eq; eapply list_elem_of_lookup_2; eauto.
Qed.

Lemma do_action_swap s p q a b :
  getitem n s p = Ok a -> getitem n s q = Ok b ->
  do_action n s (mkAction p q) =
  Ok (<[q.1 * n + q.2 := a]> (<[p.1 * n + p.2 := b]> s)).
Proof.
  intros Hp Hq. unfold do_action. simpl. rewrite Hq. simpl. rewrite Hp. simpl.
  by destruct p, q.
Qed.

(** What a move out of a valid state does: the blank at index [i] and the
    tile at the neighbouring index [t] change places. *)
Lemma move_spec s i a :
  valid_state n s -> s !! i = Some 0%Z -> a ∈ moves_at n (i / n) (i mod n) ->
  exists t v,
    a = mkAction (i / n, i mod n) (t / n, t mod n) /\
    adjacent (i / n, i mod n) (t / n, t mod n) /\
    t < n * n /\ t <> i /\ s !! t = Some v /\ v <> 0%Z /\
    do_action n s a = Ok (<[t := 0%Z]> (<[i := v]> s)).
Proof.
  intros Hv Hi Ha.
  pose proof (valid_length _ Hv) as Hlen.
  assert (i < n * n) as Hil by (rewrite <- Hlen; by eapply lookup_lt_Some).
  destruct (coords_lt i Hil) as [Hx Hy].
  apply elem_of_moves_at in Ha as ([qx qy] & -> & Hqx & Hqy & Hadj); [|done..].
  simpl in Hqx, Hqy.
  set (t := qx * n + qy).
  destruct (index_coords qx qy Hqy) as [Htx Hty]. fold t in Htx, Hty.
  assert (t < n * n) as Htl by (by apply index_lt).
  assert (t <> i) as Hne.
  { intros ->. apply adjacent_ne in Hadj. apply Hadj. congruence. }
  destruct (lookup_lt_is_Some_2 s t) as [v Ht]; [lia|].
  exists t, v. rewrite Htx, Hty. repeat split; try done.
  - intros ->. apply Hne. eapply NoDup_lookup; eauto using valid_NoDup.
  - erewrite do_action_swap.
    + simpl. fold t. by rewrite coords_index.
    + apply getitem_Ok. by rewrite coords_index.
    + apply getitem_Ok. done.
Qed.

End Primitives.

Lemma legal_move_valid n s s' :
  valid_state n s -> legal_move n s s' -> valid_state n s'.
Proof.
  intros Hv (acts & a & Hacts & Ha & Hdo).
  destruct (valid_blank n s Hv) as (i & Hil & Hi & Hz & _).
  rewrite (available_actions_moves _ _ _ _ Hz) in Hacts. injection Hacts as <-.
  destruct (move_spec n s i a Hv Hi Ha)
    as (t & v & _ & _ & _ & Hne & Ht & _ & Hdo').
  rewrite Hdo' in Hdo. injection Hdo as <-.
  apply swap_valid; auto.
Qed.

Lemma legal_move_ne n s s' :
  valid_state n s -> legal_move n s s' -> s <> s'.
Proof.
  intros Hv (acts & a & Hacts & Ha & Hdo).
  destruct (valid_blank n s Hv) as (i & Hil & Hi & Hz & _).
  rewrite (available_actions_moves _ _ _ _ Hz) in Hacts. injection Hacts as <-.
  destruct (move_spec n s i a Hv Hi Ha)
    as (t & v & _ & _ & Htl & Hne & Ht & Hv0 & Hdo').
  rewrite Hdo' in Hdo. injection Hdo as <-.
  intros Heq. apply (f_equal (fun l => l !! t)) in Heq.
  rewrite swap_lookup in Heq.
  - rewrite decide_True in Heq by done. congruence.
  - by eapply lookup_lt_Some.
  - by eapply lookup_lt_Some.
  - done.
Qed.

(** Every move can be undone by a move. *)
Lemma legal_move_sym n s s' :
  valid_state n s -> legal_move n s s' -> legal_move n s' s.
Proof.
  intros Hv Hm. pose proof (legal_move_valid _ _ _ Hv Hm) as Hv'.
  destruct Hm as (acts & a & Hacts & Ha & Hdo).
  destruct (valid_blank n s Hv) as (i & Hil & Hi & Hz & _).
  rewrite (available_actions_moves _ _ _ _ Hz) in Hacts. injection Hacts as <-.
  destruct (move_spec n s i a Hv Hi Ha)
    as (t & v & -> & Hadj & Htl & Hne & Ht & Hv0 & Hdo').
  rewrite Hdo' in Hdo. injection Hdo as <-.
  set (s' := <[t := 0%Z]> (<[i := v]> s)) in *.
  pose proof (lookup_lt_Some _ _ _ Hi) as Hil'.
  pose proof (lookup_lt_Some _ _ _ Ht) as Htl'.
  assert (s' !! t = Some 0%Z) as Ht'.
  { unfold s'. rewrite swap_lookup by done. by rewrite decide_True. }
  assert (s' !! i = Some v) as Hi'.
  { unfold s'. rewrite swap_lookup by done.
    rewrite decide_False by done. by rewrite decide_True. }
  destruct (valid_blank n s' Hv') as (t' & _ & Ht2 & Hz' & Huniq).
  assert (t' = t) as -> by (symmetry; by apply Huniq).
  destruct (coords_lt _ i Hil) as [Hx Hy].
  destruct (coords_lt _ t Htl) as [Hx' Hy'].
  exists (moves_at n (t / n) (t mod n)), (mkAction (t / n, t mod n) (i / n, i mod n)).
  split; [by apply available_actions_moves|]. split.
  - apply elem_of_moves_at; [done..|]. eexists. split; [reflexivity|].
    simpl. auto using adjacent_sym.
  - rewrite (do_action_swap n s' (t / n, t mod n) (i / n, i mod n) 0%Z v).
    + simpl. rewrite !coords_index. f_equal. apply list_eq. intros k.
      rewrite swap_lookup.
      * unfold s'. rewrite swap_lookup by done.
        repeat case_decide; subst; congruence.
      * unfold s'. by rewrite !length_insert.
      * unfold s'. by rewrite !length_insert.
      * done.
    + apply getitem_Ok. by rewrite coords_index.
    + apply getitem_Ok. by rewrite coords_index.
Qed.

Lemma cell_cost_nonneg n s xy : (0 <= cell_cost n s xy)%Z.
Proof.
  unfold cell_cost. destruct (getitem n s xy); [|lia].
  case_bool_decide; lia.
Qed.

Lemma Zsum_nonneg {A} (f : A -> Z) l :
  (forall c, (0 <= f c)%Z) -> (0 <= Zsum (f <$> l))%Z.
Proof.
  intros Hf. induction l as [|c l IH]; csimpl; [lia|]. specialize (Hf c). lia.
Qed.

Lemma Zsum_zero {A} (f : A -> Z) l :
  (forall c, (0 <= f c)%Z) ->
  Zsum (f <$> l) = 0%Z <-> forall c, c ∈ l -> f c = 0%Z.
Proof.
  intros Hf. induction l as [|c l IH]; csimpl.
  - split; [|done]. intros _ c Hc. by apply elem_of_nil in Hc.
  - pose proof (Hf c). pose proof (Zsum_nonneg f l Hf). split.
    + intros Hs c' Hc'. apply elem_of_cons in Hc' as [-> | Hc']; [lia|].
      apply IH; [lia|done].
    + intros Hall. rewrite (Hall c) by apply list_elem_of_here.
      rewrite (proj2 IH); [done|]. intros c' Hc'. apply Hall.
      by apply list_elem_of_further.
Qed.

Lemma elem_of_cells n x y : (x, y) ∈ cells n <-> x < n /\ y < n.
Proof.
  unfold cells. rewrite list_elem_of_bind. split.
  - intros (x' & Hin & Hx'). apply list_elem_of_bind in Hin as (y' & Hin & Hy').
    apply list_elem_of_singleton in Hin as [= -> ->].
    apply elem_of_seq in Hx', Hy'. lia.
  - intros [Hx Hy]. exists x. split; [|apply elem_of_seq; lia].
    apply list_elem_of_bind. exists y. split; [|apply elem_of_seq; lia].
    by apply list_elem_of_singleton.
Qed.

Lemma manhattan_cell_cost n s d c v :
  getitem n s c = Ok v ->
  manhattan_cell n s d c = Ok (d + cell_cost n s c)%Z.
Proof.
  intros Hv. unfold manhattan_cell, cell_cost. destruct c as [x y].
  rewrite Hv. simpl. case_bool_decide; f_equal; lia.
Qed.

Lemma manhattan_for_each n s l d :
  (forall c, c ∈ l -> exists v, getitem n s c = Ok v) ->
  for_each (manhattan_cell n s) d l = Ok (d + Zsum (cell_cost n s <$> l))%Z.
Proof.
  revert d. induction l as [|c l IH]; intros d Hget.
  - simpl. f_equal. lia.
  - destruct (Hget c) as [v Hv]; [apply list_elem_of_here|].
    rewrite for_each_cons, (manhattan_cell_cost _ _ _ _ _ Hv).
    change (Ok ?a ≫= ?f) with (f a). cbv beta.
    rewrite IH.
    + rewrite fmap_cons. cbn [Zsum]. f_equal. lia.
    + intros c' Hc. apply Hget. by apply list_elem_of_further.
Qed.

(** On an array of the right shape the heuristic never raises. *)
Lemma manhattan_distance_total n s :
  length s = n * n ->
  manhattan_distance n s = Ok (Zsum (cell_cost n s <$> cells n)).
Proof.
  intros Hlen. unfold manhattan_distance. rewrite manhattan_for_each.
  - f_equal.
  - intros [x y] Hc. apply elem_of_cells in Hc as [Hx Hy].
    by apply getitem_valid.
Qed.

Lemma goal_buffer_length n : 0 < n -> length (goal_buffer n) = n * n.
Proof.
  intros Hn. unfold goal_buffer.
  rewrite length_app, length_map, length_seq. simpl. nia.
Qed.

Lemma goal_buffer_lookup n i :
  i < n * n ->
  goal_buffer n !! i =
  Some (if bool_decide (i < n * n - 1) then Z.of_nat (i + 1) else 0%Z).
Proof.
  intros Hi. unfold goal_buffer.
  replace (n ^ 2) with (n * n) by (simpl; lia).
  case_bool_decide as Hlt.
  - rewrite lookup_app_l by (rewrite length_map, length_seq; lia).
    change (map Z.of_nat) with (fmap (M:=list) Z.of_nat).
    rewrite list_lookup_fmap, lookup_seq_lt by lia. simpl. do 2 f_equal. lia.
  - apply list_lookup_middle. rewrite length_map, length_seq. lia.
Qed.

Lemma goal_buffer_valid n : 0 < n -> valid_state n (goal_buffer n).
Proof.
  intros Hn. apply valid_of_NoDup; [done|by apply goal_buffer_length|..].
  - apply NoDup_alt. intros i j v Hi Hj.
    pose proof (lookup_lt_Some _ _ _ Hi) as Hil.
    pose proof (lookup_lt_Some _ _ _ Hj) as Hjl.
    rewrite goal_buffer_length in Hil, Hjl by done.
    rewrite goal_buffer_lookup in Hi, Hj by done.
    repeat case_bool_decide; simplify_eq; lia.
  - intros v Hv. apply list_elem_of_lookup in Hv as [i Hi].
    pose proof (lookup_lt_Some _ _ _ Hi) as Hil.
    rewrite goal_buffer_length in Hil by done.
    rewrite goal_buffer_lookup in Hi by done.
    case_bool_decide; simplify_eq; lia.
Qed.

Lemma goal_state_Ok n : 0 < n -> goal_state n = Ok (goal_buffer n).
Proof.
  intros Hn. unfold goal_state, reshape.
  by rewrite bool_decide_true by (by apply goal_buffer_length).
Qed.

Lemma cell_cost_zero n s x y v :
  0 < n -> x < n -> y < n -> s !! (x * n + y) = Some v ->
  cell_cost n s (x, y) = 0%Z <-> v = 0%Z \/ v = Z.of_nat (x * n + y + 1).
Proof.
  intros Hn Hx Hy Hv. unfold cell_cost.
  rewrite (proj2 (getitem_Ok n s x y v)) by done. simpl.
  case_bool_decide as Hv0; [|split; [intros _; left; lia|done]].
  pose proof (Z.div_mod (v - 1) (Z.of_nat n) ltac:(lia)) as Hdm.
  pose proof (Z.mod_pos_bound (v - 1) (Z.of_nat n) ltac:(lia)) as Hmb.
  split.
  - intros Hc. right. nia.
  - intros [-> | ->]; [done|].
    replace (Z.of_nat (x * n + y + 1) - 1)%Z
      with (Z.of_nat y + Z.of_nat x * Z.of_nat n)%Z by lia.
    rewrite Z.div_add, Z.mod_add by lia.
    rewrite Z.div_small, Z.mod_small by lia. lia.
Qed.

(** C7. For a valid state (a permutation of [0 .. n*n-1]),
    [manhattan_distance] returns 0 exactly when the state is the goal
    state: the tiles [1 .. n*n-1] in row-major order and the blank last. *)
Theorem manhattan_distance_zero_iff_goal (n : nat) (s : ndarray) :
  valid_state n s ->
  manhattan_distance n s = Ok 0%Z <-> s = goal_buffer n.
Proof.
  intros Hv. pose proof (valid_length _ _ Hv) as Hlen.
  assert (0 < n) as Hn by (by destruct Hv).
  rewrite manhattan_distance_total by done.
  split.
  - intros [= Hz].
    pose proof (proj1 (Zsum_zero (cell_cost n s) (cells n) (cell_cost_nonneg n s)) Hz)
      as Hz'. clear Hz. rename Hz' into Hz.
    assert (forall i v, s !! i = Some v -> v = 0%Z \/ v = Z.of_nat (i + 1)) as Hcell.
    { intros i v Hi.
      assert (i < n * n) as Hil by (rewrite <- Hlen; by eapply lookup_lt_Some).
      destruct (coords_lt n i Hil) as [Hx Hy].
      specialize (Hz (i / n, i mod n) (proj2 (elem_of_cells _ _ _) (conj Hx Hy))).
      apply (cell_cost_zero n s _ _ v) in Hz; try done.
      - by rewrite coords_index in Hz.
      - by rewrite coords_index. }
    destruct (valid_blank n s Hv) as (b & Hbl & Hb & _ & Huniq).
    assert (b = n * n - 1) as ->.
    { destruct (lookup_lt_is_Some_2 s (n * n - 1)) as [v Hlast]; [lia|].
      destruct (Hcell _ _ Hlast) as [-> | ->]; [symmetry; by apply Huniq|].
      apply list_elem_of_lookup_2, (valid_elem n s _ Hv) in Hlast. lia. }
    apply list_eq. intros i. destruct (decide (i < n * n)) as [Hi|Hi].
    + rewrite goal_buffer_lookup by done.
      destruct (lookup_lt_is_Some_2 s i) as [v Hiv]; [lia|]. rewrite Hiv.
      case_bool_decide.
      * destruct (Hcell _ _ Hiv) as [-> | ->]; [|done].
        apply Huniq in Hiv. lia.
      * replace i with (n * n - 1) in Hiv by lia. congruence.
    + rewrite !lookup_ge_None_2; [done|rewrite goal_buffer_length; lia|lia].
  - intros ->. f_equal. apply Zsum_zero; [apply cell_cost_nonneg|].
    intros [x y] Hc. apply elem_of_cells in Hc as [Hx Hy].
    pose proof (index_lt n x y Hx Hy) as Hil.
    eapply cell_cost_zero; try done.
    + by apply goal_buffer_lookup.
    + case_bool_decide; auto.
Qed.

Lemma manhattan_distance_zero_iff_goal_witness :
  valid_state 3 [1;2;3;4;5;6;7;8;0]%Z /\
  (manhattan_distance 3 [1;2;3;4;5;6;7;8;0]%Z = Ok 0%Z <->
   [1;2;3;4;5;6;7;8;0]%Z = goal_buffer 3).
Proof.
  assert (valid_state 3 [1;2;3;4;5;6;7;8;0]%Z) as Hv
    by (apply (bool_decide_unpack _); vm_compute; exact I).
  split; [exact Hv|].
  apply (manhattan_distance_zero_iff_goal 3 [1;2;3;4;5;6;7;8;0]%Z Hv).
Defined.

(** ** Moves keep states valid *)

Lemma valid_count n s v :
  valid_state n s -> (0 <= v < Z.of_nat (n * n))%Z ->
  length (filter (fun w => w = v) s) = 1.
Proof.
  intros Hv Hr.
  assert (filter (fun w => w = v) s ≡ₚ [v]) as ->; [|done].
  apply NoDup_Permutation.
  - apply NoDup_filter. by eapply valid_NoDup.
  - apply NoDup_singleton.
  - intros w. rewrite list_elem_of_filter, list_elem_of_singleton.
    split; [tauto|]. intros ->. split; [done|]. by apply (valid_elem n s v Hv).
Qed.

(** C6. For a valid state [s] and every move of [available_actions(s)],
    [do_action] returns a state that differs from [s] in exactly two cells,
    the blank's cell [b] and one other cell [t]; the result is again a
    permutation of [0 .. n*n-1] in which every value, the blank included,
    occurs exactly once.  The result is a new list: [s] is the same value
    before and after. *)
Theorem do_action_available_spec (n : nat) (s : ndarray) :
  valid_state n s ->
  exists acts b,
    available_actions n s = Ok acts /\ s !! b = Some 0%Z /\
    forall a, a ∈ acts ->
      exists s' t,
        do_action n s a = Ok s' /\ t <> b /\
        (forall i, s' !! i <> s !! i <-> i = b \/ i = t) /\
        valid_state n s' /\
        (forall v, (0 <= v < Z.of_nat (n * n))%Z ->
                   length (filter (fun w => w = v) s') = 1).
Proof.
  intros Hv.
  destruct (valid_blank n s Hv) as (b & Hbl & Hb & Hz & _).
  exists (moves_at n (b / n) (b mod n)), b.
  split; [by apply available_actions_moves|]. split; [done|].
  intros a Ha.
  destruct (move_spec n s b a Hv Hb Ha)
    as (t & v & _ & _ & Htl & Hne & Ht & Hv0 & Hdo).
  pose proof (lookup_lt_Some _ _ _ Hb) as Hbl'.
  pose proof (lookup_lt_Some _ _ _ Ht) as Htl'.
  assert (valid_state n (<[t := 0%Z]> (<[b := v]> s))) as Hv'
    by (apply swap_valid; auto).
  exists (<[t := 0%Z]> (<[b := v]> s)), t.
  split; [done|]. split; [done|]. split; [|split; [done|]].
  - intros i. rewrite swap_lookup by auto. split.
    + intros Hi. repeat case_decide; subst; tauto.
    + intros [-> | ->].
      * rewrite decide_False by auto. rewrite decide_True by done. congruence.
      * rewrite decide_True by done. congruence.
  - intros w Hw. by apply (valid_count n).
Qed.

Lemma do_action_available_spec_witness :
  valid_state 3 [0;3;1;6;7;5;4;8;2]%Z /\
  exists acts b,
    available_actions 3 [0;3;1;6;7;5;4;8;2]%Z = Ok acts /\
    [0;3;1;6;7;5;4;8;2]%Z !! b = Some 0%Z /\
    forall a, a ∈ acts ->
      exists s' t,
        do_action 3 [0;3;1;6;7;5;4;8;2]%Z a = Ok s' /\ t <> b /\
        (forall i, s' !! i <> [0;3;1;6;7;5;4;8;2]%Z !! i <-> i = b \/ i = t) /\
        valid_state 3 s' /\
        (forall v, (0 <= v < Z.of_nat (3 * 3))%Z ->
                   length (filter (fun w => w = v) s') = 1).
Proof.
  assert (valid_state 3 [0;3;1;6;7;5;4;8;2]%Z) as Hv by decide_valid.
  split; [exact Hv|].
  apply (do_action_available_spec 3 [0;3;1;6;7;5;4;8;2]%Z Hv).
Defined.

(** C2 (evaluation at the failing input).  On the 4 x 4 board the state
    [two_moves_from_goal4] is reached from the goal by two moves of
    [available_actions], it is a valid state with three inversions, and
    [is_solvable] answers [False] for it: the test looks at the parity of
    the inversions only, whatever the dimension and the row of the blank. *)
Theorem is_solvable_even_board_two_moves :
  goal_state 4 = Ok (goal_buffer 4) /\
  legal_move 4 (goal_buffer 4)
    [1;2;3;4; 5;6;7;8; 9;10;11;0; 13;14;15;12]%Z /\
  legal_move 4 [1;2;3;4; 5;6;7;8; 9;10;11;0; 13;14;15;12]%Z
    two_moves_from_goal4 /\
  valid_state 4 two_moves_from_goal4 /\
  count_inversions two_moves_from_goal4 = 3 /\
  is_solvable two_moves_from_goal4 = false.
Proof.
  split; [reflexivity|]. split; [|split; [|split; [decide_valid|done]]].
  - exists (moves_at 4 3 3), (mkAction (3, 3) (2, 3)).
    split; [reflexivity|]. split; [|reflexivity].
    apply (bool_decide_unpack _). vm_compute. exact I.
  - exists (moves_at 4 2 3), (mkAction (2, 3) (2, 2)).
    split; [reflexivity|]. split; [|reflexivity].
    apply (bool_decide_unpack _). vm_compute. exact I.
Qed.

(** ** Facts about the frontier and the dictionaries *)

Lemma elem_of_heappush (heap : list entry) item e :
  e ∈ heappush heap item <-> e = item \/ e ∈ heap.
Proof.
  induction heap as [|e' heap IH]; simpl.
  - rewrite list_elem_of_singleton, elem_of_nil. tauto.
  - destruct (entry_ltb e' item); rewrite !elem_of_cons; [rewrite IH|]; tauto.
Qed.

Lemma length_heappush (heap : list entry) item :
  length (heappush heap item) = S (length heap).
Proof.
  induction heap as [|e' heap IH]; simpl; [done|].
  destruct (entry_ltb e' item); simpl; [by rewrite IH | done].
Qed.

Lemma nonempty_true {A} (l : list A) :
  nonempty l = true -> exists a l', l = a :: l'.
Proof. destruct l; [discriminate|eauto]. Qed.

Lemma dict_item_Ok {V} (d : gmap key V) k v :
  dict_item d k = Ok v <-> d !! k = Some v.
Proof.
  unfold dict_item. destruct (d !! k); split; intros H; by simplify_eq.
Qed.

Lemma gsum_insert_new (g : gmap key nat) k v :
  g !! k = None -> gsum (<[k := v]> g) = v + gsum g.
Proof.
  intros Hk. unfold gsum. apply map_fold_insert_L; [|done].
  intros. lia.
Qed.

Lemma gsum_insert_old (g : gmap key nat) k v w :
  g !! k = Some w -> gsum (<[k := v]> g) + w = gsum g + v.
Proof.
  intros Hk.
  rewrite <- (insert_delete_id g k w Hk) at 2.
  rewrite <- (insert_delete_eq g k v).
  rewrite !gsum_insert_new by apply lookup_delete_eq. lia.
Qed.

Lemma lex_le_refl a : lex_le a a.
Proof. unfold lex_le. lia. Qed.

Lemma lex_le_trans a b c : lex_le a b -> lex_le b c -> lex_le a c.
Proof. unfold lex_le. lia. Qed.

Lemma lex_le_lt_trans a b c : lex_le a b -> lex_lt b c -> lex_lt a c.
Proof. unfold lex_le, lex_lt. lia. Qed.

Lemma lex_lt_wf_ind (P : nat * nat -> Prop) :
  (forall a, (forall b, lex_lt b a -> P b) -> P a) -> forall a, P a.
Proof.
  intros Hstep [x y]. revert y.
  induction x as [x IHx] using lt_wf_ind. intros y.
  induction y as [y IHy] using lt_wf_ind.
  apply Hstep. intros [x' y'] [Hlt | [Heq Hlt]]; simpl in *.
  - by apply IHx.
  - subst x'. by apply IHy.
Qed.

Lemma move_result n s acts a :
  valid_state n s -> available_actions n s = Ok acts -> a ∈ acts ->
  exists s', do_action n s a = Ok s' /\ legal_move n s s' /\
             valid_state n s' /\ s <> s'.
Proof.
  intros Hv Hacts Ha.
  destruct (valid_blank n s Hv) as (i & Hil & Hi & Hz & _).
  pose proof Hacts as Hacts'.
  rewrite (available_actions_moves _ _ _ _ Hz) in Hacts'. injection Hacts' as <-.
  destruct (move_spec n s i a Hv Hi Ha) as (t & v & _ & _ & _ & _ & _ & _ & Hdo).
  assert (legal_move n s (<[t := 0%Z]> (<[i := v]> s))) as Hm
    by (exists (moves_at n (i / n) (i mod n)), a; auto).
  eexists. split; [exact Hdo|]. split; [exact Hm|].
  split; [by eapply legal_move_valid | by eapply legal_move_ne].
Qed.

Lemma linked_cons R a l :
  linked R (a :: l) <->
  (forall b, head l = Some b -> R a b) /\ linked R l.
Proof.
  destruct l as [|b l]; simpl.
  - split; [intros _; split; [intros b [=]|done] | done].
  - split.
    + intros [Hab Hl]. split; [intros b' [= <-]; done | done].
    + intros [Hab Hl]. split; [by apply Hab | done].
Qed.

Lemma linked_app R l1 l2 :
  linked R l1 -> linked R l2 ->
  (forall a b, last l1 = Some a -> head l2 = Some b -> R a b) ->
  linked R (l1 ++ l2).
Proof.
  intros H1 H2 Hjoin. induction l1 as [|a l1 IH]; [done|].
  apply linked_cons in H1 as [Ha H1].
  change ((a :: l1) ++ l2) with (a :: (l1 ++ l2)). apply linked_cons. split.
  - intros b Hb. rewrite head_app in Hb. destruct l1 as [|c l1]; simpl in *.
    + by apply Hjoin.
    + injection Hb as <-. by apply Ha.
  - apply IH; [done|]. intros a' b Ha' Hb. apply Hjoin; [|done].
    rewrite last_cons, Ha'. done.
Qed.

Lemma linked_reverse R l :
  linked R l -> linked (fun a b => R b a) (reverse l).
Proof.
  induction l as [|a l IH]; [done|]. intros Hl.
  apply linked_cons in Hl as [Ha Hl]. rewrite reverse_cons.
  apply linked_app; [by apply IH|done|].
  intros x b Hx [= <-]. rewrite last_reverse in Hx. by apply Ha.
Qed.

Lemma linked_impl (R R' : key -> key -> Prop) l :
  (forall a b, b ∈ l -> R a b -> R' a b) -> linked R l -> linked R' l.
Proof.
  induction l as [|a l IH]; [done|]. intros Himp Hl.
  apply linked_cons in Hl as [Ha Hl]. apply linked_cons. split.
  - intros b Hb. apply Himp; [|by apply Ha].
    apply list_elem_of_further. destruct l; [discriminate|].
    injection Hb as ->. apply list_elem_of_here.
  - apply IH; [|done]. intros x y Hy. apply Himp. by apply list_elem_of_further.
Qed.

(** ** The invariant of one direction *)

Section Invariant.

Variable n : nat.

Lemma universe_valid k : valid_state n k -> k ∈ universe n.
Proof.
  intros [_ Hp]. unfold universe. apply elem_of_list_to_set.
  apply permutations_Permutation. by symmetry.
Qed.

Lemma inv_came_g root sr ex k :
  dir_inv n root sr ex -> is_Some (came_from sr !! k) -> is_Some (g_score sr !! k).
Proof.
  intros Hinv [[p|] Hk].
  - destruct (inv_came_some _ _ _ _ Hinv k p Hk) as (gp & gk & _ & Hg & _). eauto.
  - apply (inv_came_none _ _ _ _ Hinv) in Hk as ->.
    rewrite (inv_root_g _ _ _ _ Hinv). eauto.
Qed.

Lemma a_star_search_inv root other forward :
  valid_state n root ->
  exists h, manhattan_distance n root = Ok h /\
    a_star_search n root other forward =
      Ok (mkSearch [(h, root)] {[ root := None ]} {[ root := 0 ]}) /\
    dir_inv n root (mkSearch [(h, root)] {[ root := None ]} {[ root := 0 ]}) ∅.
Proof.
  intros Hv. pose proof (valid_length _ _ Hv) as Hlen.
  eexists. split; [by apply manhattan_distance_total|].
  split.
  - unfold a_star_search. rewrite manhattan_distance_total by done. reflexivity.
  - split; simpl.
    + apply lookup_singleton_eq.
    + apply lookup_singleton_eq.
    + intros k Hk. apply lookup_singleton_Some in Hk. by destruct Hk.
    + intros k p Hk. apply lookup_singleton_Some in Hk. destruct Hk; discriminate.
    + intros k [g Hk]. apply lookup_singleton_Some in Hk as [<- _].
      rewrite lookup_singleton_eq. eauto.
    + intros k [g Hk]. apply lookup_singleton_Some in Hk as [<- _]. done.
    + intros e He. apply list_elem_of_singleton in He as ->. simpl.
      rewrite lookup_singleton_eq. eauto.
    + intros k Hk. by apply elem_of_empty in Hk.
Qed.

(** One relaxation keeps the invariant, leaves the score of the expanded
    state alone, and does not increase the measure. *)
Lemma relax_inv root sr ex cur gc acts a nodes :
  dir_inv n root sr ex -> g_score sr !! cur = Some gc ->
  available_actions n cur = Ok acts -> a ∈ acts ->
  exists sr' nodes',
    relax n cur cur (sr, nodes) a = Ok (sr', nodes') /\
    dir_inv n root sr' ex /\ g_score sr' !! cur = Some gc /\
    lex_le (measure n sr') (measure n sr).
Proof.
  intros Hinv Hgc Hacts Ha.
  assert (valid_state n cur) as Hvc by (eapply inv_g_valid; eauto).
  destruct (move_result n cur acts a Hvc Hacts Ha)
    as (nb & Hdo & Hmove & Hvnb & Hne).
  unfold relax. rewrite Hdo. simpl. unfold tobytes.
  rewrite (proj2 (dict_item_Ok _ _ _) Hgc). simpl.
  assert (forall gold, g_score sr !! nb = Some gold -> gc + 1 < gold -> nb <> root)
    as Hnot_root.
  { intros gold Hold Hlt ->. rewrite (inv_root_g _ _ _ _ Hinv) in Hold.
    injection Hold as <-. lia. }
  assert (g_score sr !! nb = None \/
          (exists gold, g_score sr !! nb = Some gold /\ gc + 1 < gold) \/
          (exists gold, g_score sr !! nb = Some gold /\ ~ gc + 1 < gold))
    as [Hnew | [(gold & Hold & Hlt) | (gold & Hold & Hlt)]].
  { destruct (g_score sr !! nb) as [gold|]; [|by left].
    destruct (decide (gc + 1 < gold)); right; eauto. }
  3:{ rewrite Hold. rewrite bool_decide_false by done.
      eexists _, _. split; [reflexivity|]. split; [done|]. split; [done|].
      apply lex_le_refl. }
  all: rewrite manhattan_distance_total by (by apply valid_length).
  all: simpl.
  all: assert (nb <> root) as Hnr by
    (first [ by eapply Hnot_root
           | intros ->; rewrite (inv_root_g _ _ _ _ Hinv) in Hnew; discriminate ]).
  - (* a state seen for the first time *)
    rewrite Hnew. simpl. eexists _, _. split; [reflexivity|].
    split; [|split].
    + split; simpl.
      * rewrite lookup_insert_ne by done. by eapply inv_root_g.
      * rewrite lookup_insert_ne by done. by eapply inv_root_came.
      * intros k Hk. destruct (decide (nb = k)) as [<-|Hnk].
        { rewrite lookup_insert_eq in Hk. discriminate. }
        rewrite lookup_insert_ne in Hk by done. by eapply inv_came_none.
      * intros k p Hk. destruct (decide (nb = k)) as [<-|Hnk].
        { rewrite lookup_insert_eq in Hk. injection Hk as <-.
          exists gc, (gc + 1). rewrite lookup_insert_eq.
          rewrite lookup_insert_ne by done. repeat split; [done|lia|done]. }
        rewrite lookup_insert_ne in Hk by done.
        destruct (inv_came_some _ _ _ _ Hinv k p Hk) as (gp & gk & Hp & Hgk & Hlt & Hm).
        exists gp, gk. rewrite !lookup_insert_ne; [done|done|].
        intros <-. congruence.
      * intros k Hk. destruct (decide (nb = k)) as [<-|Hnk].
        { rewrite lookup_insert_eq. eauto. }
        rewrite lookup_insert_ne in Hk by done.
        rewrite lookup_insert_ne by done. by eapply inv_g_came.
      * intros k Hk. destruct (decide (nb = k)) as [<-|Hnk]; [done|].
        rewrite lookup_insert_ne in Hk by done. by eapply inv_g_valid.
      * intros e He. apply elem_of_heappush in He as [-> | He]; simpl.
        { rewrite lookup_insert_eq. eauto. }
        apply lookup_insert_is_Some'. right. by eapply inv_open.
      * intros k Hk. apply lookup_insert_is_Some'. right. by eapply inv_explored.
    + simpl. rewrite lookup_insert_ne by done. done.
    + left. unfold measure. simpl. apply subset_size.
      rewrite dom_insert_L.
      assert (nb ∈ universe n) by (by apply universe_valid).
      assert (nb ∉ dom (g_score sr)) by (by apply not_elem_of_dom).
      set_solver.
  - (* a better score for a known state *)
    rewrite Hold. rewrite bool_decide_true by done.
    eexists _, _. split; [reflexivity|].
    split; [|split].
    + split; simpl.
      * rewrite lookup_insert_ne by done. by eapply inv_root_g.
      * rewrite lookup_insert_ne by done. by eapply inv_root_came.
      * intros k Hk. destruct (decide (nb = k)) as [<-|Hnk].
        { rewrite lookup_insert_eq in Hk. discriminate. }
        rewrite lookup_insert_ne in Hk by done. by eapply inv_came_none.
      * intros k p Hk. destruct (decide (nb = k)) as [<-|Hnk].
        { rewrite lookup_insert_eq in Hk. injection Hk as <-.
          exists gc, (gc + 1). rewrite lookup_insert_eq.
          rewrite lookup_insert_ne by done. repeat split; [done|lia|done]. }
        rewrite lookup_insert_ne in Hk by done.
        destruct (inv_came_some _ _ _ _ Hinv k p Hk) as (gp & gk & Hp & Hgk & Hlt' & Hm).
        rewrite (lookup_insert_ne _ nb k) by done.
        destruct (decide (nb = p)) as [<-|Hnp].
        { exists (gc + 1), gk. rewrite lookup_insert_eq.
          repeat split; [done| |done]. simplify_eq. lia. }
        exists gp, gk. by rewrite lookup_insert_ne by done.
      * intros k Hk. destruct (decide (nb = k)) as [<-|Hnk].
        { rewrite lookup_insert_eq. eauto. }
        rewrite lookup_insert_ne in Hk by done.
        rewrite lookup_insert_ne by done. by eapply inv_g_came.
      * intros k Hk. destruct (decide (nb = k)) as [<-|Hnk]; [done|].
        rewrite lookup_insert_ne in Hk by done. by eapply inv_g_valid.
      * intros e He. apply elem_of_heappush in He as [-> | He]; simpl.
        { rewrite lookup_insert_eq. eauto. }
        apply lookup_insert_is_Some'. right. by eapply inv_open.
      * intros k Hk. apply lookup_insert_is_Some'. right. by eapply inv_explored.
    + simpl. rewrite lookup_insert_ne by done. done.
    + right. unfold measure. simpl. split.
      * f_equal. rewrite dom_insert_L.
        assert (nb ∈ dom (g_score sr)) by (apply elem_of_dom; eauto).
        set_solver.
      * rewrite length_heappush.
        pose proof (gsum_insert_old (g_score sr) nb (gc + 1) gold Hold). lia.
Qed.

Lemma for_each_relax_inv root ex cur gc acts l sr nodes :
  dir_inv n root sr ex -> g_score sr !! cur = Some gc ->
  available_actions n cur = Ok acts -> (forall a, a ∈ l -> a ∈ acts) ->
  exists sr' nodes',
    for_each (relax n cur cur) (sr, nodes) l = Ok (sr', nodes') /\
    dir_inv n root sr' ex /\ g_score sr' !! cur = Some gc /\
    lex_le (measure n sr') (measure n sr).
Proof.
  intros Hinv Hgc Hacts. revert sr nodes Hinv Hgc.
  induction l as [|a l IH]; intros sr nodes Hinv Hgc Hsub.
  - exists sr, nodes. simpl. auto using lex_le_refl.
  - destruct (relax_inv root sr ex cur gc acts a nodes Hinv Hgc Hacts)
      as (sr1 & nodes1 & Hr & Hinv1 & Hgc1 & Hle1).
    { apply Hsub, list_elem_of_here. }
    destruct (IH sr1 nodes1 Hinv1 Hgc1) as (sr2 & nodes2 & Hf & Hinv2 & Hgc2 & Hle2).
    { intros a' Ha'. by apply Hsub, list_elem_of_further. }
    exists sr2, nodes2. rewrite for_each_cons, Hr. simpl.
    eauto using lex_le_trans.
Qed.

Lemma expand_step_inv root sr ex oex nodes :
  dir_inv n root sr ex -> nonempty (open_set sr) = true ->
  exists r, expand_step n sr ex oex nodes = Ok r /\ step_post n root sr ex oex r.
Proof.
  intros Hinv Hne. apply nonempty_true in Hne as ([f cur] & rest & Hopen).
  assert (is_Some (g_score sr !! cur)) as [gc Hgc].
  { apply (inv_open _ _ _ _ Hinv (f, cur)). rewrite Hopen. apply list_elem_of_here. }
  assert (valid_state n cur) as Hvc by (eapply inv_g_valid; eauto).
  set (sr0 := mkSearch rest (came_from sr) (g_score sr)).
  assert (dir_inv n root sr0 (ex ∪ {[cur]})) as Hinv0.
  { destruct Hinv. split; simpl; auto.
    - intros e He. apply inv_open0. rewrite Hopen. by apply list_elem_of_further.
    - intros k Hk. apply elem_of_union in Hk as [Hk|Hk]; [auto|].
      apply elem_of_singleton in Hk as ->. eauto. }
  assert (lex_lt (measure n sr0) (measure n sr)) as Hlt0.
  { right. unfold measure. simpl. rewrite Hopen. simpl. split; [done|lia]. }
  unfold expand_step. rewrite Hopen.
  cbn [heappop mbind result_bind]. unfold frombuffer, reshape.
  rewrite (bool_decide_true (length cur = n * n)) by (by apply valid_length).
  cbn [mbind result_bind]. fold sr0. case_bool_decide as Hmeet.
  - eexists. split; [reflexivity|]. cbn [step_post]. done.
  - destruct (valid_blank n cur Hvc) as (i & _ & _ & Hz & _).
    pose proof (available_actions_moves _ _ _ _ Hz) as Hacts.
    rewrite Hacts. cbn [mbind result_bind].
    destruct (for_each_relax_inv root (ex ∪ {[cur]}) cur gc _
                (moves_at n (i / n) (i mod n)) sr0 nodes Hinv0 Hgc Hacts)
      as (sr' & nodes' & Hf & Hinv' & _ & Hle); [done|].
    rewrite Hf. cbn [mbind result_bind]. eexists. split; [reflexivity|].
    cbn [step_post]. split; [|split; [done|by eapply lex_le_lt_trans]].
    exists (f, cur), rest. done.
Qed.

Lemma iteration_inv start st :
  loop_inv n start st ->
  nonempty (open_set (fwd st)) = true -> nonempty (open_set (bwd st)) = true ->
  exists r, iteration n st = Ok r /\ iteration_post n start st r.
Proof.
  intros [Hf Hb] Hnf Hnb. unfold iteration. rewrite Hnf.
  destruct (expand_step_inv _ _ _ (explored_backward st) (nodes_evaluated st) Hf Hnf)
    as (r1 & Hr1 & Hpost1).
  rewrite Hr1. simpl. destruct r1 as [m sr' ef | sr' ef nodes']; simpl in *.
  - destruct Hpost1 as (Hm & -> & Hinv').
    eexists. split; [reflexivity|]. simpl. split; [by split|].
    split; [eapply inv_explored; [done|set_solver] | by eapply inv_explored].
  - destruct Hpost1 as (_ & Hinv' & Hlt). rewrite Hnb.
    destruct (expand_step_inv _ _ _ ef nodes' Hb Hnb) as (r2 & Hr2 & Hpost2).
    rewrite Hr2. simpl. destruct r2 as [m sr2 eb | sr2 eb nodes2]; simpl in *.
    + destruct Hpost2 as (Hm & -> & Hinv2).
      eexists. split; [reflexivity|]. simpl. split; [by split|].
      split; [by eapply inv_explored | eapply inv_explored; [done|set_solver]].
    + destruct Hpost2 as (_ & Hinv2 & _).
      eexists. split; [reflexivity|]. simpl. split; [by split|done].
Qed.

Lemma initial_loop_state_inv start :
  valid_state n start ->
  exists st, initial_loop_state n start = Ok st /\ loop_inv n start st /\
             nodes_evaluated st = 0.
Proof.
  intros Hv. assert (0 < n) as Hn by (by destruct Hv).
  unfold initial_loop_state. rewrite goal_state_Ok by done. simpl.
  destruct (a_star_search_inv start (goal_buffer n) true Hv) as (h1 & _ & -> & Hi1).
  simpl.
  destruct (a_star_search_inv (goal_buffer n) start false (goal_buffer_valid n Hn))
    as (h2 & _ & -> & Hi2).
  simpl. eexists. split; [reflexivity|]. split; [by split|done].
Qed.

(** ** Predecessor chains *)

Lemma walk_None (fuel : nat) (came : gmap key (option key)) :
  walk fuel came None = Some [].
Proof. by destruct fuel. Qed.

Lemma walk_spec root sr ex fuel k path :
  dir_inv n root sr ex -> is_Some (g_score sr !! k) ->
  walk fuel (came_from sr) (Some k) = Some path ->
  head path = Some k /\ last path = Some root /\
  linked (fun a b => legal_move n b a) path /\
  (forall x, x ∈ path -> is_Some (came_from sr !! x)).
Proof.
  intros Hinv. revert k path.
  induction fuel as [|fuel IH]; intros k path Hk Hw; [discriminate|].
  simpl in Hw.
  destruct (walk fuel (came_from sr) (dict_get (came_from sr) k))
    as [path'|] eqn:Hw'; [|discriminate].
  injection Hw as <-.
  destruct (inv_g_came _ _ _ _ Hinv k Hk) as [v Hv].
  unfold dict_get in Hw'. rewrite Hv in Hw'. destruct v as [p|].
  - destruct (inv_came_some _ _ _ _ Hinv k p Hv) as (gp & gk & Hp & _ & _ & Hm).
    destruct (IH p path' (ex_intro _ gp Hp) Hw') as (Hhd & Hlast & Hlink & Hkeys).
    split; [done|]. split; [|split].
    + rewrite last_cons, Hlast. done.
    + destruct path' as [|b path'']; [done|].
      injection Hhd as ->. split; done.
    + intros x Hx. apply elem_of_cons in Hx as [-> | Hx]; eauto.
  - rewrite walk_None in Hw'. injection Hw' as <-.
    apply (inv_came_none _ _ _ _ Hinv) in Hv as Hroot. subst k.
    split; [done|]. split; [done|]. split; [done|].
    intros x Hx. apply list_elem_of_singleton in Hx as ->. eauto.
Qed.

Lemma walk_total root sr ex fuel k gk :
  dir_inv n root sr ex -> g_score sr !! k = Some gk -> gk < fuel ->
  is_Some (walk fuel (came_from sr) (Some k)).
Proof.
  intros Hinv. revert k gk.
  induction fuel as [|fuel IH]; intros k gk Hk Hlt; [lia|].
  simpl.
  destruct (inv_g_came _ _ _ _ Hinv k (ex_intro _ gk Hk)) as [v Hv].
  unfold dict_get. rewrite Hv. destruct v as [p|].
  - destruct (inv_came_some _ _ _ _ Hinv k p Hv) as (gp & gk' & Hp & Hk' & Hlt' & _).
    assert (gk' = gk) as -> by congruence.
    destruct (IH p gp Hp) as [path' ->]; [lia|]. simpl. eauto.
  - rewrite walk_None. simpl. eauto.
Qed.

End Invariant.

(** ** The result of a run *)

Section Run.

Variable n : nat.

Lemma reconstruct_path start st m fuel path nodes :
  loop_inv n start st ->
  is_Some (g_score (fwd st) !! m) -> is_Some (g_score (bwd st) !! m) ->
  reconstruct fuel st (Some m) = Returned (Some path) nodes ->
  good_path n start path /\ nodes = nodes_evaluated st.
Proof.
  intros [Hf Hb] Hmf Hmb Hr. unfold reconstruct in Hr.
  destruct (walk fuel (came_from (fwd st)) (Some m)) as [pf|] eqn:Hpf;
    [|discriminate].
  destruct (walk fuel (came_from (bwd st)) (dict_get (came_from (bwd st)) m))
    as [pb|] eqn:Hpb; [|discriminate].
  injection Hr as <- <-. split; [|done].
  destruct (walk_spec n _ _ _ _ _ _ Hf Hmf Hpf) as (Hhd & Hlast & Hlink & _).
  assert (linked (legal_move n) (reverse pf)) as Hrev.
  { apply linked_reverse in Hlink. exact Hlink. }
  assert (head (reverse pf) = Some start) as Hrhd by (by rewrite head_reverse).
  assert (last (reverse pf) = Some m) as Hrlast by (by rewrite last_reverse).
  destruct (inv_g_came _ _ _ _ Hb m Hmb) as [v Hv].
  unfold dict_get in Hpb. rewrite Hv in Hpb. destruct v as [p|].
  - destruct (inv_came_some _ _ _ _ Hb m p Hv) as (gp & gk & Hp & _ & _ & Hm).
    destruct (walk_spec n _ _ _ _ _ _ Hb (ex_intro _ gp Hp) Hpb)
      as (Hbhd & Hblast & Hblink & Hbkeys).
    assert (forall x, is_Some (g_score (bwd st) !! x) -> valid_state n x) as Hval
      by (intros x; by eapply inv_g_valid).
    split; [|split].
    + rewrite head_app, Hrhd. done.
    + rewrite last_app, Hblast. done.
    + apply linked_app; [done| |].
      * eapply linked_impl; [|exact Hblink]. simpl. intros a b Hbin Hba.
        apply legal_move_sym; [|done].
        apply Hval. eapply inv_came_g; eauto.
      * intros a b Ha Hb'. assert (a = m) as -> by congruence.
        assert (b = p) as -> by congruence.
        apply legal_move_sym; [|done]. apply Hval. eauto.
  - rewrite walk_None in Hpb. injection Hpb as <-.
    apply (inv_came_none _ _ _ _ Hb) in Hv as ->.
    rewrite app_nil_r. by split.
Qed.

Lemma reconstruct_total start st m fuel gf gb :
  loop_inv n start st ->
  g_score (fwd st) !! m = Some gf -> g_score (bwd st) !! m = Some gb ->
  gf < fuel -> gb < fuel ->
  exists path, reconstruct fuel st (Some m) = Returned (Some path) (nodes_evaluated st).
Proof.
  intros [Hf Hb] Hmf Hmb Hlf Hlb. unfold reconstruct.
  destruct (walk_total n _ _ _ fuel m gf Hf Hmf Hlf) as [pf ->].
  destruct (inv_g_came _ _ _ _ Hb m (ex_intro _ gb Hmb)) as [v Hv].
  unfold dict_get. rewrite Hv. destruct v as [p|].
  - destruct (inv_came_some _ _ _ _ Hb m p Hv) as (gp & gk & Hp & Hk & Hlt & _).
    assert (gk = gb) as -> by congruence.
    destruct (walk_total n _ _ _ fuel p gp Hb Hp) as [pb ->]; [lia|]. eauto.
  - rewrite walk_None. eauto.
Qed.

(** No step of the main loop raises. *)
Lemma main_loop_no_exception start fuel st e :
  loop_inv n start st -> main_loop n fuel st <> Raised e.
Proof.
  revert st. induction fuel as [|fuel IH]; intros st Hinv; [done|].
  simpl. destruct (nonempty (open_set (fwd st))) eqn:Hnf;
    [destruct (nonempty (open_set (bwd st))) eqn:Hnb|]; simpl.
  - destruct (iteration_inv n start st Hinv Hnf Hnb) as (r & -> & Hpost).
    destruct r as [m st'|st']; simpl in Hpost.
    + unfold reconstruct.
      destruct (walk fuel _ (Some m)); [|done].
      by destruct (walk fuel _ (dict_get _ m)).
    + apply IH. tauto.
  - done.
  - done.
Qed.

(** A returned path is a chain of legal moves from the start to the goal. *)
Lemma main_loop_path start fuel st path nodes :
  loop_inv n start st ->
  main_loop n fuel st = Returned (Some path) nodes -> good_path n start path.
Proof.
  revert st. induction fuel as [|fuel IH]; intros st Hinv; [done|].
  simpl. destruct (nonempty (open_set (fwd st))) eqn:Hnf;
    [destruct (nonempty (open_set (bwd st))) eqn:Hnb|]; simpl.
  - destruct (iteration_inv n start st Hinv Hnf Hnb) as (r & -> & Hpost).
    destruct r as [m st'|st']; simpl in Hpost.
    + destruct Hpost as (Hinv' & Hmf & Hmb). intros Hr.
      by destruct (reconstruct_path start st' m fuel path nodes Hinv' Hmf Hmb Hr).
    + apply IH. tauto.
  - done.
  - done.
Qed.

(** The main loop ends: with enough fuel it returns. *)
Lemma main_loop_terminates start st :
  loop_inv n start st ->
  exists fuel0, forall fuel, fuel0 <= fuel ->
    exists full_path nodes, main_loop n fuel st = Returned full_path nodes.
Proof.
  remember (measure n (fwd st)) as mu eqn:Hmu. revert st Hmu.
  induction mu as [mu IH] using lex_lt_wf_ind. intros st -> Hinv.
  destruct (nonempty (open_set (fwd st)) && nonempty (open_set (bwd st)))
    eqn:Hne.
  - apply andb_true_iff in Hne as Hne'. destruct Hne' as [Hnf Hnb].
    destruct (iteration_inv n start st Hinv Hnf Hnb) as (r & Hr & Hpost).
    destruct r as [m st'|st']; simpl in Hpost.
    + destruct Hpost as (Hinv' & [gf Hmf] & [gb Hmb]).
      exists (S (S (gf + gb))). intros fuel Hfuel.
      destruct fuel as [|fuel]; [lia|]. cbn [main_loop]. rewrite Hne, Hr.
      destruct (reconstruct_total start st' m fuel gf gb Hinv' Hmf Hmb)
        as [path ->]; [lia|lia|]. eauto.
    + destruct Hpost as (Hinv' & Hlt).
      destruct (IH _ Hlt st' eq_refl Hinv') as [fuel0 Hfuel0].
      exists (S fuel0). intros fuel Hfuel.
      destruct fuel as [|fuel]; [lia|]. cbn [main_loop]. rewrite Hne, Hr.
      apply Hfuel0. lia.
  - exists 1. intros fuel Hfuel. destruct fuel as [|fuel]; [lia|].
    cbn [main_loop]. rewrite Hne. simpl. eauto.
Qed.

End Run.

Lemma linked_replay n l a z :
  linked (legal_move n) (a :: l) -> last (a :: l) = Some z ->
  exists moves, length moves = length l /\ for_each (do_action n) a moves = Ok z.
Proof.
  revert a. induction l as [|b l IH]; intros a Hl Hlast.
  - injection Hlast as <-. exists []. done.
  - apply linked_cons in Hl as [Hab Hl].
    destruct (Hab b eq_refl) as (acts & m & _ & _ & Hdo).
    destruct (IH b Hl Hlast) as (moves & Hlen & Hrun).
    exists (m :: moves). split; [simpl; by rewrite Hlen|].
    rewrite for_each_cons, Hdo. done.
Qed.

(** C4. Whenever the search returns a path, the path is a chain of states
    each one legal move from the next, its first element is the start
    state and its last element the goal state; so there is a list of moves,
    one per step, that [do_action] applies in order to the start state to
    arrive at the goal state. *)
Theorem bidirectional_a_star_path_chain (n fuel : nat) (start : ndarray)
    (path : list key) (nodes : nat) :
  valid_state n start ->
  bidirectional_a_star n fuel start = Returned (Some path) nodes ->
  head path = Some start /\ last path = Some (goal_buffer n) /\
  linked (legal_move n) path /\
  exists moves, length moves + 1 = length path /\
                for_each (do_action n) start moves = Ok (goal_buffer n).
Proof.
  intros Hv Hrun. unfold bidirectional_a_star in Hrun.
  destruct (initial_loop_state_inv n start Hv) as (st & Hst & Hinv & _).
  rewrite Hst in Hrun.
  destruct (main_loop_path n start fuel st path nodes Hinv Hrun)
    as (Hhd & Hlast & Hlink).
  split; [done|]. split; [done|]. split; [done|].
  destruct path as [|a l]; [discriminate|]. injection Hhd as ->.
  destruct (linked_replay n l start _ Hlink Hlast) as (moves & Hlen & Hmoves).
  exists moves. split; [simpl; lia | done].
Qed.

Lemma bidirectional_a_star_path_chain_witness :
  exists path nodes,
    valid_state 3 [1;2;3;4;0;6;7;5;8]%Z /\
    bidirectional_a_star 3 20 [1;2;3;4;0;6;7;5;8]%Z = Returned (Some path) nodes /\
    head path = Some [1;2;3;4;0;6;7;5;8]%Z /\
    last path = Some (goal_buffer 3) /\
    linked (legal_move 3) path /\
    exists moves, length moves + 1 = length path /\
      for_each (do_action 3) [1;2;3;4;0;6;7;5;8]%Z moves = Ok (goal_buffer 3).
Proof.
  assert (valid_state 3 [1;2;3;4;0;6;7;5;8]%Z) as Hv by decide_valid.
  eexists _, _. split; [exact Hv|].
  assert (bidirectional_a_star 3 20 [1;2;3;4;0;6;7;5;8]%Z =
          Returned (Some [[1;2;3;4;0;6;7;5;8]; [1;2;3;4;5;6;7;0;8];
                          [1;2;3;4;5;6;7;8;0]]%Z) 10) as Hrun
    by (vm_compute; reflexivity).
  split; [exact Hrun|].
  exact (bidirectional_a_star_path_chain 3 20 _ _ _ Hv Hrun).
Defined.

(** ** Relaxation, case by case *)

Lemma relax_cases n cur cs sr nodes a sr' nodes' :
  relax n cur cs (sr, nodes) a = Ok (sr', nodes') ->
  exists nb gc,
    do_action n cs a = Ok nb /\ g_score sr !! cur = Some gc /\
    ((sr' = sr /\ nodes' = nodes /\
      exists gold, g_score sr !! nb = Some gold /\ gold <= gc + 1) \/
     (exists h, manhattan_distance n nb = Ok h /\
        sr' = mkSearch (heappush (open_set sr) ((Z.of_nat (gc + 1) + h)%Z, nb))
                       (<[nb := Some cur]> (came_from sr))
                       (<[nb := gc + 1]> (g_score sr)) /\
        nodes' = nodes + 1 /\
        (g_score sr !! nb = None \/
         exists gold, g_score sr !! nb = Some gold /\ gc + 1 < gold))).
Proof.
  unfold relax. intros Hr.
  apply bind_Ok in Hr as (nb & Hdo & Hr).
  apply bind_Ok in Hr as (gc & Hgc & Hr). apply dict_item_Ok in Hgc.
  unfold tobytes in Hr. exists nb, gc. split; [done|]. split; [done|].
  destruct (g_score sr !! nb) as [gold|] eqn:Hold.
  - case_bool_decide as Hlt.
    + apply bind_Ok in Hr as (h & Hh & Hr). injection Hr as <- <-.
      right. exists h. eauto 10.
    + injection Hr as <- <-. left. split; [done|]. split; [done|].
      exists gold. split; [done|lia].
  - apply bind_Ok in Hr as (h & Hh & Hr). injection Hr as <- <-.
    right. exists h. eauto 10.
Qed.

(** C5. For every valid start state, solvable or not, the search ends with
    a normal result: some amount of fuel makes [bidirectional_a_star]
    return a path or [None], together with [nodes_evaluated].  The reasons:
    a relaxation that pushes a state already known does so with a strictly
    smaller score, over the finite set of valid states; and when a frontier
    is empty at the loop test the function returns [None] with the count. *)
Theorem bidirectional_a_star_terminates (n : nat) (start : ndarray) :
  valid_state n start ->
  (exists fuel full_path nodes,
     bidirectional_a_star n fuel start = Returned full_path nodes) /\
  (forall cur cs sr nodes a sr' nodes' nb gold,
     relax n cur cs (sr, nodes) a = Ok (sr', nodes') ->
     do_action n cs a = Ok nb -> g_score sr !! nb = Some gold ->
     sr' = sr \/ exists gnew, g_score sr' !! nb = Some gnew /\ gnew < gold) /\
  (forall fuel st,
     nonempty (open_set (fwd st)) && nonempty (open_set (bwd st)) = false ->
     main_loop n (S fuel) st = Returned None (nodes_evaluated st)).
Proof.
  intros Hv. split; [|split].
  - destruct (initial_loop_state_inv n start Hv) as (st & Hst & Hinv & _).
    destruct (main_loop_terminates n start st Hinv) as [fuel0 Hfuel].
    destruct (Hfuel fuel0 (le_n _)) as (p & nodes & Hrun).
    exists fuel0, p, nodes. unfold bidirectional_a_star. by rewrite Hst.
  - intros cur cs sr nodes a sr' nodes' nb gold Hr Hdo Hold.
    apply relax_cases in Hr as (nb' & gc & Hdo' & Hgc & Hcase).
    assert (nb' = nb) as -> by congruence.
    destruct Hcase as [(-> & _) | (h & _ & -> & _ & Hlt)]; [by left|right].
    destruct Hlt as [Hnone | (gold' & Hold' & Hlt)]; [congruence|].
    exists (gc + 1). simpl. rewrite lookup_insert_eq.
    split; [done|]. congruence.
  - intros fuel st Hne. cbn [main_loop]. by rewrite Hne.
Qed.

Lemma bidirectional_a_star_terminates_witness :
  valid_state 2 [2;1;3;0]%Z /\
  ~ is_solvable [2;1;3;0]%Z /\
  exists fuel full_path nodes,
    bidirectional_a_star 2 fuel [2;1;3;0]%Z = Returned full_path nodes.
Proof.
  assert (valid_state 2 [2;1;3;0]%Z) as Hv by decide_valid.
  split; [exact Hv|]. split; [vm_compute; auto|].
  exact (proj1 (bidirectional_a_star_terminates 2 [2;1;3;0]%Z Hv)).
Defined.

Lemma reachable_inv n start st :
  valid_state n start -> reachable n start st -> loop_inv n start st.
Proof.
  intros Hv Hr. induction Hr as [st Hst | st st' _ IH Hne Hit].
  - destruct (initial_loop_state_inv n start Hv) as (st0 & Hst0 & Hinv & _).
    congruence.
  - apply andb_true_iff in Hne as [Hnf Hnb].
    destruct (iteration_inv n start st IH Hnf Hnb) as (r & Hr & Hpost).
    rewrite Hit in Hr. injection Hr as <-. by destruct Hpost.
Qed.

(** C10. No step of a run raises: in particular no [g_score[...]] lookup
    meets a missing key.  At every state at the head of the main loop, for
    both directions: every frontier entry is a key of [g_score]; [g_score]
    and [came_from] have the same keys and the root's predecessor is
    [None]; and when the iteration breaks with a meeting node, the meeting
    node is a key of both [came_from] dictionaries, the two walks of the
    reconstruction end, only visit keys of their dictionary, and reach the
    start state and the goal state. *)
Theorem search_lookups_safe (n : nat) (start : ndarray) :
  valid_state n start ->
  (forall fuel e, bidirectional_a_star n fuel start <> Raised e) /\
  (forall st, reachable n start st ->
     (forall e, e ∈ open_set (fwd st) -> is_Some (g_score (fwd st) !! e.2)) /\
     (forall e, e ∈ open_set (bwd st) -> is_Some (g_score (bwd st) !! e.2)) /\
     (forall k, is_Some (g_score (fwd st) !! k) <-> is_Some (came_from (fwd st) !! k)) /\
     (forall k, is_Some (g_score (bwd st) !! k) <-> is_Some (came_from (bwd st) !! k)) /\
     came_from (fwd st) !! start = Some None /\
     came_from (bwd st) !! goal_buffer n = Some None /\
     (nonempty (open_set (fwd st)) && nonempty (open_set (bwd st)) = true ->
      exists r, iteration n st = Ok r /\
        forall m st', r = Break m st' ->
          is_Some (came_from (fwd st') !! m) /\
          is_Some (came_from (bwd st') !! m) /\
          exists fuel path_forward path_backward,
            walk fuel (came_from (fwd st')) (Some m) = Some path_forward /\
            walk fuel (came_from (bwd st')) (dict_get (came_from (bwd st')) m)
              = Some path_backward /\
            last path_forward = Some start /\
            last (m :: path_backward) = Some (goal_buffer n) /\
            (forall x, x ∈ path_forward -> is_Some (came_from (fwd st') !! x)) /\
            (forall x, x ∈ path_backward -> is_Some (came_from (bwd st') !! x)))).
Proof.
  intros Hv. split.
  - intros fuel e. unfold bidirectional_a_star.
    destruct (initial_loop_state_inv n start Hv) as (st & -> & Hinv & _).
    by apply (main_loop_no_exception n start).
  - intros st Hreach.
    pose proof (reachable_inv n start st Hv Hreach) as Hinv.
    pose proof Hinv as [Hf Hb].
    split; [by apply (inv_open _ _ _ _ Hf)|].
    split; [by apply (inv_open _ _ _ _ Hb)|].
    split; [intros k; split; [by apply (inv_g_came _ _ _ _ Hf)
                             | by apply (inv_came_g _ _ _ _ _ Hf)]|].
    split; [intros k; split; [by apply (inv_g_came _ _ _ _ Hb)
                             | by apply (inv_came_g _ _ _ _ _ Hb)]|].
    split; [by apply (inv_root_came _ _ _ _ Hf)|].
    split; [by apply (inv_root_came _ _ _ _ Hb)|].
    intros Hne. apply andb_true_iff in Hne as [Hnf Hnb].
    destruct (iteration_inv n start st Hinv Hnf Hnb) as (r & Hr & Hpost).
    exists r. split; [done|]. intros m st' ->. simpl in Hpost.
    destruct Hpost as ([Hf' Hb'] & [gf Hmf] & [gb Hmb]).
    split; [eapply inv_g_came; eauto|]. split; [eapply inv_g_came; eauto|].
    set (fuel := S (gf + gb)).
    destruct (walk_total n _ _ _ fuel m gf Hf' Hmf) as [pf Hpf]; [lia|].
    destruct (walk_spec n _ _ _ _ _ _ Hf' (ex_intro _ gf Hmf) Hpf)
      as (_ & Hlast & _ & Hkeys).
    destruct (inv_g_came _ _ _ _ Hb' m (ex_intro _ gb Hmb)) as [v Hv'].
    exists fuel, pf. unfold dict_get. rewrite Hv'. destruct v as [p|].
    + destruct (inv_came_some _ _ _ _ Hb' m p Hv')
        as (gp & gk & Hp & Hk & Hlt & _).
      assert (gk = gb) as -> by congruence.
      destruct (walk_total n _ _ _ fuel p gp Hb' Hp) as [pb Hpb]; [lia|].
      destruct (walk_spec n _ _ _ _ _ _ Hb' (ex_intro _ gp Hp) Hpb)
        as (_ & Hblast & _ & Hbkeys).
      exists pb. rewrite last_cons, Hblast. done.
    + exists []. rewrite walk_None.
      apply (inv_came_none _ _ _ _ Hb') in Hv' as ->.
      repeat split; try done. intros x Hx. by apply elem_of_nil in Hx.
Qed.

Lemma search_lookups_safe_witness :
  valid_state 3 [0;3;1;6;7;5;4;8;2]%Z /\
  bidirectional_a_star 3 1000 [0;3;1;6;7;5;4;8;2]%Z <> Raised KeyError.
Proof.
  assert (valid_state 3 [0;3;1;6;7;5;4;8;2]%Z) as Hv by decide_valid.
  split; [exact Hv|].
  exact (proj1 (search_lookups_safe 3 [0;3;1;6;7;5;4;8;2]%Z Hv) 1000 KeyError).
Defined.

(** ** The goal as start state *)

Lemma expand_step_meeting n sr ex oex nodes f cur rest :
  open_set sr = (f, cur) :: rest -> length cur = n * n -> cur ∈ oex ->
  expand_step n sr ex oex nodes =
  Ok (Meeting cur (mkSearch rest (came_from sr) (g_score sr)) (ex ∪ {[ cur ]})).
Proof.
  intros Hopen Hlen Hin. unfold expand_step. rewrite Hopen.
  cbn [heappop mbind result_bind]. unfold frombuffer, reshape.
  rewrite (bool_decide_true (length cur = n * n)) by done.
  cbn [mbind result_bind]. by rewrite bool_decide_true by done.
Qed.

(** C8. Started on the goal state, the search returns the path that holds
    the goal state alone: its quality, the length of the path minus one,
    is 0.  Two units of fuel are enough: the meeting is found in the first
    iteration of the loop. *)
Theorem bidirectional_a_star_on_goal (n fuel : nat) :
  0 < n -> 2 <= fuel ->
  exists nodes,
    bidirectional_a_star n fuel (goal_buffer n) =
      Returned (Some [goal_buffer n]) nodes /\
    length [goal_buffer n] - 1 = 0.
Proof.
  intros Hn Hfuel.
  pose proof (goal_buffer_valid n Hn) as Hv.
  destruct fuel as [|[|fuel]]; [lia|lia|].
  unfold bidirectional_a_star, initial_loop_state.
  rewrite goal_state_Ok by done. cbn [mbind result_bind].
  destruct (a_star_search_inv n (goal_buffer n) (goal_buffer n) true Hv)
    as (h & _ & -> & Hinv).
  destruct (a_star_search_inv n (goal_buffer n) (goal_buffer n) false Hv)
    as (h' & _ & -> & _).
  cbn [mbind result_bind].
  set (sr := mkSearch [(h, goal_buffer n)] {[goal_buffer n := None]}
                      {[goal_buffer n := 0]}) in *.
  set (srb := mkSearch [(h', goal_buffer n)] {[goal_buffer n := None]}
                       {[goal_buffer n := 0]}).
  cbn [main_loop fwd bwd]. unfold sr at 1, srb at 1. cbn [open_set nonempty andb].
  unfold iteration. cbn [fwd bwd explored_forward explored_backward nodes_evaluated].
  unfold sr at 1. cbn [open_set nonempty].
  destruct (expand_step_inv n (goal_buffer n) sr ∅ ∅ 0 Hinv eq_refl)
    as (r & Hr & Hpost).
  fold sr. rewrite Hr. cbn [mbind result_bind].
  destruct r as [m sr' ex' | sr' ex' nodes']; cbn [step_post] in Hpost.
  { destruct Hpost as (Hm & _). by apply elem_of_empty in Hm. }
  destruct Hpost as ((e & rest & Hopen & _ & ->) & Hinv' & _).
  injection Hopen as <- <-.
  cbn [mbind result_bind bwd explored_backward explored_forward nodes_evaluated].
  unfold srb at 1. cbn [open_set nonempty].
  rewrite (expand_step_meeting n srb ∅ (∅ ∪ {[goal_buffer n]}) nodes'
             h' (goal_buffer n) []);
    [|done|by apply valid_length|set_solver].
  cbn [mbind result_bind]. unfold reconstruct, srb.
  cbn [fwd bwd came_from nodes_evaluated walk].
  unfold dict_get. rewrite (inv_root_came _ _ _ _ Hinv').
  rewrite lookup_singleton_eq, !walk_None. cbn [fmap option_fmap option_map].
  exists nodes'. done.
Qed.

Lemma bidirectional_a_star_on_goal_witness :
  exists nodes,
    bidirectional_a_star 3 2 (goal_buffer 3) =
      Returned (Some [goal_buffer 3]) nodes /\
    length [goal_buffer 3] - 1 = 0.
Proof.
  apply (bidirectional_a_star_on_goal 3 2); lia.
Defined.

(** ** Arrays that agree cell by cell *)

Lemma elementwise_eq n (s1 s2 : ndarray) :
  length s1 = n * n -> length s2 = n * n ->
  (forall x y, x < n -> y < n -> getitem n s1 (x, y) = getitem n s2 (x, y)) ->
  s1 = s2.
Proof.
  intros H1 H2 Hcells. apply list_eq. intros i.
  destruct (decide (i < n * n)) as [Hi|Hi].
  - destruct (coords_lt n i Hi) as [Hx Hy].
    destruct (lookup_lt_is_Some_2 s1 i) as [v Hv]; [lia|].
    assert (getitem n s1 (i / n, i mod n) = Ok v) as Hg
      by (apply getitem_Ok; by rewrite coords_index).
    rewrite Hcells in Hg by done. apply getitem_Ok in Hg as (_ & _ & Hg).
    rewrite coords_index in Hg. congruence.
  - rewrite !lookup_ge_None_2; [done|lia|lia].
Qed.

Lemma spec_position_goal n v :
  0 < n -> (1 <= v < Z.of_nat (n * n))%Z ->
  spec_position n (goal_buffer n) v =
  Some (Z.to_nat (v - 1) / n, Z.to_nat (v - 1) mod n).
Proof.
  intros Hn Hv. unfold spec_position.
  assert (goal_buffer n !! Z.to_nat (v - 1) = Some v) as Hl.
  { rewrite goal_buffer_lookup by lia.
    rewrite bool_decide_true by lia. f_equal. lia. }
  destruct (list_find (fun w => w = v) (goal_buffer n)) as [[i w]|] eqn:Hf.
  - apply list_find_Some in Hf as (Hi & -> & _).
    assert (i = Z.to_nat (v - 1)) as ->; [|done].
    eapply NoDup_lookup; eauto. eapply valid_NoDup, goal_buffer_valid; done.
  - apply list_find_None in Hf. rewrite Forall_forall in Hf.
    exfalso. apply (Hf v); [|done]. by eapply list_elem_of_lookup_2.
Qed.

(** On valid states the heuristic of the code is the heuristic of the
    specification with the goal state as its target. *)
Lemma manhattan_distance_is_spec_to_goal n s :
  valid_state n s ->
  manhattan_distance n s = Ok (spec_manhattanDistance n s (goal_buffer n)).
Proof.
  intros Hv. assert (0 < n) as Hn by (by destruct Hv).
  rewrite manhattan_distance_total by (by apply valid_length).
  f_equal. unfold spec_manhattanDistance. f_equal.
  apply list_fmap_ext. intros i [x y] Hc.
  apply list_elem_of_lookup_2, elem_of_cells in Hc as [Hx Hy].
  unfold cell_cost, spec_cell_cost.
  destruct (getitem n s (x, y)) as [v|] eqn:Hg; [|done].
  case_bool_decide as Hv0; [|done].
  apply getitem_Ok in Hg as (_ & _ & Hg).
  apply list_elem_of_lookup_2, (valid_elem n s v Hv) in Hg.
  rewrite spec_position_goal by lia. simpl.
  rewrite Nat2Z.inj_div, Nat2Z.inj_mod.
  by rewrite Z2Nat.id by lia.
Qed.

Lemma for_each_relax_entries n cur cs l sr nodes sr' nodes' :
  for_each (relax n cur cs) (sr, nodes) l = Ok (sr', nodes') ->
  forall e, e ∈ open_set sr' ->
    e ∈ open_set sr \/
    exists gc h, g_score sr !! cur = Some gc /\
                 manhattan_distance n e.2 = Ok h /\
                 e.1 = (Z.of_nat (gc + 1) + h)%Z.
Proof.
  revert sr nodes. induction l as [|a l IH]; intros sr nodes Hf e He.
  - injection Hf as <- <-. by left.
  - rewrite for_each_cons in Hf. apply bind_Ok in Hf as ([sr1 nodes1] & Hr & Hf).
    apply relax_cases in Hr as (nb & gc & _ & Hgc & Hcase).
    destruct (IH sr1 nodes1 Hf e He) as [Hin | (gc1 & h & Hgc1 & Hh & He1)].
    + destruct Hcase as [(-> & _) | (h & Hh & -> & _)]; [by left|].
      simpl in Hin. apply elem_of_heappush in Hin as [-> | Hin]; [|by left].
      right. exists gc, h. done.
    + right. exists gc1, h. split; [|done].
      destruct Hcase as [(-> & _) | (h1 & _ & -> & _ & Hlt)]; [done|].
      simpl in Hgc1. destruct (decide (nb = cur)) as [->|Hne].
      * destruct Hlt as [Hnone | (gold & Hold & Hlt)]; [congruence|].
        assert (gold = gc) by congruence. lia.
      * by rewrite lookup_insert_ne in Hgc1 by done.
Qed.

(** C1. The backward step does not use the start state.  In the first
    iteration on the 3 x 3 state [scenario] the backward step relaxes the
    neighbour [1 2 3 / 4 5 0 / 7 8 6] of the goal with score 1 and pushes
    it with priority 2: one plus [manhattan_distance(neighbor)], its
    distance to the goal, which is 1.  Its distance to the start state is
    13, so the claim has priority 14.  The backward search is created by
    [a_star_search(goal_state, initial_state, forward=False)], which is
    handed the start state as its goal and uses neither that argument nor
    [forward]; the one-argument [manhattan_distance] always measures to the
    goal. *)
Theorem backward_priority_ignores_start :
  exists st st' e,
    initial_loop_state 3 scenario = Ok st /\
    iteration 3 st = Ok (Continue st') /\
    e ∈ open_set (bwd st') /\ (e ∉ open_set (bwd st)) /\
    e.2 = [1;2;3;4;5;0;7;8;6]%Z /\
    g_score (bwd st') !! e.2 = Some 1 /\
    manhattan_distance 3 e.2 = Ok 1%Z /\
    e.1 = (Z.of_nat 1 + 1)%Z /\
    spec_manhattanDistance 3 e.2 (goal_buffer 3) = 1%Z /\
    spec_manhattanDistance 3 e.2 scenario = 13%Z /\
    e.1 <> (Z.of_nat 1 + spec_manhattanDistance 3 e.2 scenario)%Z.
Proof.
  eexists _, _, (2%Z, [1;2;3;4;5;0;7;8;6]%Z).
  split; [vm_compute; reflexivity|].
  split; [vm_compute; reflexivity|].
  split; [apply (bool_decide_unpack _); vm_compute; exact I|].
  split; [apply (bool_decide_unpack _); vm_compute; exact I|].
  split; [reflexivity|].
  split; [vm_compute; reflexivity|].
  split; [vm_compute; reflexivity|].
  split; [reflexivity|].
  split; [vm_compute; reflexivity|].
  split; [vm_compute; reflexivity|].
  vm_compute. discriminate.
Qed.

Lemma bytes_ltb_asym a b : bytes_ltb a b = true -> bytes_ltb b a = false.
Proof.
  revert b. induction a as [|x a IH]; intros [|y b]; simpl; try done.
  repeat case_bool_decide; try done; try lia. apply IH.
Qed.

Lemma bytes_ltb_between c a b :
  bytes_ltb c a = true -> bytes_ltb b a = true \/ bytes_ltb c b = true.
Proof.
  revert a b. induction c as [|x c IH]; intros [|y a] [|z b]; simpl;
    try done; try tauto.
  repeat case_bool_decide; try done; try tauto; try lia. apply IH.
Qed.

Lemma key_ltb_asym a b : key_ltb a b = true -> key_ltb b a = false.
Proof. apply bytes_ltb_asym. Qed.

Lemma key_ltb_between c a b :
  key_ltb c a = true -> key_ltb b a = true \/ key_ltb c b = true.
Proof. apply bytes_ltb_between. Qed.

Lemma entry_ltb_asym a b : entry_ltb a b = true -> entry_le a b.
Proof.
  unfold entry_le, entry_ltb.
  repeat case_bool_decide; try done; try lia. apply key_ltb_asym.
Qed.

Lemma entry_le_trans a b c : entry_le a b -> entry_le b c -> entry_le a c.
Proof.
  unfold entry_le. intros Hab Hbc.
  destruct (entry_ltb c a) eqn:Hca; [|done]. exfalso.
  unfold entry_ltb in *.
  repeat case_bool_decide; try done; try lia.
  destruct (key_ltb_between c.2 a.2 b.2 Hca); congruence.
Qed.

Lemma heappush_sorted heap item :
  StronglySorted entry_le heap -> StronglySorted entry_le (heappush heap item).
Proof.
  induction heap as [|e heap IH]; intros Hs; simpl.
  - repeat constructor.
  - apply StronglySorted_inv in Hs as [Hs Hall].
    destruct (entry_ltb e item) eqn:Hlt.
    + constructor; [by apply IH|]. apply Forall_forall. intros x Hx.
      apply elem_of_heappush in Hx as [-> | Hx]; [by apply entry_ltb_asym|].
      rewrite Forall_forall in Hall. by apply Hall.
    + constructor; [by constructor|]. constructor; [done|].
      eapply Forall_impl; [exact Hall|]. intros x Hx.
      eapply entry_le_trans; [|exact Hx]. done.
Qed.

Section Lazy.

Variable n : nat.

Lemma relax_lazy_step cur cs gc sr ex nodes a sr' nodes' :
  relax_inv_lazy n cur sr ex -> g_score sr !! cur = Some gc ->
  relax n cur cs (sr, nodes) a = Ok (sr', nodes') ->
  relax_inv_lazy n cur sr' ex /\ g_score sr' !! cur = Some gc /\
  (forall k g, g_score sr !! k = Some g ->
     exists g', g_score sr' !! k = Some g' /\ g' <= g) /\
  (forall nb, do_action n cs a = Ok nb ->
     exists gn, g_score sr' !! nb = Some gn /\ gn <= gc + 1).
Proof.
  intros Hinv Hgc Hr.
  apply relax_cases in Hr as (nb & gc' & Hdo & Hgc' & Hcase).
  assert (gc' = gc) as -> by congruence.
  destruct Hcase as [(-> & _ & gold & Hold & Hle) | (h & Hh & -> & _ & Hbetter)].
  { split; [done|]. split; [done|]. split; [eauto|].
    intros nb' Hdo'. assert (nb' = nb) as -> by congruence. eauto. }
  assert (nb <> cur) as Hne.
  { intros ->. destruct Hbetter as [?|(gold & ? & ?)]; [congruence|].
    assert (gold = gc) by congruence. lia. }
  assert (forall k g, g_score sr !! k = Some g ->
            exists g', <[nb := gc + 1]> (g_score sr) !! k = Some g' /\ g' <= g)
    as Hmono.
  { intros k g Hk. destruct (decide (nb = k)) as [<-|Hnk].
    - rewrite lookup_insert_eq. eexists. split; [done|].
      destruct Hbetter as [?|(gold & ? & ?)]; [congruence|].
      assert (gold = g) by congruence. lia.
    - rewrite lookup_insert_ne by done. eauto. }
  split; [|split; [|split]]; simpl.
  - destruct Hinv as [Hsorted Hlower Hothers]. split; simpl.
    + by apply heappush_sorted.
    + intros e He. apply elem_of_heappush in He as [-> | He]; simpl.
      * exists (gc + 1), h. rewrite lookup_insert_eq. split; [done|].
        split; [done|lia].
      * destruct (Hlower e He) as (g & h' & Hg & Hh' & Hle).
        destruct (Hmono _ _ Hg) as (g' & Hg' & Hle').
        exists g', h'. split; [done|]. split; [done|lia].
    + intros k g Hk Hkc. destruct (decide (nb = k)) as [<-|Hnk].
      * rewrite lookup_insert_eq in Hk. injection Hk as <-.
        left. exists h. split; [done|]. apply elem_of_heappush. by left.
      * rewrite lookup_insert_ne in Hk by done.
        destruct (Hothers k g Hk Hkc) as [(h' & Hh' & Hin) | (Hex & Hnbs)].
        { left. exists h'. split; [done|]. apply elem_of_heappush. by right. }
        right. split; [done|]. intros nb' Hm.
        destruct (Hnbs nb' Hm) as (gn & Hgn & Hle).
        destruct (Hmono _ _ Hgn) as (gn' & Hgn' & Hle').
        exists gn'. split; [done|lia].
  - by rewrite lookup_insert_ne by done.
  - done.
  - intros nb' Hdo'. assert (nb' = nb) as -> by congruence.
    exists (gc + 1). rewrite lookup_insert_eq. split; [done|lia].
Qed.

Lemma for_each_relax_lazy cur cs gc ex l sr nodes sr' nodes' :
  relax_inv_lazy n cur sr ex -> g_score sr !! cur = Some gc ->
  for_each (relax n cur cs) (sr, nodes) l = Ok (sr', nodes') ->
  relax_inv_lazy n cur sr' ex /\ g_score sr' !! cur = Some gc /\
  (forall k g, g_score sr !! k = Some g ->
     exists g', g_score sr' !! k = Some g' /\ g' <= g) /\
  (forall a nb, a ∈ l -> do_action n cs a = Ok nb ->
     exists gn, g_score sr' !! nb = Some gn /\ gn <= gc + 1).
Proof.
  revert sr nodes. induction l as [|a l IH]; intros sr nodes Hinv Hgc Hf.
  - injection Hf as <- <-. split; [done|]. split; [done|]. split; [eauto|].
    intros a nb Ha. by apply elem_of_nil in Ha.
  - rewrite for_each_cons in Hf. apply bind_Ok in Hf as ([sr1 nodes1] & Hr & Hf).
    destruct (relax_lazy_step _ _ _ _ _ _ _ _ _ Hinv Hgc Hr)
      as (Hinv1 & Hgc1 & Hmono1 & Hdone1).
    destruct (IH sr1 nodes1 Hinv1 Hgc1 Hf) as (Hinv' & Hgc' & Hmono' & Hdone').
    split; [done|]. split; [done|]. split.
    + intros k g Hk. destruct (Hmono1 k g Hk) as (g1 & Hg1 & Hle1).
      destruct (Hmono' k g1 Hg1) as (g' & Hg' & Hle'). exists g'. split; [done|lia].
    + intros a' nb Ha' Hdo. apply elem_of_cons in Ha' as [-> | Ha']; [|eauto].
      destruct (Hdone1 nb Hdo) as (gn & Hgn & Hle).
      destruct (Hmono' nb gn Hgn) as (gn' & Hgn' & Hle').
      exists gn'. split; [done|lia].
Qed.

(** Relaxing neighbours whose scores cannot be improved changes nothing. *)
Lemma for_each_relax_noop cur cs gc l sr nodes :
  g_score sr !! cur = Some gc ->
  (forall a, a ∈ l -> exists nb gn,
     do_action n cs a = Ok nb /\ g_score sr !! nb = Some gn /\ gn <= gc + 1) ->
  for_each (relax n cur cs) (sr, nodes) l = Ok (sr, nodes).
Proof.
  intros Hgc. induction l as [|a l IH]; intros Hall; [done|].
  rewrite for_each_cons.
  destruct (Hall a) as (nb & gn & Hdo & Hgn & Hle); [apply list_elem_of_here|].
  assert (relax n cur cs (sr, nodes) a = Ok (sr, nodes)) as ->.
  { unfold relax. rewrite Hdo. cbn [mbind result_bind]. unfold tobytes.
    rewrite (proj2 (dict_item_Ok _ _ _) Hgc). cbn [mbind result_bind].
    rewrite Hgn. by rewrite bool_decide_false by lia. }
  cbn [mbind result_bind]. apply IH. intros a' Ha'. apply Hall.
  by apply list_elem_of_further.
Qed.

Lemma expand_step_Expanded sr ex oex nodes sr' ex' nodes' :
  expand_step n sr ex oex nodes = Ok (Expanded sr' ex' nodes') ->
  exists f cur rest acts,
    open_set sr = (f, cur) :: rest /\ length cur = n * n /\ (cur ∉ oex) /\
    ex' = ex ∪ {[ cur ]} /\ available_actions n cur = Ok acts /\
    for_each (relax n cur cur)
      (mkSearch rest (came_from sr) (g_score sr), nodes) acts = Ok (sr', nodes').
Proof.
  unfold expand_step. intros Hs.
  apply bind_Ok in Hs as ([[f cur] rest] & Hpop & Hs).
  apply bind_Ok in Hs as (cs & Hcs & Hs).
  unfold frombuffer, reshape in Hcs.
  destruct (decide (length cur = n * n)) as [Hlen|Hlen];
    [rewrite bool_decide_true in Hcs by done
    |rewrite bool_decide_false in Hcs by done; discriminate].
  injection Hcs as <-.
  destruct (decide (cur ∈ oex)) as [Hmeet|Hmeet];
    [rewrite bool_decide_true in Hs by done; discriminate
    |rewrite bool_decide_false in Hs by done].
  apply bind_Ok in Hs as (acts & Hacts & Hs).
  apply bind_Ok in Hs as ([sr1 nodes1] & Hf & Hs). injection Hs as <- <- <-.
  exists f, cur, rest, acts. repeat split; try done.
  unfold heappop in Hpop. destruct (open_set sr); by simplify_eq.
Qed.

Lemma expand_step_lazy root sr ex oex nodes sr' ex' nodes' :
  dir_inv n root sr ex -> lazy_inv n sr ex ->
  expand_step n sr ex oex nodes = Ok (Expanded sr' ex' nodes') ->
  lazy_inv n sr' ex'.
Proof.
  intros Hdir [Hsorted Hlower Hsettled] Hs.
  apply expand_step_Expanded in Hs
    as (f & cur & rest & acts & Hopen & Hlen & Hmeet & -> & Hacts & Hf).
  assert (is_Some (g_score sr !! cur)) as [gc Hgc].
  { apply (inv_open _ _ _ _ Hdir (f, cur)). rewrite Hopen. apply list_elem_of_here. }
  set (sr0 := mkSearch rest (came_from sr) (g_score sr)) in *.
  assert (relax_inv_lazy n cur sr0 (ex ∪ {[cur]})) as Hinv0.
  { split; simpl.
    - rewrite Hopen in Hsorted. by apply StronglySorted_inv in Hsorted as [? _].
    - intros e He. apply Hlower. rewrite Hopen. by apply list_elem_of_further.
    - intros k g Hk Hkc.
      destruct (Hsettled k g Hk) as [(h & Hh & Hin) | (Hex & Hnbs)].
      + left. exists h. split; [done|]. simpl. rewrite Hopen in Hin.
        apply elem_of_cons in Hin as [[= _ ?] | Hin]; [congruence|done].
      + right. split; [set_solver|done]. }
  destruct (for_each_relax_lazy _ _ _ _ _ _ _ _ _ Hinv0 Hgc Hf)
    as ([Hsorted' Hlower' Hothers'] & Hgc' & _ & Hdone).
  split; [done|done|].
  intros k g Hk. destruct (decide (k = cur)) as [->|Hkc]; [|by apply Hothers'].
  right. assert (g = gc) as -> by congruence. split; [set_solver|].
  intros nb (acts' & a & Hacts' & Ha & Hdo).
  assert (acts' = acts) as -> by congruence. by eapply Hdone.
Qed.

(** A stale entry at the head of a frontier is dropped and that is all:
    the dictionaries, the explored set and the counter stay as they are,
    and no meeting is reported. *)
Lemma stale_pop_noop root sr ex oex nodes e rest :
  dir_inv n root sr ex -> lazy_inv n sr ex ->
  open_set sr = e :: rest -> stale n sr e -> e.2 ∉ oex ->
  expand_step n sr ex oex nodes =
  Ok (Expanded (mkSearch rest (came_from sr) (g_score sr)) ex nodes).
Proof.
  intros Hdir [Hsorted Hlower Hsettled] Hopen (g & h & Hg & Hh & Hne) Hmeet.
  destruct e as [f k]. simpl in *.
  assert (Z.of_nat g + h < f)%Z as Hlt.
  { destruct (Hlower (f, k)) as (g' & h' & Hg' & Hh' & Hle).
    { rewrite Hopen. apply list_elem_of_here. }
    simpl in *. assert (g' = g) as -> by congruence.
    assert (h' = h) as -> by congruence. lia. }
  destruct (Hsettled k g Hg) as [(h' & Hh' & Hin) | (Hex & Hnbs)].
  { exfalso. assert (h' = h) as -> by congruence.
    rewrite Hopen in Hin, Hsorted.
    apply elem_of_cons in Hin as [[= ?] | Hin]; [lia|].
    apply StronglySorted_inv in Hsorted as [_ Hall].
    rewrite Forall_forall in Hall. specialize (Hall _ Hin).
    unfold entry_le, entry_ltb in Hall. simpl in Hall.
    by rewrite bool_decide_true in Hall by lia. }
  assert (valid_state n k) as Hv by (eapply inv_g_valid; eauto).
  destruct (valid_blank n k Hv) as (i & _ & _ & Hz & _).
  pose proof (available_actions_moves _ _ _ _ Hz) as Hacts.
  unfold expand_step. rewrite Hopen.
  cbn [heappop mbind result_bind]. unfold frombuffer, reshape.
  rewrite (bool_decide_true (length k = n * n)) by (by apply valid_length).
  cbn [mbind result_bind]. rewrite bool_decide_false by done.
  rewrite Hacts. cbn [mbind result_bind].
  rewrite (for_each_relax_noop k k g).
  - cbn [mbind result_bind]. do 2 f_equal. set_solver.
  - done.
  - intros a Ha.
    destruct (move_result n k _ a Hv Hacts Ha) as (nb & Hdo & Hm & _).
    destruct (Hnbs nb Hm) as (gn & Hgn & Hle). eauto.
Qed.

Lemma a_star_search_lazy h root :
  manhattan_distance n root = Ok h ->
  lazy_inv n (mkSearch [(h, root)] {[ root := None ]} {[ root := 0 ]}) ∅.
Proof.
  intros Hh. split; simpl.
  - repeat constructor.
  - intros e He. apply list_elem_of_singleton in He as ->. simpl.
    exists 0, h. rewrite lookup_singleton_eq. split; [done|]. split; [done|lia].
  - intros k g Hk. apply lookup_singleton_Some in Hk as [<- <-].
    left. exists h. split; [done|]. simpl. apply list_elem_of_singleton.
    f_equal; lia.
Qed.

End Lazy.

Lemma iteration_Continue n st st' :
  nonempty (open_set (fwd st)) && nonempty (open_set (bwd st)) = true ->
  iteration n st = Ok (Continue st') ->
  exists sr1 ef1 n1 sr2 eb2 n2,
    expand_step n (fwd st) (explored_forward st) (explored_backward st)
      (nodes_evaluated st) = Ok (Expanded sr1 ef1 n1) /\
    expand_step n (bwd st) (explored_backward st) ef1 n1
      = Ok (Expanded sr2 eb2 n2) /\
    st' = mkLoop sr1 sr2 ef1 eb2 n2.
Proof.
  intros Hne Hit. apply andb_true_iff in Hne as [Hnf Hnb].
  unfold iteration in Hit. rewrite Hnf in Hit.
  apply bind_Ok in Hit as (r1 & Hr1 & Hit).
  apply bind_Ok in Hr1 as (s1 & Hs1 & Hr1).
  destruct s1 as [m sr1 ef1 | sr1 ef1 n1]; injection Hr1 as <-; [discriminate|].
  cbn [bwd nodes_evaluated explored_backward explored_forward] in Hit.
  rewrite Hnb in Hit.
  apply bind_Ok in Hit as (s2 & Hs2 & Hit).
  destruct s2 as [m sr2 eb2 | sr2 eb2 n2]; [discriminate|].
  injection Hit as <-. cbn [fwd] in *. eauto 10.
Qed.

Lemma reachable_lazy n start st :
  valid_state n start -> reachable n start st -> loop_lazy n st.
Proof.
  intros Hv Hr. induction Hr as [st Hst | st st' Hreach IH Hne Hit].
  - assert (0 < n) as Hn by (by destruct Hv).
    unfold initial_loop_state in Hst. rewrite goal_state_Ok in Hst by done.
    cbn [mbind result_bind] in Hst.
    destruct (a_star_search_inv n start (goal_buffer n) true Hv)
      as (h1 & Hh1 & Heq1 & _).
    destruct (a_star_search_inv n (goal_buffer n) start false
                (goal_buffer_valid n Hn)) as (h2 & Hh2 & Heq2 & _).
    rewrite Heq1 in Hst. cbn [mbind result_bind] in Hst.
    rewrite Heq2 in Hst. cbn [mbind result_bind] in Hst.
    injection Hst as <-. split; [|split]; simpl.
    + by apply a_star_search_lazy.
    + by apply a_star_search_lazy.
    + set_solver.
  - destruct IH as (Hlf & Hlb & Hdisj).
    destruct (reachable_inv n start st Hv Hreach) as [Hf Hb].
    destruct (iteration_Continue n st st' Hne Hit)
      as (sr1 & ef1 & n1 & sr2 & eb2 & n2 & Hs1 & Hs2 & ->).
    pose proof (expand_step_lazy n _ _ _ _ _ _ _ _ Hf Hlf Hs1) as Hlf'.
    pose proof (expand_step_lazy n _ _ _ _ _ _ _ _ Hb Hlb Hs2) as Hlb'.
    apply expand_step_Expanded in Hs1 as (? & c1 & ? & ? & _ & _ & Hm1 & -> & _).
    apply expand_step_Expanded in Hs2 as (? & c2 & ? & ? & _ & _ & Hm2 & -> & _).
    split; [done|]. split; [done|]. simpl. set_solver.
Qed.

(** C3 (amended).  The source has no test for stale entries and no
    [continue]: a popped entry is processed like any other.  At every state
    at the head of the main loop, in both directions, when the entry that
    a direction pops is stale (its priority is not the current score of
    its state plus the heuristic), the processing changes nothing but the
    frontier: the state is not reported as a meeting point, no neighbour is
    relaxed, and the scores, the predecessors, the explored set and
    [nodes_evaluated] are what they were.  The loop goes on within the same
    iteration: after a stale forward pop the backward step still runs. *)
Theorem stale_entry_is_noop (n : nat) (start : ndarray) (st : loop_state) :
  valid_state n start -> reachable n start st ->
  (forall e rest,
     open_set (fwd st) = e :: rest -> stale n (fwd st) e ->
     expand_step n (fwd st) (explored_forward st) (explored_backward st)
       (nodes_evaluated st) =
     Ok (Expanded (mkSearch rest (came_from (fwd st)) (g_score (fwd st)))
                  (explored_forward st) (nodes_evaluated st))) /\
  (forall sr1 ef1 n1 e rest,
     expand_step n (fwd st) (explored_forward st) (explored_backward st)
       (nodes_evaluated st) = Ok (Expanded sr1 ef1 n1) ->
     open_set (bwd st) = e :: rest -> stale n (bwd st) e ->
     expand_step n (bwd st) (explored_backward st) ef1 n1 =
     Ok (Expanded (mkSearch rest (came_from (bwd st)) (g_score (bwd st)))
                  (explored_backward st) n1)) /\
  (forall e rest,
     open_set (fwd st) = e :: rest -> stale n (fwd st) e ->
     nonempty (open_set (bwd st)) = true ->
     let fwd' := mkSearch rest (came_from (fwd st)) (g_score (fwd st)) in
     iteration n st =
     r ← expand_step n (bwd st) (explored_backward st) (explored_forward st)
           (nodes_evaluated st);
     match r with
     | Meeting m sr eb =>
         Ok (Break m (mkLoop fwd' sr (explored_forward st) eb
                        (nodes_evaluated st)))
     | Expanded sr eb k =>
         Ok (Continue (mkLoop fwd' sr (explored_forward st) eb k))
     end).
Proof.
  intros Hv Hreach.
  destruct (reachable_inv n start st Hv Hreach) as [Hf Hb].
  destruct (reachable_lazy n start st Hv Hreach) as (Hlf & Hlb & Hdisj).
  assert (forall root sr ex e rest,
            dir_inv n root sr ex -> lazy_inv n sr ex ->
            open_set sr = e :: rest -> stale n sr e -> e.2 ∈ ex) as Hin.
  { intros root sr ex e rest Hd Hl Hopen Hst.
    pose proof (stale_pop_noop n root sr ex (∅ : gset key) 0 e rest Hd Hl Hopen Hst)
      as Hnoop.
    apply expand_step_Expanded in Hnoop as (? & c & ? & ? & Ho & _ & _ & Hex & _);
      [|set_solver].
    rewrite Hopen in Ho. injection Ho as -> _. simpl. set_solver. }
  assert (forall e rest,
     open_set (fwd st) = e :: rest -> stale n (fwd st) e ->
     expand_step n (fwd st) (explored_forward st) (explored_backward st)
       (nodes_evaluated st) =
     Ok (Expanded (mkSearch rest (came_from (fwd st)) (g_score (fwd st)))
                  (explored_forward st) (nodes_evaluated st))) as Hfwd.
  { intros e rest Hopen Hstale.
    apply (stale_pop_noop n start _ _ _ _ e rest Hf Hlf Hopen Hstale).
    pose proof (Hin _ _ _ _ _ Hf Hlf Hopen Hstale). set_solver. }
  split; [exact Hfwd|]. split.
  - intros sr1 ef1 n1 e rest Hs1 Hopen Hstale.
    apply (stale_pop_noop n (goal_buffer n) _ _ _ _ e rest Hb Hlb Hopen Hstale).
    pose proof (Hin _ _ _ _ _ Hb Hlb Hopen Hstale) as Heb.
    apply expand_step_Expanded in Hs1 as (? & c1 & ? & ? & _ & _ & Hm1 & -> & _).
    set_solver.
  - intros e rest Hopen Hstale Hnb fwd'. unfold iteration.
    assert (nonempty (open_set (fwd st)) = true) as -> by (by rewrite Hopen).
    rewrite (Hfwd e rest Hopen Hstale).
    cbn [mbind result_bind bwd fwd explored_forward explored_backward
         nodes_evaluated].
    rewrite Hnb. reflexivity.
Qed.

Lemma run_iterations_reachable n start k st st' :
  reachable n start st -> run_iterations n k st = Some st' ->
  reachable n start st'.
Proof.
  revert st. induction k as [|k IH]; intros st Hreach Hrun; simpl in Hrun.
  - by injection Hrun as <-.
  - destruct (nonempty (open_set (fwd st)) && nonempty (open_set (bwd st)))
      eqn:Hne; [|discriminate].
    destruct (iteration n st) as [[m st1|st1]|] eqn:Hit; try discriminate.
    eapply IH; [|exact Hrun]. by eapply reachable_step.
Qed.

Lemma state_after_reachable n start k st :
  state_after n start k = Some st -> reachable n start st.
Proof.
  unfold state_after. intros Hst.
  destruct (initial_loop_state n start) as [st0|] eqn:Hinit; [|discriminate].
  eapply run_iterations_reachable; [|exact Hst]. by apply reachable_init.
Qed.

Lemma stale_entry_is_noop_witness :
  valid_state 3 stale_start /\
  reachable 3 stale_start stale_state /\
  open_set (fwd stale_state) = stale_entry :: tail (open_set (fwd stale_state)) /\
  stale 3 (fwd stale_state) stale_entry /\
  expand_step 3 (fwd stale_state) (explored_forward stale_state)
    (explored_backward stale_state) (nodes_evaluated stale_state) =
  Ok (Expanded (mkSearch (tail (open_set (fwd stale_state)))
                         (came_from (fwd stale_state))
                         (g_score (fwd stale_state)))
               (explored_forward stale_state) (nodes_evaluated stale_state)).
Proof.
  assert (valid_state 3 stale_start) as Hv by decide_valid.
  assert (reachable 3 stale_start stale_state) as Hreach.
  { apply (state_after_reachable 3 stale_start 18).
    vm_compute. reflexivity. }
  assert (open_set (fwd stale_state) =
          stale_entry :: tail (open_set (fwd stale_state))) as Hopen.
  { vm_compute. reflexivity. }
  assert (stale 3 (fwd stale_state) stale_entry) as Hstale.
  { exists 5, 6%Z. split; [vm_compute; reflexivity|].
    split; [vm_compute; reflexivity|]. vm_compute. discriminate. }
  split; [exact Hv|]. split; [exact Hreach|]. split; [exact Hopen|].
  split; [exact Hstale|].
  exact (proj1 (stale_entry_is_noop 3 stale_start stale_state Hv Hreach)
           stale_entry _ Hopen Hstale).
Defined.

(** C3 (as stated) fails.  After 18 iterations on the 3 x 3 state
    [stale_start] the forward frontier starts with a stale entry.  A loop
    that skips the entry and continues, as the claim has it, leaves the
    backward direction as it is in that iteration; the source goes on to
    its backward step, which pops and expands a state and pushes one
    entry.  The whole run evaluates 74 nodes, the run with the claim's
    test 73, for the same path. *)
Lemma stale_entry_not_skipped :
  open_set (fwd stale_state) = stale_entry :: tail (open_set (fwd stale_state)) /\
  stale 3 (fwd stale_state) stale_entry /\
  iteration 3 stale_state = Ok (Continue stale_next) /\
  spec_iteration 3 stale_state =
    Ok (Continue (mkLoop (mkSearch (tail (open_set (fwd stale_state)))
                                   (came_from (fwd stale_state))
                                   (g_score (fwd stale_state)))
                         (bwd stale_state) (explored_forward stale_state)
                         (explored_backward stale_state)
                         (nodes_evaluated stale_state))) /\
  size (explored_backward stale_next) = S (size (explored_backward stale_state)) /\
  nodes_evaluated stale_next = S (nodes_evaluated stale_state) /\
  exists path,
    bidirectional_a_star 3 100 stale_start = Returned (Some path) 74 /\
    spec_bidirectional_a_star 3 100 stale_start = Returned (Some path) 73.
Proof.
  split; [vm_compute; reflexivity|].
  split.
  { exists 5, 6%Z. split; [vm_compute; reflexivity|].
    split; [vm_compute; reflexivity|]. vm_compute. discriminate. }
  split; [vm_compute; reflexivity|].
  split; [vm_compute; reflexivity|].
  split; [vm_compute; reflexivity|].
  split; [vm_compute; reflexivity|].
  eexists. split; vm_compute; reflexivity.
Qed.

(** ** Keys as bytes *)

Module Encoding.

Lemma int64_bytes_small v :
  (0 <= v < 256)%Z -> int64_bytes v = v :: replicate 7 0%Z.
Proof.
  intros Hv. unfold int64_bytes. simpl.
  rewrite Z.div_1_r, Z.mod_small by lia.
  repeat (rewrite (Z.div_small v) by lia). done.
Qed.

Lemma bytes_ltb_zeros k a b :
  bytes_ltb (replicate k 0%Z ++ a) (replicate k 0%Z ++ b) = bytes_ltb a b.
Proof.
  induction k as [|k IH]; [done|]. simpl.
  repeat case_bool_decide; try done; lia.
Qed.

(** On boards whose values fit in a byte the order of the keys is the
    lexicographic order of the lists of values. *)
Lemma bytes_order a b :
  Forall (fun v => 0 <= v < 256)%Z a -> Forall (fun v => 0 <= v < 256)%Z b ->
  key_ltb a b = bytes_ltb a b.
Proof.
  unfold key_ltb. intros Ha. revert b. induction Ha as [|x a Hx Ha IH]; intros b Hb.
  - destruct Hb as [|y b Hy Hb]; [done|].
    unfold bytes_of. cbn [mbind list_bind]. by rewrite int64_bytes_small by done.
  - destruct Hb as [|y b Hy Hb].
    + unfold bytes_of. cbn [mbind list_bind]. by rewrite int64_bytes_small by done.
    + unfold bytes_of in *. cbn [mbind list_bind].
      rewrite !int64_bytes_small by done. cbn [app bytes_ltb].
      repeat case_bool_decide; try done.
      rewrite (bytes_ltb_zeros 7). by apply IH.
Qed.

(** Distinct states have distinct keys. *)
Lemma bytes_of_inj a b :
  Forall (fun v => 0 <= v < 256)%Z a -> Forall (fun v => 0 <= v < 256)%Z b ->
  bytes_of a = bytes_of b -> a = b.
Proof.
  intros Ha. revert b. induction Ha as [|x a Hx Ha IH]; intros b Hb Heq.
  - destruct Hb as [|y b Hy Hb]; [done|].
    unfold bytes_of in Heq. cbn [mbind list_bind] in Heq.
    rewrite int64_bytes_small in Heq by done. discriminate.
  - destruct Hb as [|y b Hy Hb].
    + unfold bytes_of in Heq. cbn [mbind list_bind] in Heq.
      rewrite int64_bytes_small in Heq by done. discriminate.
    + unfold bytes_of in *. cbn [mbind list_bind] in Heq.
      rewrite !int64_bytes_small in Heq by done.
      cbn [app replicate] in Heq. injection Heq as -> Heq.
      f_equal. by apply IH.
Qed.

End Encoding.

(** ** Determinism: the heap's layout does not matter *)

(** *** Keys and their bytes *)

Lemma digits_inj k v w :
  (0 <= v < 256 ^ Z.of_nat k)%Z -> (0 <= w < 256 ^ Z.of_nat k)%Z ->
  (forall i, i < k ->
     ((v `div` 256 ^ Z.of_nat i) `mod` 256 =
      (w `div` 256 ^ Z.of_nat i) `mod` 256)%Z) ->
  v = w.
Proof.
  revert v w. induction k as [|k IH]; intros v w Hv Hw Hd.
  - simpl in Hv, Hw. lia.
  - rewrite Nat2Z.inj_succ, Z.pow_succ_r in Hv, Hw by lia.
    pose proof (Hd 0 ltac:(lia)) as H0. simpl in H0.
    rewrite !Z.div_1_r in H0.
    assert (v `div` 256 = w `div` 256)%Z as Hq.
    { apply IH.
      - split; [apply Z.div_pos; lia|apply Z.div_lt_upper_bound; lia].
      - split; [apply Z.div_pos; lia|apply Z.div_lt_upper_bound; lia].
      - intros i Hi. specialize (Hd (S i) ltac:(lia)).
        rewrite Nat2Z.inj_succ, Z.pow_succ_r in Hd by lia.
        rewrite <- !Z.div_div in Hd by lia. exact Hd. }
    pose proof (Z.div_mod v 256 ltac:(lia)). pose proof (Z.div_mod w 256 ltac:(lia)).
    lia.
Qed.

Lemma int64_bytes_inj v w :
  (0 <= v < 2 ^ 64)%Z -> (0 <= w < 2 ^ 64)%Z ->
  int64_bytes v = int64_bytes w -> v = w.
Proof.
  intros Hv Hw Heq. apply (digits_inj 8); [done|done|].
  intros i Hi. unfold int64_bytes in Heq.
  assert (((fun i => (v `div` 256 ^ Z.of_nat i) `mod` 256)%Z <$> seq 0 8) !! i =
          ((fun i => (w `div` 256 ^ Z.of_nat i) `mod` 256)%Z <$> seq 0 8) !! i)
    as Hl by (by rewrite Heq).
  rewrite !list_lookup_fmap, !lookup_seq_lt in Hl by done.
  by injection Hl.
Qed.

Lemma length_int64_bytes v : length (int64_bytes v) = 8.
Proof. unfold int64_bytes. by rewrite length_fmap, length_seq. Qed.

(** Arrays of 64-bit elements with the same bytes are the same array. *)
Lemma bytes_of_inj_64 a b :
  Forall (fun v => 0 <= v < 2 ^ 64)%Z a -> Forall (fun v => 0 <= v < 2 ^ 64)%Z b ->
  bytes_of a = bytes_of b -> a = b.
Proof.
  intros Ha. revert b. induction Ha as [|x a Hx Ha IH]; intros b Hb Heq.
  - destruct Hb as [|y b Hy Hb]; [done|].
    apply (f_equal length) in Heq. unfold bytes_of in Heq.
    cbn [mbind list_bind] in Heq.
    rewrite length_app, length_int64_bytes in Heq. simpl in Heq. lia.
  - destruct Hb as [|y b Hy Hb].
    + apply (f_equal length) in Heq. unfold bytes_of in Heq.
      cbn [mbind list_bind] in Heq.
      rewrite length_app, length_int64_bytes in Heq. simpl in Heq. lia.
    + unfold bytes_of in *. cbn [mbind list_bind] in Heq.
      apply app_inj_1 in Heq as [Hxy Hab];
        [|by rewrite !length_int64_bytes].
      f_equal; [by apply int64_bytes_inj | by apply IH].
Qed.

Lemma bytes_ltb_total a b :
  bytes_ltb a b = false -> bytes_ltb b a = false -> a = b.
Proof.
  revert b. induction a as [|x a IH]; intros [|y b]; simpl; try done.
  repeat case_bool_decide; try done; try lia.
  intros Hab Hba. subst. f_equal. by apply IH.
Qed.

(** Two entries never tie: entries with 64-bit keys that are not smaller
    than each other are the same entry. *)
Lemma entry_antisym (a b : entry) :
  Forall (fun v => 0 <= v < 2 ^ 64)%Z a.2 ->
  Forall (fun v => 0 <= v < 2 ^ 64)%Z b.2 ->
  entry_ltb a b = false -> entry_ltb b a = false -> a = b.
Proof.
  intros Ha Hb. destruct a as [fa ka], b as [fb kb]. unfold entry_ltb.
  cbn [fst snd] in *.
  repeat case_bool_decide; try done; try lia.
  intros Hab Hba. subst. f_equal.
  apply bytes_of_inj_64; [done..|]. by apply bytes_ltb_total.
Qed.

Lemma entry_ltb_irrefl e : entry_ltb e e = false.
Proof.
  destruct (entry_ltb e e) eqn:He; [|done].
  apply entry_ltb_asym in He as He'. unfold entry_le in He'. congruence.
Qed.

(** *** Two heaps that keep the contract *)

Lemma heappush_Permutation heap item : heappush heap item ≡ₚ item :: heap.
Proof.
  induction heap as [|e heap IH]; simpl; [done|].
  destruct (entry_ltb e item); [|done]. rewrite IH. apply perm_swap.
Qed.

Lemma sorted_heap_contract :
  heap_contract (StronglySorted entry_le) heappush sorted_pop.
Proof.
  split; [constructor|]. split; [|split].
  - intros h e Hs. split; [by apply heappush_sorted|apply heappush_Permutation].
  - intros [|e h] _ Hne; [done|by eexists].
  - intros [|e0 h] e rest Hs Hpop; [done|]. injection Hpop as <- <-.
    apply StronglySorted_inv in Hs as [Hs Hall]. split; [done|]. split; [done|].
    intros e' He'. apply elem_of_cons in He' as [->|He'].
    + apply entry_ltb_irrefl.
    + rewrite Forall_forall in Hall. by apply Hall.
Qed.

Lemma pop_least_spec heap e rest :
  pop_least heap = Some (e, rest) ->
  heap ≡ₚ e :: rest /\ forall e', e' ∈ heap -> entry_ltb e' e = false.
Proof.
  revert e rest. induction heap as [|a heap IH]; intros e rest Hpop; [done|].
  cbn [pop_least] in Hpop.
  destruct (pop_least heap) as [[m r]|] eqn:Hm.
  - destruct (IH m r eq_refl) as [Hperm Hleast].
    destruct (entry_ltb m a) eqn:Hma; injection Hpop as <- <-.
    + split; [rewrite Hperm; apply perm_swap|].
      intros e' He'. apply elem_of_cons in He' as [->|He'].
      * by apply entry_ltb_asym.
      * by apply Hleast.
    + split; [done|].
      intros e' He'. apply elem_of_cons in He' as [->|He'].
      * apply entry_ltb_irrefl.
      * apply (entry_le_trans a m e'); [exact Hma|]. by apply Hleast.
  - injection Hpop as <- <-.
    destruct heap as [|b heap]; [|cbn [pop_least] in Hm;
      destruct (pop_least heap) as [[? ?]|]; [destruct (entry_ltb _ b)|];
      discriminate].
    split; [done|]. intros e' He'. apply list_elem_of_singleton in He' as ->.
    apply entry_ltb_irrefl.
Qed.

Lemma unsorted_heap_contract :
  heap_contract (fun _ => True) push_front pop_least.
Proof.
  split; [done|]. split; [|split].
  - intros h e _. by split.
  - intros [|a h] _ Hne; [done|]. cbn [pop_least].
    destruct (pop_least h) as [[m r]|]; [destruct (entry_ltb m a)|]; by eexists.
  - intros h e rest _ Hpop. split; [done|]. by apply pop_least_spec.
Qed.

(** *** The search over a heap that keeps the contract is the search of
    the model *)

Lemma nonempty_Permutation {A} (l1 l2 : list A) :
  l1 ≡ₚ l2 -> nonempty l1 = nonempty l2.
Proof.
  intros Hp. destruct l1, l2; try done.
  - by apply Permutation_nil_cons in Hp.
  - symmetry in Hp. by apply Permutation_nil_cons in Hp.
Qed.

Lemma valid_state_64 n k :
  (Z.of_nat (n * n) <= 2 ^ 63)%Z -> valid_state n k ->
  Forall (fun v => 0 <= v < 2 ^ 64)%Z k.
Proof.
  intros Hn Hv. apply Forall_forall. intros v Hin.
  apply (valid_elem n k v Hv) in Hin. lia.
Qed.

Section Simulation.

Variable heap_inv : list entry -> Prop.
Variable push : list entry -> entry -> list entry.
Variable pop : list entry -> option (entry * list entry).
Hypothesis contract : heap_contract heap_inv push pop.
Variable n : nat.
Hypothesis board_64 : (Z.of_nat (n * n) <= 2 ^ 63)%Z.

Lemma relax_with_sim cur cs gs s k a :
  sim_search heap_inv gs s ->
  sim_result (fun r1 r2 => sim_search heap_inv r1.1 r2.1 /\ r1.2 = r2.2)
    (relax_with push n cur cs (gs, k) a) (relax n cur cs (s, k) a).
Proof.
  intros (Hinv & Hperm & Hcame & Hg). unfold relax_with, relax.
  destruct (do_action n cs a) as [nb|e]; cbn [mbind result_bind]; [|done].
  rewrite Hg. destruct (dict_item (g_score s) cur) as [gc|e];
    cbn [mbind result_bind]; [|done].
  destruct (match g_score s !! tobytes nb with
            | Some g_old => bool_decide (gc + 1 < g_old)
            | None => true
            end).
  - destruct (manhattan_distance n nb) as [h|e]; cbn [mbind result_bind];
      [|done].
    simpl. destruct contract as (_ & Hpush & _).
    destruct (Hpush (open_set gs) ((Z.of_nat (gc + 1) + h)%Z, tobytes nb) Hinv)
      as [Hinv' Hperm'].
    split; [|done]. split; [done|]. split; [|by rewrite Hcame].
    cbn [open_set]. rewrite Hperm', heappush_Permutation. by rewrite Hperm.
  - simpl. done.
Qed.

Lemma for_each_relax_with_sim cur cs l gs s k :
  sim_search heap_inv gs s ->
  sim_result (fun r1 r2 => sim_search heap_inv r1.1 r2.1 /\ r1.2 = r2.2)
    (for_each (relax_with push n cur cs) (gs, k) l)
    (for_each (relax n cur cs) (s, k) l).
Proof.
  revert gs s k. induction l as [|a l IH]; intros gs s k Hsim; [done|].
  rewrite !for_each_cons.
  pose proof (relax_with_sim cur cs gs s k a Hsim) as Hr.
  destruct (relax_with push n cur cs (gs, k) a) as [[gs1 k1]|e1],
           (relax n cur cs (s, k) a) as [[s1 k2]|e2]; try done.
  cbn [sim_result fst snd] in Hr. destruct Hr as [Hsim1 <-].
  cbn [mbind result_bind]. by apply IH.
Qed.

(** The pop of any heap is the head of the sorted list. *)
Lemma pop_agrees root gs s ex e rest :
  sim_search heap_inv gs s -> dir_inv n root s ex ->
  StronglySorted entry_le (open_set s) -> open_set s = e :: rest ->
  exists grest,
    pop (open_set gs) = Some (e, grest) /\ heap_inv grest /\ grest ≡ₚ rest.
Proof.
  intros (Hinv & Hperm & _ & _) Hd Hsorted Hopen.
  destruct contract as (_ & _ & Hsome & Hpop).
  destruct (Hsome (open_set gs) Hinv) as [[e' grest] Hp].
  { intros Hnil. rewrite Hnil, Hopen in Hperm.
    by apply Permutation_nil_cons in Hperm. }
  destruct (Hpop _ _ _ Hinv Hp) as (Hinv' & Hperm' & Hleast).
  assert (forall x, x ∈ open_set s -> Forall (fun v => 0 <= v < 2 ^ 64)%Z x.2)
    as H64.
  { intros x Hx. apply (valid_state_64 n); [done|].
    apply (inv_g_valid _ _ _ _ Hd), (inv_open _ _ _ _ Hd x Hx). }
  assert (e' = e) as ->.
  { assert (e' ∈ open_set s) as Hin'.
    { rewrite <- Hperm, Hperm'. apply list_elem_of_here. }
    assert (e ∈ open_set gs) as Hin.
    { rewrite Hperm, Hopen. apply list_elem_of_here. }
    apply entry_antisym.
    - by apply H64.
    - apply H64. rewrite Hopen. apply list_elem_of_here.
    - rewrite Hopen in Hsorted, Hin'.
      apply elem_of_cons in Hin' as [->|Hin']; [apply entry_ltb_irrefl|].
      apply StronglySorted_inv in Hsorted as [_ Hall].
      rewrite Forall_forall in Hall. by apply Hall.
    - by apply Hleast. }
  exists grest. split; [done|]. split; [done|].
  rewrite Hperm', Hopen in Hperm. by apply Permutation_cons_inv in Hperm.
Qed.

Lemma expand_step_with_sim root gs s ex oex k :
  sim_search heap_inv gs s -> dir_inv n root s ex ->
  StronglySorted entry_le (open_set s) -> nonempty (open_set s) = true ->
  sim_result (sim_step heap_inv)
    (expand_step_with push pop n gs ex oex k) (expand_step n s ex oex k).
Proof.
  intros Hsim Hd Hsorted Hne.
  destruct (open_set s) as [|[f cur] rest] eqn:Hopen; [done|].
  destruct (pop_agrees root gs s ex (f, cur) rest Hsim Hd) as
    (grest & Hp & Hinv' & Hperm'); [by rewrite Hopen|done|].
  destruct Hsim as (_ & _ & Hcame & Hg).
  unfold expand_step_with, expand_step, pop_item. rewrite Hp, Hopen.
  cbn [heappop mbind result_bind].
  destruct (frombuffer n cur) as [cs|e]; cbn [mbind result_bind]; [|done].
  assert (sim_search heap_inv (mkSearch grest (came_from gs) (g_score gs))
            (mkSearch rest (came_from s) (g_score s))) as Hsim0.
  { by repeat split. }
  case_bool_decide; [by repeat split|].
  destruct (available_actions n cs) as [acts|e]; cbn [mbind result_bind]; [|done].
  pose proof (for_each_relax_with_sim cur cs acts _ _ k Hsim0) as Hf.
  destruct (for_each (relax_with push n cur cs) _ acts) as [[gs1 k1]|e1],
           (for_each (relax n cur cs) _ acts) as [[s1 k2]|e2]; try done.
  cbn [sim_result fst snd] in Hf. destruct Hf as [Hsim1 <-].
  cbn [mbind result_bind sim_result sim_step]. done.
Qed.

Lemma iteration_with_sim start gst st :
  valid_state n start -> reachable n start st -> sim_loop heap_inv gst st ->
  sim_result (sim_iteration heap_inv) (iteration_with push pop n gst)
    (iteration n st).
Proof.
  intros Hv Hr (Hsf & Hsb & Hef & Heb & Hk).
  destruct (reachable_inv n start st Hv Hr) as [Hdf Hdb].
  destruct (reachable_lazy n start st Hv Hr) as (Hlf & Hlb & _).
  unfold iteration_with, iteration.
  rewrite (nonempty_Permutation _ _ (proj1 (proj2 Hsf))), Hef, Heb, Hk.
  assert (forall gst1 st1 : loop_state,
            sim_search heap_inv (fwd gst1) (fwd st1) ->
            bwd gst1 = bwd gst -> bwd st1 = bwd st ->
            explored_forward gst1 = explored_forward st1 ->
            explored_backward gst1 = explored_backward st ->
            explored_backward st1 = explored_backward st ->
            nodes_evaluated gst1 = nodes_evaluated st1 ->
            sim_result (sim_iteration heap_inv)
              (if nonempty (open_set (bwd gst1)) then
                 r ← expand_step_with push pop n (bwd gst1)
                       (explored_backward gst1) (explored_forward gst1)
                       (nodes_evaluated gst1);
                 match r with
                 | Meeting m sr eb =>
                     Ok (Break m (mkLoop (fwd gst1) sr (explored_forward gst1)
                                    eb (nodes_evaluated gst1)))
                 | Expanded sr eb k =>
                     Ok (Continue (mkLoop (fwd gst1) sr (explored_forward gst1)
                                     eb k))
                 end
               else Ok (Continue gst1))
              (if nonempty (open_set (bwd st1)) then
                 r ← expand_step n (bwd st1) (explored_backward st1)
                       (explored_forward st1) (nodes_evaluated st1);
                 match r with
                 | Meeting m sr eb =>
                     Ok (Break m (mkLoop (fwd st1) sr (explored_forward st1)
                                    eb (nodes_evaluated st1)))
                 | Expanded sr eb k =>
                     Ok (Continue (mkLoop (fwd st1) sr (explored_forward st1)
                                     eb k))
                 end
               else Ok (Continue st1))) as Hbwd.
  { intros gst1 st1 Hsf1 Hgb Hb Hef1 Hgeb Heb1 Hk1.
    rewrite Hgb, Hb, Hgeb, Heb1, Hef1, Hk1.
    rewrite (nonempty_Permutation _ _ (proj1 (proj2 Hsb))).
    destruct (nonempty (open_set (bwd st))) eqn:Hnb.
    - pose proof (expand_step_with_sim (goal_buffer n) (bwd gst) (bwd st)
                    (explored_backward st) (explored_forward st1)
                    (nodes_evaluated st1) Hsb Hdb (lz_sorted _ _ _ Hlb) Hnb) as He.
      destruct (expand_step_with push pop n (bwd gst) _ _ _) as [r1|e1],
               (expand_step n (bwd st) _ _ _) as [r2|e2]; try done.
      cbn [sim_result] in He. cbn [mbind result_bind].
      destruct r1 as [m1 gs1 ex1|gs1 ex1 k1], r2 as [m2 s1 ex2|s1 ex2 k2];
        try done; cbn [sim_step] in He.
      + destruct He as (-> & Hs1 & ->). cbn [sim_result sim_iteration].
        split; [done|]. split; [exact Hsf1|]. split; [exact Hs1|]. done.
      + destruct He as (Hs1 & -> & ->). cbn [sim_result sim_iteration].
        split; [exact Hsf1|]. split; [exact Hs1|]. done.
    - cbn [sim_result sim_iteration].
      split; [exact Hsf1|]. split; [by rewrite Hgb, Hb|].
      split; [done|]. split; [by rewrite Hgeb, Heb1|done]. }
  destruct (nonempty (open_set (fwd st))) eqn:Hnf.
  - pose proof (expand_step_with_sim start (fwd gst) (fwd st)
                  (explored_forward st) (explored_backward st)
                  (nodes_evaluated st) Hsf Hdf (lz_sorted _ _ _ Hlf) Hnf) as He.
    destruct (expand_step_with push pop n (fwd gst) _ _ _) as [r1|e1],
             (expand_step n (fwd st) _ _ _) as [r2|e2]; try done.
    cbn [sim_result] in He. cbn [mbind result_bind].
    destruct r1 as [m1 gs1 ex1|gs1 ex1 k1], r2 as [m2 s1 ex2|s1 ex2 k2];
      try done; cbn [sim_step] in He.
    + destruct He as (-> & Hs1 & ->). cbn [sim_result sim_iteration].
      split; [done|]. split; [exact Hs1|]. split; [exact Hsb|]. done.
    + destruct He as (Hs1 & -> & ->). by apply Hbwd.
  - cbn [mbind result_bind]. apply Hbwd; try done.
Qed.

Lemma main_loop_with_sim start fuel gst st :
  valid_state n start -> reachable n start st -> sim_loop heap_inv gst st ->
  main_loop_with push pop n fuel gst = main_loop n fuel st.
Proof.
  intros Hv. revert gst st. induction fuel as [|fuel IH]; intros gst st Hr Hsim;
    [done|].
  cbn [main_loop_with main_loop].
  pose proof (iteration_with_sim start gst st Hv Hr Hsim) as Hit.
  destruct Hsim as (Hsf & Hsb & Hef & Heb & Hk).
  rewrite (nonempty_Permutation _ _ (proj1 (proj2 Hsf))).
  rewrite (nonempty_Permutation _ _ (proj1 (proj2 Hsb))).
  destruct (nonempty (open_set (fwd st)) && nonempty (open_set (bwd st))) eqn:Hne.
  - destruct (iteration_with push pop n gst) as [r1|e1],
             (iteration n st) as [r2|e2] eqn:Hit2; try done.
    + destruct r1 as [m1 gst'|gst'], r2 as [m2 st'|st']; try done;
        cbn [sim_result sim_iteration] in Hit.
      * destruct Hit as (-> & (Hsf' & Hsb' & _ & _ & Hk')).
        unfold reconstruct.
        destruct Hsf' as (_ & _ & -> & _), Hsb' as (_ & _ & -> & _).
        by rewrite Hk'.
      * apply IH; [|done]. by eapply reachable_step.
    + cbn [sim_result] in Hit. by subst.
  - unfold reconstruct. by rewrite Hk.
Qed.

Lemma bidirectional_a_star_with_model fuel start :
  valid_state n start ->
  bidirectional_a_star_with push pop n fuel start =
  bidirectional_a_star n fuel start.
Proof.
  intros Hv. assert (0 < n) as Hn by (by destruct Hv).
  unfold bidirectional_a_star_with, bidirectional_a_star.
  destruct contract as (Hnil & Hpush & _).
  destruct (a_star_search_inv n start (goal_buffer n) true Hv)
    as (h1 & Hh1 & Heq1 & _).
  destruct (a_star_search_inv n (goal_buffer n) start false
              (goal_buffer_valid n Hn)) as (h2 & Hh2 & Heq2 & _).
  unfold initial_loop_state_with, initial_loop_state, a_star_search_with.
  rewrite goal_state_Ok by done. cbn [mbind result_bind].
  rewrite Heq1, Hh1. cbn [mbind result_bind]. rewrite Heq2, Hh2.
  cbn [mbind result_bind].
  apply (main_loop_with_sim start); [done| |].
  - apply reachable_init. unfold initial_loop_state.
    rewrite goal_state_Ok by done. cbn [mbind result_bind].
    rewrite Heq1. cbn [mbind result_bind]. by rewrite Heq2.
  - destruct (Hpush [] (h1, tobytes start) Hnil) as [Hi1 Hp1].
    destruct (Hpush [] (h2, tobytes (goal_buffer n)) Hnil) as [Hi2 Hp2].
    by repeat split.
Qed.

End Simulation.

(** C9. Two runs on start states of the same dimension that agree cell by
    cell return the same result, the same path element for element and
    the same [nodes_evaluated], whatever the two heaps do with the order
    of their items: the runs are taken over any two heaps that keep the
    contract of [heapq] (a pop returns an entry that no entry of the heap
    is smaller than), and both equal the run over the sorted list.  The
    reason is that two entries of a frontier never tie: they compare by
    priority and then by the bytes of the key, and the states are valid
    states in arrays of 64-bit elements, so a least entry is the only one.
    The dictionaries and sets are read by key only, never iterated.  The
    moves of a state are always listed in the one order up, down, left,
    right. *)
Theorem bidirectional_a_star_deterministic
    (inv1 inv2 : list entry -> Prop)
    (push1 push2 : list entry -> entry -> list entry)
    (pop1 pop2 : list entry -> option (entry * list entry))
    (n fuel : nat) (s1 s2 : ndarray) :
  heap_contract inv1 push1 pop1 -> heap_contract inv2 push2 pop2 ->
  (Z.of_nat (n * n) <= 2 ^ 63)%Z ->
  valid_state n s1 -> length s2 = n * n ->
  (forall x y, x < n -> y < n -> getitem n s1 (x, y) = getitem n s2 (x, y)) ->
  bidirectional_a_star_with push1 pop1 n fuel s1 =
    bidirectional_a_star_with push2 pop2 n fuel s2 /\
  bidirectional_a_star_with push1 pop1 n fuel s1 =
    bidirectional_a_star n fuel s1 /\
  (forall s acts, available_actions n s = Ok acts ->
     exists x y,
       acts `sublist_of`
         [mkAction (x, y) (x - 1, y); mkAction (x, y) (x + 1, y);
          mkAction (x, y) (x, y - 1); mkAction (x, y) (x, y + 1)]).
Proof.
  intros Hc1 Hc2 H64 Hv H2 Hcells.
  pose proof (valid_length n s1 Hv) as H1.
  rewrite <- (elementwise_eq n s1 s2 H1 H2 Hcells).
  rewrite (bidirectional_a_star_with_model inv1 push1 pop1 Hc1 n H64 fuel s1 Hv).
  rewrite (bidirectional_a_star_with_model inv2 push2 pop2 Hc2 n H64 fuel s1 Hv).
  split; [done|]. split; [done|].
  intros s acts Hacts. unfold available_actions in Hacts.
  apply bind_Ok in Hacts as ([x y] & _ & Hacts). exists x, y.
  injection Hacts as <-.
  repeat case_bool_decide; simpl;
    repeat first [ apply sublist_nil_l | apply sublist_skip | apply sublist_cons ].
Qed.

Lemma bidirectional_a_star_deterministic_witness :
  bidirectional_a_star_with heappush sorted_pop 3 1000 scenario =
    bidirectional_a_star_with push_front pop_least 3 1000 scenario /\
  bidirectional_a_star_with heappush sorted_pop 3 1000 scenario =
    bidirectional_a_star 3 1000 scenario /\
  (forall s acts, available_actions 3 s = Ok acts ->
     exists x y,
       acts `sublist_of`
         [mkAction (x, y) (x - 1, y); mkAction (x, y) (x + 1, y);
          mkAction (x, y) (x, y - 1); mkAction (x, y) (x, y + 1)]).
Proof.
  apply (bidirectional_a_star_deterministic
           (StronglySorted entry_le) (fun _ => True)
           heappush push_front sorted_pop pop_least 3 1000 scenario scenario).
  - exact sorted_heap_contract.
  - exact unsorted_heap_contract.
  - vm_compute. discriminate.
  - decide_valid.
  - reflexivity.
  - intros x y _ _. reflexivity.
Defined.

(** * More of the notebook *)

(** ** The moves of a state *)

Lemma moves_at_length n x y :
  2 <= n -> x < n -> y < n ->
  2 <= length (moves_at n x y) <= 4.
Proof.
  intros Hn Hx Hy. unfold moves_at. rewrite !length_app.
  repeat case_bool_decide; simpl; lia.
Qed.

Lemma moves_at_NoDup n x y : NoDup (moves_at n x y).
Proof.
  unfold moves_at.
  repeat case_bool_decide; simpl; apply NoDup_ListNoDup;
    repeat constructor; simpl; intros H';
    repeat (destruct H' as [H'|H']; [injection H' as ?; lia|]); done.
Qed.

(** X1. On a valid state of a board of dimension at least 2,
    [available_actions] returns between two and four moves, no move twice;
    each one starts at the blank's cell and ends at a cell of the board
    next to it in its row or column. *)
Theorem available_actions_shape (n : nat) (s : ndarray) :
  2 <= n -> valid_state n s ->
  exists acts b,
    available_actions n s = Ok acts /\
    s !! b = Some 0%Z /\
    2 <= length acts <= 4 /\ NoDup acts /\
    forall a, a ∈ acts ->
      pos1 a = (b / n, b mod n) /\
      (pos2 a).1 < n /\ (pos2 a).2 < n /\ adjacent (pos1 a) (pos2 a).
Proof.
  intros Hn Hv.
  destruct (valid_blank n s Hv) as (b & Hbl & Hb & Hz & _).
  destruct (coords_lt n b Hbl) as [Hx Hy].
  exists (moves_at n (b / n) (b mod n)), b.
  split; [by apply available_actions_moves|]. split; [done|].
  split; [by apply moves_at_length|]. split; [apply moves_at_NoDup|].
  intros a Ha. apply elem_of_moves_at in Ha as (q & -> & Hq1 & Hq2 & Hadj);
    [|done..].
  simpl. done.
Qed.

Lemma available_actions_shape_witness :
  exists acts b,
    available_actions 3 [0;3;1;6;7;5;4;8;2]%Z = Ok acts /\
    [0;3;1;6;7;5;4;8;2]%Z !! b = Some 0%Z /\
    2 <= length acts <= 4 /\ NoDup acts /\
    forall a, a ∈ acts ->
      pos1 a = (b / 3, b mod 3) /\
      (pos2 a).1 < 3 /\ (pos2 a).2 < 3 /\ adjacent (pos1 a) (pos2 a).
Proof.
  apply (available_actions_shape 3 [0;3;1;6;7;5;4;8;2]%Z); [lia|decide_valid].
Defined.

(** X2. [available_actions] raises [IndexError] on an array without a
    blank: [np.argwhere(state == 0)] is empty and its element 0 is read. *)
Theorem available_actions_no_blank (n : nat) (s : ndarray) :
  (forall v, v ∈ s -> v <> 0%Z) ->
  available_actions n s = Raise IndexError.
Proof.
  intros Hnz. unfold available_actions, argwhere_zero.
  destruct (list_find (fun v => v = 0%Z) s) as [[i v]|] eqn:Hf; [|done].
  apply list_find_Some in Hf as (Hi & -> & _).
  exfalso. eapply Hnz; [|done]. by eapply list_elem_of_lookup_2.
Qed.

Lemma available_actions_no_blank_witness :
  available_actions 2 [1;2;3;4]%Z = Raise IndexError.
Proof.
  apply (available_actions_no_blank 2 [1;2;3;4]%Z).
  intros v Hv. apply (bool_decide_unpack _).
  revert v Hv. apply Forall_forall. vm_compute. repeat constructor.
Defined.

(** ** Exchanging two cells *)

Lemma swap_decompose (l : list Z) i j a b :
  i < j -> l !! i = Some a -> l !! j = Some b ->
  exists l1 m l2,
    l = l1 ++ a :: m ++ b :: l2 /\ length l1 = i /\ length m = j - i - 1 /\
    <[j := a]> (<[i := b]> l) = l1 ++ b :: m ++ a :: l2.
Proof.
  intros Hij Hi Hj.
  pose proof (lookup_lt_Some _ _ _ Hi) as Hil.
  pose proof (lookup_lt_Some _ _ _ Hj) as Hjl.
  set (rest := drop (S i) l).
  assert (rest !! (j - i - 1) = Some b) as Hr.
  { unfold rest. rewrite lookup_drop. rewrite <- Hj. f_equal. lia. }
  exists (take i l), (take (j - i - 1) rest), (drop (S (j - i - 1)) rest).
  assert (l = take i l ++ a :: take (j - i - 1) rest ++ b :: drop (S (j - i - 1)) rest)
    as Hl.
  { rewrite (take_drop_middle rest _ b Hr). unfold rest.
    by rewrite (take_drop_middle l i a Hi). }
  assert (length (take i l) = i) as Hl1 by (rewrite length_take; lia).
  assert (length (take (j - i - 1) rest) = j - i - 1) as Hlm.
  { rewrite length_take. apply lookup_lt_Some in Hr. lia. }
  split; [done|]. split; [done|]. split; [done|].
  rewrite Hl at 1.
  replace i with (length (take i l) + 0) at 1 by lia.
  rewrite insert_app_r. simpl.
  replace j with (length (take i l) + S (length (take (j - i - 1) rest) + 0)) at 1
    by lia.
  rewrite insert_app_r. simpl. rewrite insert_app_r. done.
Qed.

Lemma swap_Permutation (l : list Z) i j a b :
  l !! i = Some a -> l !! j = Some b -> <[j := a]> (<[i := b]> l) ≡ₚ l.
Proof.
  intros Hi Hj. destruct (Nat.lt_total i j) as [Hlt | [-> | Hlt]].
  - destruct (swap_decompose l i j a b Hlt Hi Hj) as (l1 & m & l2 & Hl & _ & _ & ->).
    rewrite Hl. apply Permutation_app_head.
    rewrite !(Permutation_middle). apply Permutation_app_head.
    apply perm_swap.
  - assert (a = b) as -> by congruence.
    rewrite list_insert_insert_eq. by rewrite list_insert_id.
  - rewrite list_insert_insert_ne by lia.
    destruct (swap_decompose l j i b a Hlt Hj Hi) as (l1 & m & l2 & Hl & _ & _ & ->).
    rewrite Hl. apply Permutation_app_head.
    rewrite !(Permutation_middle). apply Permutation_app_head.
    apply perm_swap.
Qed.

Lemma do_action_Ok n s a s' :
  do_action n s a = Ok s' <->
  exists v1 v2,
    getitem n s (pos1 a) = Ok v1 /\ getitem n s (pos2 a) = Ok v2 /\
    s' = <[(pos2 a).1 * n + (pos2 a).2 := v1]>
           (<[(pos1 a).1 * n + (pos1 a).2 := v2]> s).
Proof.
  destruct a as [[x1 y1] [x2 y2]]. unfold do_action. simpl. split.
  - intros H. apply bind_Ok in H as (v2 & H2 & H).
    apply bind_Ok in H as (v1 & H1 & H). injection H as <-. eauto.
  - intros (v1 & v2 & H1 & H2 & ->). rewrite H2. simpl. rewrite H1. done.
Qed.

Lemma getitem_off_board n s x y :
  ~ (x < n /\ y < n) -> getitem n s (x, y) = Raise IndexError.
Proof. intros H. unfold getitem. by rewrite bool_decide_false. Qed.

(** X3. For positions with natural numbers as coordinates, [do_action]
    raises [IndexError] exactly when a position of the action lies outside
    the board; on an array of the board's shape every action with both
    positions on the board succeeds. *)
Theorem do_action_bounds (n : nat) (s : ndarray) (a : Action) :
  length s = n * n ->
  let on_board (p : nat * nat) := p.1 < n /\ p.2 < n in
  (on_board (pos1 a) /\ on_board (pos2 a) ->
     exists s', do_action n s a = Ok s' /\ length s' = n * n) /\
  (~ (on_board (pos1 a) /\ on_board (pos2 a)) ->
     do_action n s a = Raise IndexError).
Proof.
  intros Hlen on_board. destruct a as [[x1 y1] [x2 y2]]. unfold on_board.
  simpl. split.
  - intros [[Hx1 Hy1] [Hx2 Hy2]].
    destruct (getitem_valid n s x1 y1 Hlen Hx1 Hy1) as [v1 H1].
    destruct (getitem_valid n s x2 y2 Hlen Hx2 Hy2) as [v2 H2].
    eexists. split.
    + apply do_action_Ok. exists v1, v2. simpl. eauto.
    + by rewrite !length_insert.
  - intros Hout. unfold do_action. cbn [pos1 pos2].
    destruct (decide (x2 < n /\ y2 < n)) as [H2|H2].
    + destruct (getitem_valid n s x2 y2 Hlen) as [v2 ->]; [tauto..|].
      cbn [mbind result_bind].
      rewrite getitem_off_board; [reflexivity|]. intros H1. by apply Hout.
    + rewrite (getitem_off_board n s x2 y2 H2). reflexivity.
Qed.

Lemma do_action_bounds_witness :
  do_action 3 [0;3;1;6;7;5;4;8;2]%Z (mkAction (0, 0) (0, 3)) = Raise IndexError.
Proof.
  apply (do_action_bounds 3 [0;3;1;6;7;5;4;8;2]%Z (mkAction (0, 0) (0, 3)));
    [reflexivity | simpl; lia].
Defined.

(** X4. [do_action] undoes itself: applying the same action to its result
    gives back the array it started from; and the order of the two
    positions of an action does not matter. *)
Theorem do_action_involutive (n : nat) (s s' : ndarray) (a : Action) :
  do_action n s a = Ok s' ->
  do_action n s' a = Ok s /\
  do_action n s (mkAction (pos2 a) (pos1 a)) = Ok s'.
Proof.
  intros Hdo. apply do_action_Ok in Hdo as (v1 & v2 & H1 & H2 & ->).
  destruct a as [[x1 y1] [x2 y2]]. cbn [pos1 pos2 fst snd] in *.
  pose proof H1 as H1'. pose proof H2 as H2'.
  apply getitem_Ok in H1' as (Hx1 & Hy1 & Hi).
  apply getitem_Ok in H2' as (Hx2 & Hy2 & Hj).
  pose proof (lookup_lt_Some _ _ _ Hi) as Hil.
  pose proof (lookup_lt_Some _ _ _ Hj) as Hjl.
  destruct (decide (x1 * n + y1 = x2 * n + y2)) as [Heq|Hne].
  - destruct (index_inj n x1 y1 x2 y2 Hy1 Hy2 Heq) as [-> ->].
    assert (v1 = v2) as -> by congruence.
    rewrite list_insert_insert_eq, (list_insert_id s _ v2) by done.
    split; apply do_action_Ok; exists v2, v2; cbn [pos1 pos2 fst snd];
      rewrite list_insert_insert_eq, (list_insert_id s _ v2) by done; done.
  - split; apply do_action_Ok.
    + exists v2, v1. cbn [pos1 pos2 fst snd]. split; [|split].
      * apply getitem_Ok. split; [done|]. split; [done|].
        rewrite swap_lookup by done.
        rewrite decide_False by done. by rewrite decide_True.
      * apply getitem_Ok. split; [done|]. split; [done|].
        rewrite swap_lookup by done. by rewrite decide_True.
      * apply list_eq. intros k. rewrite swap_lookup;
          [|by rewrite !length_insert..|done].
        rewrite swap_lookup by done. repeat case_decide; subst; congruence.
    + exists v2, v1. cbn [pos1 pos2 fst snd]. split; [done|].
      split; [done|]. by apply list_insert_insert_ne.
Qed.

Lemma do_action_involutive_witness :
  do_action 3 [3;0;1;6;7;5;4;8;2]%Z (mkAction (0, 0) (0, 1)) =
    Ok [0;3;1;6;7;5;4;8;2]%Z /\
  do_action 3 [0;3;1;6;7;5;4;8;2]%Z (mkAction (0, 1) (0, 0)) =
    Ok [3;0;1;6;7;5;4;8;2]%Z.
Proof.
  apply (do_action_involutive 3 [0;3;1;6;7;5;4;8;2]%Z [3;0;1;6;7;5;4;8;2]%Z
           (mkAction (0, 0) (0, 1))).
  reflexivity.
Defined.

(** X5. Whatever the array and the action, a successful [do_action] only
    rearranges the cells: the result is a permutation of the input, of the
    same length. *)
Theorem do_action_Permutation (n : nat) (s s' : ndarray) (a : Action) :
  do_action n s a = Ok s' -> s' ≡ₚ s /\ length s' = length s.
Proof.
  intros Hdo. apply do_action_Ok in Hdo as (v1 & v2 & H1 & H2 & ->).
  destruct a as [[x1 y1] [x2 y2]]. simpl in *.
  apply getitem_Ok in H1 as (_ & _ & H1).
  apply getitem_Ok in H2 as (_ & _ & H2).
  split; [by apply swap_Permutation | by rewrite !length_insert].
Qed.

Lemma do_action_Permutation_witness :
  [3;3;1;1]%Z ≡ₚ [3;1;3;1]%Z /\ length [3;3;1;1]%Z = length [3;1;3;1]%Z.
Proof.
  apply (do_action_Permutation 2 [3;1;3;1]%Z [3;3;1;1]%Z (mkAction (0, 1) (1, 0))).
  reflexivity.
Defined.

(** ** The heuristic along a move *)

Lemma Zsum_Permutation l1 l2 : l1 ≡ₚ l2 -> Zsum l1 = Zsum l2.
Proof. induction 1; simpl; lia. Qed.

Lemma Zsum_diff {A} (f g : A -> Z) l :
  Zsum (f <$> l) = (Zsum (g <$> l) + Zsum ((fun c => f c - g c) <$> l))%Z.
Proof. induction l as [|c l IH]; csimpl; lia. Qed.

Lemma Zsum_all_zero {A} (f : A -> Z) l :
  (forall c, c ∈ l -> f c = 0%Z) -> Zsum (f <$> l) = 0%Z.
Proof.
  induction l as [|c l IH]; intros Hz; csimpl; [done|].
  rewrite (Hz c) by apply list_elem_of_here. rewrite IH; [done|].
  intros c' Hc'. apply Hz. by apply list_elem_of_further.
Qed.

Lemma Zsum_two_points {A} (f : A -> Z) l a b :
  NoDup l -> a ∈ l -> b ∈ l -> a <> b ->
  (forall c, c ∈ l -> c <> a -> c <> b -> f c = 0%Z) ->
  Zsum (f <$> l) = (f a + f b)%Z.
Proof.
  intros Hnd Ha Hb Hab Hz.
  apply elem_of_Permutation in Ha as [k Hk].
  assert (b ∈ k) as Hbk.
  { rewrite Hk in Hb. apply elem_of_cons in Hb as [->|Hb]; done. }
  apply elem_of_Permutation in Hbk as [k' Hk'].
  assert (l ≡ₚ a :: b :: k') as Hl by (by rewrite Hk, Hk').
  rewrite (Zsum_Permutation _ _ (fmap_Permutation f _ _ Hl)). csimpl.
  rewrite Hl in Hnd. apply NoDup_cons in Hnd as [Ha' Hnd].
  apply NoDup_cons in Hnd as [Hb' _].
  rewrite Zsum_all_zero; [lia|]. intros c Hc. apply Hz.
  - rewrite Hl. by do 2 apply list_elem_of_further.
  - intros ->. apply Ha'. by apply list_elem_of_further.
  - intros ->. done.
Qed.

Lemma NoDup_cells n : NoDup (cells n).
Proof.
  unfold cells. apply NoDup_bind.
  - intros x1 x2 [x y] _ _ H1 H2.
    apply list_elem_of_bind in H1 as (y1 & H1 & _).
    apply list_elem_of_bind in H2 as (y2 & H2 & _).
    apply list_elem_of_singleton in H1, H2. congruence.
  - intros x _. apply NoDup_bind.
    + intros y1 y2 c _ _ H1 H2. apply list_elem_of_singleton in H1, H2. congruence.
    + intros y _. apply NoDup_singleton.
    + apply NoDup_seq.
  - apply NoDup_seq.
Qed.

Lemma cell_cost_lookup n s x y v :
  x < n -> y < n -> s !! (x * n + y) = Some v ->
  cell_cost n s (x, y) =
  if bool_decide (v ≠ 0%Z) then
    (Z.abs (Z.of_nat x - (v - 1) `div` Z.of_nat n) +
     Z.abs (Z.of_nat y - (v - 1) `mod` Z.of_nat n))%Z
  else 0%Z.
Proof.
  intros Hx Hy Hv. unfold cell_cost.
  by rewrite (proj2 (getitem_Ok n s x y v)) by done.
Qed.

(** The heuristic along a legal move, with the two distances named. *)
Lemma manhattan_distance_move n s s' :
  valid_state n s -> legal_move n s s' ->
  exists h h', manhattan_distance n s = Ok h /\ manhattan_distance n s' = Ok h' /\
               (h' = h + 1 \/ h' = h - 1)%Z.
Proof.
  intros Hv Hm. pose proof (legal_move_valid n s s' Hv Hm) as Hv'.
  assert (0 < n) as Hn by (by destruct Hv).
  pose proof (valid_length n s Hv) as Hlen.
  destruct Hm as (acts & a & Hacts & Ha & Hdo).
  destruct (valid_blank n s Hv) as (i & Hil & Hi & Hz & _).
  rewrite (available_actions_moves _ _ _ _ Hz) in Hacts. injection Hacts as <-.
  destruct (move_spec n s i a Hv Hi Ha)
    as (t & v & -> & Hadj & Htl & Hne & Ht & Hv0 & Hdo').
  rewrite Hdo' in Hdo. injection Hdo as <-.
  set (s' := <[t := 0%Z]> (<[i := v]> s)) in *.
  rewrite !manhattan_distance_total by (by apply valid_length).
  eexists _, _. split; [reflexivity|]. split; [reflexivity|].
  rewrite (Zsum_diff (cell_cost n s') (cell_cost n s)).
  destruct (coords_lt n i Hil) as [Hxi Hyi].
  destruct (coords_lt n t Htl) as [Hxt Hyt].
  assert (i < length s) as Hil' by lia.
  assert (t < length s) as Htl' by lia.
  rewrite (Zsum_two_points (fun c => cell_cost n s' c - cell_cost n s c)%Z
             (cells n) (i / n, i mod n) (t / n, t mod n)).
  - cbv beta.
    rewrite (cell_cost_lookup n s' (i / n) (i mod n) v),
      (cell_cost_lookup n s (i / n) (i mod n) 0%Z),
      (cell_cost_lookup n s' (t / n) (t mod n) 0%Z),
      (cell_cost_lookup n s (t / n) (t mod n) v);
      try done; rewrite ?coords_index; try done.
    + rewrite bool_decide_true by done. rewrite bool_decide_false by lia.
      unfold adjacent in Hadj. simpl in Hadj. lia.
    + unfold s'. rewrite swap_lookup by done. by rewrite decide_True.
    + unfold s'. rewrite swap_lookup by done.
      rewrite decide_False by done. by rewrite decide_True.
  - apply NoDup_cells.
  - by apply elem_of_cells.
  - by apply elem_of_cells.
  - intros Heq. apply adjacent_ne in Hadj. done.
  - intros [x y] Hc Hci Hct. apply elem_of_cells in Hc as [Hx Hy].
    assert (x * n + y <> i) as Hni.
    { intros <-. apply Hci. destruct (index_coords n x y Hy) as [-> ->]. done. }
    assert (x * n + y <> t) as Hnt.
    { intros <-. apply Hct. destruct (index_coords n x y Hy) as [-> ->]. done. }
    destruct (lookup_lt_is_Some_2 s (x * n + y)) as [w Hw].
    { rewrite Hlen. by apply index_lt. }
    cbv beta.
    rewrite (cell_cost_lookup n s' x y w), (cell_cost_lookup n s x y w); try done.
    + lia.
    + unfold s'. rewrite swap_lookup by done. by rewrite !decide_False by done.
Qed.

Lemma manhattan_distance_goal n :
  0 < n -> manhattan_distance n (goal_buffer n) = Ok 0%Z.
Proof.
  intros Hn. rewrite manhattan_distance_total by (by apply goal_buffer_length).
  f_equal. apply Zsum_zero; [apply cell_cost_nonneg|].
  intros [x y] Hc. apply elem_of_cells in Hc as [Hx Hy].
  pose proof (index_lt n x y Hx Hy) as Hil.
  eapply cell_cost_zero; try done.
  - by apply goal_buffer_lookup.
  - case_bool_decide; auto.
Qed.

Lemma manhattan_distance_nonneg n s h :
  manhattan_distance n s = Ok h -> (0 <= h)%Z.
Proof.
  unfold manhattan_distance. generalize (cells n). intros l.
  assert (forall d h, (0 <= d)%Z ->
            for_each (manhattan_cell n s) d l = Ok h -> (0 <= h)%Z) as Hgen.
  { induction l as [|c l IH]; intros d h' Hd Hf.
    - injection Hf as <-. done.
    - rewrite for_each_cons in Hf. apply bind_Ok in Hf as (d' & Hc & Hf).
      apply (IH d' h'); [|done].
      unfold manhattan_cell in Hc. destruct c as [x y].
      apply bind_Ok in Hc as (v & _ & Hc).
      case_bool_decide; injection Hc as <-; lia. }
  by apply Hgen.
Qed.

(** X6. The heuristic is consistent: on a valid state it never raises, it
    is not negative, and one legal move changes it by exactly one. *)
Theorem manhattan_distance_consistent (n : nat) (s s' : ndarray) :
  valid_state n s -> legal_move n s s' ->
  exists h h',
    manhattan_distance n s = Ok h /\ manhattan_distance n s' = Ok h' /\
    (0 <= h)%Z /\ (0 <= h')%Z /\ Z.abs (h' - h) = 1%Z.
Proof.
  intros Hv Hm.
  destruct (manhattan_distance_move n s s' Hv Hm) as (h & h' & Hh & Hh' & Hd).
  exists h, h'. split; [done|]. split; [done|].
  pose proof (manhattan_distance_nonneg n s h Hh).
  pose proof (manhattan_distance_nonneg n s' h' Hh'). lia.
Qed.

Lemma legal_move_goal3 :
  legal_move 3 [1;2;3;4;5;6;7;8;0]%Z [1;2;3;4;5;0;7;8;6]%Z.
Proof.
  exists (moves_at 3 2 2), (mkAction (2, 2) (1, 2)).
  split; [reflexivity|]. split; [|reflexivity].
  apply (bool_decide_unpack _). vm_compute. exact I.
Qed.

Lemma manhattan_distance_consistent_witness :
  exists h h',
    manhattan_distance 3 [1;2;3;4;5;6;7;8;0]%Z = Ok h /\
    manhattan_distance 3 [1;2;3;4;5;0;7;8;6]%Z = Ok h' /\
    (0 <= h)%Z /\ (0 <= h')%Z /\ Z.abs (h' - h) = 1%Z.
Proof.
  apply (manhattan_distance_consistent 3 [1;2;3;4;5;6;7;8;0]%Z
           [1;2;3;4;5;0;7;8;6]%Z); [decide_valid | exact legal_move_goal3].
Defined.

Lemma nsteps_legal_valid n k s s' :
  valid_state n s -> nsteps (legal_move n) k s s' -> valid_state n s'.
Proof.
  intros Hv Hk. induction Hk as [|k x y z Hxy _ IH]; [done|].
  apply IH. by eapply legal_move_valid.
Qed.

Lemma manhattan_distance_admissible_aux n k s :
  valid_state n s -> nsteps (legal_move n) k s (goal_buffer n) ->
  exists h, manhattan_distance n s = Ok h /\ (0 <= h <= Z.of_nat k)%Z.
Proof.
  intros Hv Hk. assert (0 < n) as Hn by (by destruct Hv).
  remember (goal_buffer n) as g eqn:Hg.
  induction Hk as [x|k x y z Hxy Hyz IH]; subst.
  - exists 0%Z. split; [by apply manhattan_distance_goal|lia].
  - destruct (manhattan_distance_move n x y Hv Hxy) as (h & h' & Hh & Hh' & Hd).
    destruct IH as (h2 & Hh2 & Hle); [by eapply legal_move_valid|done|].
    assert (h2 = h') as -> by congruence.
    exists h. split; [done|].
    pose proof (manhattan_distance_nonneg n x h Hh). lia.
Qed.

(** X7. The heuristic is admissible: when [k] legal moves lead from a
    valid state to the goal state, [manhattan_distance] of the state is at
    most [k]. *)
Theorem manhattan_distance_admissible (n k : nat) (s : ndarray) :
  valid_state n s -> nsteps (legal_move n) k s (goal_buffer n) ->
  exists h, manhattan_distance n s = Ok h /\ (0 <= h <= Z.of_nat k)%Z.
Proof. apply manhattan_distance_admissible_aux. Qed.

Lemma manhattan_distance_admissible_witness :
  exists h, manhattan_distance 3 [1;2;3;4;5;0;7;8;6]%Z = Ok h /\
            (0 <= h <= Z.of_nat 1)%Z.
Proof.
  apply (manhattan_distance_admissible 3 1 [1;2;3;4;5;0;7;8;6]%Z);
    [decide_valid|].
  apply nsteps_once. apply legal_move_sym; [decide_valid|].
  exact legal_move_goal3.
Defined.

Lemma linked_nsteps n l a z :
  linked (legal_move n) (a :: l) -> last (a :: l) = Some z ->
  nsteps (legal_move n) (length l) a z.
Proof.
  revert a. induction l as [|b l IH]; intros a Hl Hlast.
  - injection Hlast as <-. constructor.
  - apply linked_cons in Hl as [Hab Hl]. simpl.
    eapply nsteps_l; [by apply Hab|]. by apply IH.
Qed.

(** X8. The number of moves of a returned path is never below the
    heuristic of the start state. *)
Theorem path_quality_lower_bound (n fuel : nat) (start : ndarray)
    (path : list key) (nodes : nat) :
  valid_state n start ->
  bidirectional_a_star n fuel start = Returned (Some path) nodes ->
  exists h, manhattan_distance n start = Ok h /\
            (h <= Z.of_nat (length path - 1))%Z.
Proof.
  intros Hv Hrun. unfold bidirectional_a_star in Hrun.
  destruct (initial_loop_state_inv n start Hv) as (st & Hst & Hinv & _).
  rewrite Hst in Hrun.
  destruct (main_loop_path n start fuel st path nodes Hinv Hrun)
    as (Hhd & Hlast & Hlink).
  destruct path as [|a l]; [discriminate|]. injection Hhd as ->.
  pose proof (linked_nsteps n l start _ Hlink Hlast) as Hk.
  destruct (manhattan_distance_admissible_aux n _ start Hv Hk) as (h & Hh & Hle).
  exists h. split; [done|]. simpl. lia.
Qed.

Lemma path_quality_lower_bound_witness :
  exists h, manhattan_distance 3 [1;2;3;4;0;6;7;5;8]%Z = Ok h /\
            (h <= Z.of_nat (length [[1;2;3;4;0;6;7;5;8]; [1;2;3;4;5;6;7;0;8];
                                    [1;2;3;4;5;6;7;8;0]]%Z - 1))%Z.
Proof.
  apply (path_quality_lower_bound 3 20 [1;2;3;4;0;6;7;5;8]%Z _ 10);
    [decide_valid | vm_compute; reflexivity].
Defined.

(** ** Counting inversions *)

Lemma inversion_pair_nth flat i j a b :
  flat !! i = Some a -> flat !! j = Some b ->
  inversion_pair flat i j = inv_pair a b.
Proof.
  intros Hi Hj. unfold inversion_pair, inv_pair.
  by rewrite (nth_lookup_Some _ _ _ _ Hi), (nth_lookup_Some _ _ _ _ Hj).
Qed.

Lemma count_inner flat i a m j0 acc :
  flat !! i = Some a -> j0 + m = length flat ->
  foldl (fun inversions j =>
           if inversion_pair flat i j then inversions + 1 else inversions)
        acc (seq j0 m) =
  acc + inv_after a (drop j0 flat).
Proof.
  intros Hi. revert j0 acc. induction m as [|m IH]; intros j0 acc Hlen.
  - simpl. rewrite drop_ge by lia. simpl. lia.
  - destruct (lookup_lt_is_Some_2 flat j0) as [b Hb]; [lia|].
    rewrite (drop_S _ _ _ Hb). cbn [seq foldl inv_after].
    rewrite (inversion_pair_nth flat i j0 a b Hi Hb).
    rewrite IH by lia. destruct (inv_pair a b); lia.
Qed.

Lemma count_outer flat m i0 acc :
  i0 + m = length flat ->
  foldl (fun inversions i =>
    foldl (fun inversions j =>
      if inversion_pair flat i j then inversions + 1 else inversions)
      inversions (seq (i + 1) (length flat - (i + 1))))
    acc (seq i0 m) =
  acc + inversions (drop i0 flat).
Proof.
  revert i0 acc. induction m as [|m IH]; intros i0 acc Hlen.
  - simpl. rewrite drop_ge by lia. simpl. lia.
  - destruct (lookup_lt_is_Some_2 flat i0) as [a Ha]; [lia|].
    rewrite (drop_S _ _ _ Ha). cbn [seq foldl inversions].
    rewrite (count_inner flat i0 a _ _ _ Ha) by lia.
    rewrite IH by lia. replace (i0 + 1) with (S i0) by lia. lia.
Qed.

(** The two nested loops count the inversions of the list. *)
Lemma count_inversions_inversions flat :
  count_inversions flat = inversions flat.
Proof.
  unfold count_inversions. rewrite count_outer by lia. done.
Qed.

Lemma inv_pair_zero_l b : inv_pair 0 b = false.
Proof. done. Qed.

Lemma inv_pair_zero_r a : inv_pair a 0 = false.
Proof. unfold inv_pair. by rewrite andb_false_r. Qed.

Lemma inv_after_app a l1 l2 :
  inv_after a (l1 ++ l2) = inv_after a l1 + inv_after a l2.
Proof. induction l1 as [|b l1 IH]; simpl; lia. Qed.

Lemma inv_after_zero l : inv_after 0 l = 0.
Proof. induction l as [|b l IH]; simpl; [done|]. by rewrite IH. Qed.

Lemma cross_app_l l1 l1' l2 :
  cross (l1 ++ l1') l2 = cross l1 l2 + cross l1' l2.
Proof. induction l1 as [|a l1 IH]; simpl; lia. Qed.

Lemma cross_app_r l1 l2 l2' :
  cross l1 (l2 ++ l2') = cross l1 l2 + cross l1 l2'.
Proof.
  induction l1 as [|a l1 IH]; simpl; [done|]. rewrite inv_after_app. lia.
Qed.

Lemma inversions_app l1 l2 :
  inversions (l1 ++ l2) = inversions l1 + cross l1 l2 + inversions l2.
Proof.
  induction l1 as [|a l1 IH]; simpl; [done|]. rewrite inv_after_app. lia.
Qed.

(** A tile [v] and a run [m] of other tiles: every element of [m] forms an
    inversion with [v] on exactly one of the two sides. *)
Lemma inv_after_cross v m :
  v <> 0%Z -> Forall (fun b => b <> 0%Z /\ b <> v) m ->
  inv_after v m + cross m [v] = length m.
Proof.
  intros Hv Hm. induction Hm as [|b m [Hb0 Hbv] _ IH]; [done|].
  simpl. unfold inv_pair.
  repeat case_bool_decide; simpl; lia.
Qed.

(** Moving a tile across a run of [length m] other tiles changes the
    number of inversions by a number of the parity of [length m]. *)
Lemma inversions_jump l1 v m l2 :
  v <> 0%Z -> Forall (fun b => b <> 0%Z /\ b <> v) m ->
  exists c,
    inversions (l1 ++ v :: m ++ l2) + inversions (l1 ++ m ++ v :: l2) =
    2 * c + length m.
Proof.
  intros Hv Hm. pose proof (inv_after_cross v m Hv Hm) as Hc.
  change (v :: m ++ l2) with ([v] ++ m ++ l2).
  change (v :: l2) with ([v] ++ l2).
  rewrite !inversions_app, !cross_app_r. simpl.
  exists (inversions l1 + cross l1 [v] + cross l1 m + cross l1 l2 +
          inv_after v l2 + cross m l2 + inversions m + inversions l2).
  lia.
Qed.

Lemma cross_zero l : cross l [0%Z] = 0.
Proof.
  induction l as [|a l IH]; simpl; [done|].
  by rewrite inv_pair_zero_r, IH.
Qed.

(** The blank takes part in no inversion. *)
Lemma inversions_skip_zero l1 l2 :
  inversions (l1 ++ 0%Z :: l2) = inversions (l1 ++ l2).
Proof.
  change (0%Z :: l2) with ([0%Z] ++ l2).
  rewrite !inversions_app, cross_app_r, cross_zero. simpl.
  rewrite inv_after_zero. lia.
Qed.

(** A legal move out of a valid state, as an exchange of two indices. *)
Lemma legal_move_swap n s s' :
  valid_state n s -> legal_move n s s' ->
  exists i t v,
    i < n * n /\ t < n * n /\ t <> i /\
    s !! i = Some 0%Z /\ s !! t = Some v /\ v <> 0%Z /\
    adjacent (i / n, i mod n) (t / n, t mod n) /\
    s' = <[t := 0%Z]> (<[i := v]> s).
Proof.
  intros Hv (acts & a & Hacts & Ha & Hdo).
  destruct (valid_blank n s Hv) as (i & Hil & Hi & Hz & _).
  rewrite (available_actions_moves _ _ _ _ Hz) in Hacts. injection Hacts as <-.
  destruct (move_spec n s i a Hv Hi Ha)
    as (t & v & -> & Hadj & Htl & Hne & Ht & Hv0 & Hdo').
  rewrite Hdo' in Hdo. injection Hdo as <-.
  by exists i, t, v.
Qed.

Lemma blank_rows_lookup n s i :
  valid_state n s -> s !! i = Some 0%Z ->
  blank_rows_above_bottom n s = n - 1 - i / n.
Proof.
  intros Hv Hi. unfold blank_rows_above_bottom.
  destruct (valid_blank n s Hv) as (j & _ & Hj & Hz & Huniq).
  unfold argwhere_zero in Hz.
  destruct (list_find _ s) as [[k w]|] eqn:Hf; [|discriminate].
  apply list_find_Some in Hf as (Hk & -> & _).
  by rewrite (Huniq k Hk), (Huniq i Hi).
Qed.

(** Exchanging the blank with the tile at distance [d] changes the number
    of inversions by a number of the parity of [d - 1]. *)
Lemma inversions_swap_blank (s : list Z) i t v :
  NoDup s -> i <> t -> s !! i = Some 0%Z -> s !! t = Some v ->
  exists c,
    inversions s + inversions (<[t := 0%Z]> (<[i := v]> s)) =
    2 * c + (Nat.max i t - Nat.min i t - 1).
Proof.
  intros Hnd Hne Hi Ht.
  assert (v <> 0%Z) as Hv0.
  { intros ->. apply Hne. by eapply NoDup_lookup. }
  assert (forall l1 a m b l2, s = l1 ++ a :: m ++ b :: l2 ->
            Forall (fun x => x <> a /\ x <> b) m) as Hmid.
  { intros l1 a m b l2 ->. apply NoDup_app in Hnd as (_ & _ & Hnd).
    apply NoDup_cons in Hnd as [Ha Hnd].
    apply NoDup_app in Hnd as (_ & Hm & Hnd).
    apply NoDup_cons in Hnd as [Hb _].
    apply Forall_forall. intros x Hx. split; intros ->.
    - apply Ha. apply elem_of_app. by left.
    - apply (Hm b Hx). by left. }
  destruct (decide (i < t)) as [Hlt|Hge].
  - destruct (swap_decompose s i t 0%Z v Hlt Hi Ht)
      as (l1 & m & l2 & Hs & _ & Hm & ->).
    pose proof (Hmid _ _ _ _ _ Hs) as Hfa. rewrite Hs.
    rewrite (inversions_skip_zero l1).
    replace (l1 ++ v :: m ++ 0%Z :: l2) with ((l1 ++ v :: m) ++ 0%Z :: l2)
      by (by rewrite <- app_assoc).
    rewrite (inversions_skip_zero (l1 ++ v :: m)), <- app_assoc. simpl.
    destruct (inversions_jump l1 v m l2 Hv0) as [c Hc].
    { eapply Forall_impl; [exact Hfa|]. simpl. tauto. }
    exists c. rewrite Hm in Hc. lia.
  - assert (t < i) as Hlt by lia.
    rewrite list_insert_insert_ne by lia.
    destruct (swap_decompose s t i v 0%Z Hlt Ht Hi)
      as (l1 & m & l2 & Hs & _ & Hm & ->).
    pose proof (Hmid _ _ _ _ _ Hs) as Hfa. rewrite Hs.
    rewrite (inversions_skip_zero l1).
    replace (l1 ++ v :: m ++ 0%Z :: l2) with ((l1 ++ v :: m) ++ 0%Z :: l2)
      by (by rewrite <- app_assoc).
    rewrite (inversions_skip_zero (l1 ++ v :: m)), <- app_assoc. simpl.
    destruct (inversions_jump l1 v m l2 Hv0) as [c Hc].
    { eapply Forall_impl; [exact Hfa|]. simpl. tauto. }
    exists c. rewrite Hm in Hc. lia.
Qed.

Lemma even_sum_mod2 a b c : a + b = 2 * c -> a mod 2 = b mod 2.
Proof.
  intros H. pose proof (Nat.div_mod_eq a 2). pose proof (Nat.div_mod_eq b 2).
  pose proof (Nat.mod_upper_bound a 2). pose proof (Nat.mod_upper_bound b 2).
  lia.
Qed.

(** Legal moves keep [move_parity]. *)
Lemma move_parity_move n s s' :
  valid_state n s -> legal_move n s s' -> move_parity n s' = move_parity n s.
Proof.
  intros Hv Hm. pose proof (legal_move_valid n s s' Hv Hm) as Hv'.
  assert (0 < n) as Hn by (by destruct Hv).
  destruct (legal_move_swap n s s' Hv Hm)
    as (i & t & v & Hil & Htl & Hne & Hi & Ht & Hv0 & Hadj & ->).
  pose proof (valid_length n s Hv) as Hlen.
  unfold move_parity. rewrite !count_inversions_inversions.
  rewrite (blank_rows_lookup n s i Hv Hi).
  rewrite (blank_rows_lookup n _ t Hv').
  2:{ rewrite swap_lookup by lia. by rewrite decide_True. }
  destruct (inversions_swap_blank s i t v (valid_NoDup n s Hv)
              ltac:(lia) Hi Ht) as [c Hc].
  destruct (coords_lt n i Hil) as [Hxi Hyi].
  destruct (coords_lt n t Htl) as [Hxt Hyt].
  pose proof (coords_index n i) as Hci. pose proof (coords_index n t) as Hct.
  symmetry.
  destruct Hadj as [[Hcol Hrow]|[Hrow Hcol]]; simpl in Hcol, Hrow.
  - (* a vertical move: the tile jumps over n - 1 others *)
    destruct Hrow as [Hrow|Hrow].
    + assert (i = t + n) as Hit by (rewrite Hrow in Hci; lia).
      apply (even_sum_mod2 _ _
               (c + (n - 1) * (n - 1 - i / n) + (n - 1))).
      replace (n - 1 - t / n) with (S (n - 1 - i / n)) by lia.
      replace (Nat.max i t - Nat.min i t - 1) with (n - 1) in Hc by lia.
      lia.
    + assert (t = i + n) as Hit by (rewrite Hrow in Hct; lia).
      apply (even_sum_mod2 _ _
               (c + (n - 1) * (n - 1 - t / n) + (n - 1))).
      replace (n - 1 - i / n) with (S (n - 1 - t / n)) by lia.
      replace (Nat.max i t - Nat.min i t - 1) with (n - 1) in Hc by lia.
      lia.
  - (* a horizontal move: the order of the tiles is unchanged *)
    rewrite <- Hrow.
    apply (even_sum_mod2 _ _ (c + (n - 1) * (n - 1 - i / n))).
    replace (Nat.max i t - Nat.min i t - 1) with 0 in Hc by lia.
    lia.
Qed.

Lemma inv_after_le a l :
  Forall (fun b => (a <= b)%Z) l -> inv_after a l = 0.
Proof.
  induction 1 as [|b l Hb _ IH]; [done|]. simpl. rewrite IH.
  unfold inv_pair. rewrite (bool_decide_false (b < a)%Z) by lia.
  by rewrite andb_false_r.
Qed.

Lemma inversions_increasing a k : inversions (map Z.of_nat (seq a k)) = 0.
Proof.
  revert a. induction k as [|k IH]; intros a; [done|].
  simpl. rewrite IH, inv_after_le; [done|].
  apply Forall_forall. intros b Hb.
  change (map Z.of_nat) with (fmap (M:=list) Z.of_nat) in Hb.
  apply list_elem_of_fmap in Hb as (j & -> & Hj). apply elem_of_seq in Hj. lia.
Qed.

Lemma move_parity_goal n : 0 < n -> move_parity n (goal_buffer n) = 0.
Proof.
  intros Hn. unfold move_parity. rewrite count_inversions_inversions.
  rewrite (blank_rows_lookup n _ (n * n - 1) (goal_buffer_valid n Hn)).
  2:{ rewrite goal_buffer_lookup by lia. by rewrite bool_decide_false by lia. }
  unfold goal_buffer. rewrite inversions_skip_zero, app_nil_r.
  rewrite inversions_increasing.
  replace ((n * n - 1) / n) with (n - 1).
  - replace (n - 1 - (n - 1)) with 0 by lia. by rewrite Nat.mul_0_r.
  - apply Nat.div_unique with (n - 1); nia.
Qed.

Lemma rtc_legal_valid n s s' :
  valid_state n s -> rtc (legal_move n) s s' -> valid_state n s'.
Proof.
  intros Hv Hr. induction Hr as [|x y z Hxy _ IH]; [done|].
  apply IH. by eapply legal_move_valid.
Qed.

Lemma move_parity_rtc n s s' :
  valid_state n s -> rtc (legal_move n) s s' ->
  move_parity n s' = move_parity n s.
Proof.
  intros Hv Hr. induction Hr as [|x y z Hxy _ IH]; [done|].
  rewrite IH by (by eapply legal_move_valid). by apply move_parity_move.
Qed.

Lemma move_parity_odd n s :
  n mod 2 = 1 -> move_parity n s = count_inversions s mod 2.
Proof.
  intros Hodd. unfold move_parity.
  pose proof (Nat.div_mod_eq n 2) as Hn.
  set (q := n / 2) in *. set (b := blank_rows_above_bottom n s).
  replace ((n - 1) * b) with (q * b * 2) by (replace (n - 1) with (2 * q); lia).
  by rewrite Nat.Div0.mod_add.
Qed.

Lemma move_parity_even n s :
  0 < n -> n mod 2 = 0 ->
  move_parity n s = (count_inversions s + blank_rows_above_bottom n s) mod 2.
Proof.
  intros Hpos Heven. unfold move_parity.
  pose proof (Nat.div_mod_eq n 2) as Hn.
  set (q := n / 2 - 1). set (b := blank_rows_above_bottom n s).
  replace (count_inversions s + (n - 1) * b)
    with (count_inversions s + b + q * b * 2)
    by (replace (n - 1) with (1 + 2 * q) by (unfold q; lia); lia).
  by rewrite Nat.Div0.mod_add.
Qed.

(** X9. On a board with an odd side, [is_solvable] gives the same answer
    before and after every legal move, and so accepts every state that
    legal moves reach from the goal: the states that [randomize_puzzle]
    builds are never rejected there. *)
Theorem is_solvable_odd_board (n : nat) (s s' : ndarray) :
  n mod 2 = 1 -> valid_state n s ->
  (legal_move n s s' -> is_solvable s' = is_solvable s) /\
  (rtc (legal_move n) (goal_buffer n) s' -> is_solvable s' = true).
Proof.
  intros Hodd Hv. assert (0 < n) as Hn by (by destruct Hv). split.
  - intros Hm. unfold is_solvable.
    rewrite <- !(move_parity_odd n) by done.
    by rewrite (move_parity_move n s s').
  - intros Hr. unfold is_solvable. apply bool_decide_eq_true.
    rewrite <- (move_parity_odd n) by done.
    rewrite (move_parity_rtc n (goal_buffer n) s') by auto using goal_buffer_valid.
    by apply move_parity_goal.
Qed.

Lemma is_solvable_odd_board_witness :
  (legal_move 3 [1;2;3;4;5;6;7;8;0]%Z [1;2;3;4;5;0;7;8;6]%Z ->
   is_solvable [1;2;3;4;5;0;7;8;6]%Z = is_solvable [1;2;3;4;5;6;7;8;0]%Z) /\
  (rtc (legal_move 3) (goal_buffer 3) [1;2;3;4;5;0;7;8;6]%Z ->
   is_solvable [1;2;3;4;5;0;7;8;6]%Z = true).
Proof.
  apply (is_solvable_odd_board 3 [1;2;3;4;5;6;7;8;0]%Z [1;2;3;4;5;0;7;8;6]%Z);
    [reflexivity | decide_valid].
Defined.

(** X10. On a board with an even side, a state that legal moves reach from
    the goal passes [is_solvable] exactly when its blank is an even number
    of rows above the bottom row. *)
Theorem is_solvable_even_board_blank_row (n : nat) (s : ndarray) :
  0 < n -> n mod 2 = 0 -> rtc (legal_move n) (goal_buffer n) s ->
  is_solvable s = bool_decide (blank_rows_above_bottom n s mod 2 = 0).
Proof.
  intros Hn Heven Hr.
  pose proof (move_parity_rtc n _ s (goal_buffer_valid n Hn) Hr) as Hp.
  rewrite move_parity_goal, move_parity_even in Hp by done.
  unfold is_solvable. apply bool_decide_ext.
  set (c := count_inversions s) in *. set (b := blank_rows_above_bottom n s) in *.
  pose proof (Nat.div_mod_eq c 2). pose proof (Nat.div_mod_eq b 2).
  pose proof (Nat.div_mod_eq (c + b) 2).
  pose proof (Nat.mod_upper_bound c 2). pose proof (Nat.mod_upper_bound b 2).
  lia.
Qed.

Lemma legal_move_goal4 :
  legal_move 4 (goal_buffer 4)
    [1;2;3;4;5;6;7;8;9;10;11;0;13;14;15;12]%Z.
Proof.
  exists (moves_at 4 3 3), (mkAction (3, 3) (2, 3)).
  split; [reflexivity|]. split; [|reflexivity].
  apply (bool_decide_unpack _). vm_compute. exact I.
Qed.

Lemma is_solvable_even_board_blank_row_witness :
  is_solvable [1;2;3;4;5;6;7;8;9;10;11;0;13;14;15;12]%Z =
  bool_decide
    (blank_rows_above_bottom 4 [1;2;3;4;5;6;7;8;9;10;11;0;13;14;15;12]%Z
       mod 2 = 0).
Proof.
  apply (is_solvable_even_board_blank_row 4
           [1;2;3;4;5;6;7;8;9;10;11;0;13;14;15;12]%Z); [lia | reflexivity |].
  apply rtc_once. exact legal_move_goal4.
Defined.

(** ** The randomizer *)

Lemma choice_elem_of {A} (r : nat) (l : list A) :
  l <> [] -> exists a, choice r l = Ok a /\ a ∈ l.
Proof.
  intros Hne. unfold choice. destruct l as [|b l]; [done|].
  destruct (lookup_lt_is_Some_2 (b :: l) (r mod length (b :: l))) as [a Ha].
  { apply Nat.mod_upper_bound. simpl. lia. }
  rewrite Ha. exists a. split; [done|]. by eapply list_elem_of_lookup_2.
Qed.

(** One iteration of the loop of [randomize_puzzle] is a legal move. *)
Lemma randomize_step_move n draws s k :
  2 <= n -> valid_state n s ->
  exists s', randomize_step n draws s k = Ok s' /\ legal_move n s s'.
Proof.
  intros Hn Hv. unfold randomize_step.
  destruct (valid_blank n s Hv) as (i & Hil & Hi & Hz & _).
  pose proof (available_actions_moves n s _ _ Hz) as Hacts. rewrite Hacts.
  destruct (coords_lt n i Hil) as [Hx Hy].
  pose proof (moves_at_length n _ _ Hn Hx Hy) as Hlen.
  destruct (choice_elem_of (draws k) (moves_at n (i / n) (i mod n)))
    as (a & Hc & Ha).
  { intros Hnil. rewrite Hnil in Hlen. simpl in Hlen. lia. }
  cbn [mbind result_bind]. rewrite Hc. cbn [mbind result_bind].
  destruct (move_result n s _ a Hv Hacts Ha) as (s' & Hdo & Hm & _).
  by exists s'.
Qed.

Lemma for_each_randomize_step n draws l s :
  2 <= n -> valid_state n s ->
  exists s', for_each (randomize_step n draws) s l = Ok s' /\
             nsteps (legal_move n) (length l) s s'.
Proof.
  intros Hn. revert s. induction l as [|k l IH]; intros s Hv.
  - exists s. split; [done|]. constructor.
  - destruct (randomize_step_move n draws s k Hn Hv) as (s1 & Hs1 & Hm).
    destruct (IH s1) as (s' & Hs' & Hk); [by eapply legal_move_valid|].
    exists s'. rewrite for_each_cons, Hs1. split; [done|].
    simpl. by eapply nsteps_l.
Qed.

Lemma randomize_puzzle_nsteps n steps draws :
  2 <= n ->
  exists s, randomize_puzzle n steps draws = Ok s /\
            nsteps (legal_move n) steps (goal_buffer n) s.
Proof.
  intros Hn. unfold randomize_puzzle. rewrite goal_state_Ok by lia.
  destruct (for_each_randomize_step n draws (seq 0 steps) (goal_buffer n) Hn)
    as (s & Hs & Hk); [apply goal_buffer_valid; lia|].
  rewrite length_seq in Hk. by exists s.
Qed.

(** X11. On a board of dimension at least 2, whatever the generator
    draws, [randomize_puzzle] raises nothing: it returns a valid state that
    [RANDOMIZE_STEPS] legal moves reach from the goal, so one that legal
    moves lead back to the goal. *)
Theorem randomize_puzzle_reachable (n steps : nat) (draws : nat -> nat) :
  2 <= n ->
  exists s, randomize_puzzle n steps draws = Ok s /\ valid_state n s /\
            nsteps (legal_move n) steps (goal_buffer n) s /\
            rtc (legal_move n) s (goal_buffer n).
Proof.
  intros Hn. destruct (randomize_puzzle_nsteps n steps draws Hn) as (s & Hs & Hk).
  assert (valid_state n (goal_buffer n)) as Hg by (apply goal_buffer_valid; lia).
  exists s. split; [done|]. split; [by eapply nsteps_legal_valid|].
  split; [done|].
  clear Hs. induction Hk as [x|k x y z Hxy Hyz IH]; [done|].
  pose proof (legal_move_valid n x y Hg Hxy) as Hy.
  eapply rtc_r; [by apply IH|]. by apply legal_move_sym.
Qed.

Lemma randomize_puzzle_reachable_witness :
  exists s, randomize_puzzle 3 5 (fun k => k) = Ok s /\ valid_state 3 s /\
            nsteps (legal_move 3) 5 (goal_buffer 3) s /\
            rtc (legal_move 3) s (goal_buffer 3).
Proof. apply (randomize_puzzle_reachable 3 5 (fun k => k)). lia. Defined.

(** X12. On the board of one cell the blank has no move: with at least one
    step to make, [randomize_puzzle] raises the [IndexError] of [choice] on
    an empty list. *)
Theorem randomize_puzzle_one_cell (steps : nat) (draws : nat -> nat) :
  0 < steps -> randomize_puzzle 1 steps draws = Raise IndexError.
Proof.
  intros Hs. destruct steps as [|k]; [lia|]. reflexivity.
Qed.

Lemma randomize_puzzle_one_cell_witness :
  randomize_puzzle 1 100 (fun k => k) = Raise IndexError.
Proof. apply (randomize_puzzle_one_cell 100 (fun k => k)). lia. Defined.

(** X13. On a board with an odd side of at least 3, every state that
    [randomize_puzzle] builds passes [is_solvable]: the loop of [main] that
    draws states until one passes ends at its first state. *)
Theorem randomize_puzzle_is_solvable_odd (n steps : nat) (draws : nat -> nat) :
  2 <= n -> n mod 2 = 1 ->
  exists s, randomize_puzzle n steps draws = Ok s /\ is_solvable s = true.
Proof.
  intros Hn Hodd.
  destruct (randomize_puzzle_nsteps n steps draws Hn) as (s & Hs & Hk).
  exists s. split; [done|].
  assert (valid_state n (goal_buffer n)) as Hg by (apply goal_buffer_valid; lia).
  unfold is_solvable. apply bool_decide_eq_true.
  rewrite <- (move_parity_odd n) by done.
  rewrite (move_parity_rtc n (goal_buffer n) s Hg) by (by eapply rtc_nsteps_2).
  apply move_parity_goal. lia.
Qed.

Lemma randomize_puzzle_is_solvable_odd_witness :
  exists s, randomize_puzzle 3 7 (fun k => 2 * k) = Ok s /\
            is_solvable s = true.
Proof.
  apply (randomize_puzzle_is_solvable_odd 3 7 (fun k => 2 * k));
    [lia | reflexivity].
Defined.

(** ** Completeness of the search *)

Lemma rtc_legal_sym n s s' :
  valid_state n s -> rtc (legal_move n) s s' -> rtc (legal_move n) s' s.
Proof.
  intros Hv Hr. induction Hr as [|x y z Hxy _ IH]; [done|].
  pose proof (legal_move_valid n x y Hv Hxy) as Hy.
  eapply rtc_r; [by apply IH|]. by apply legal_move_sym.
Qed.

(** The state before the first iteration. *)
Lemma initial_loop_state_shape n start st :
  valid_state n start -> initial_loop_state n start = Ok st ->
  exists h1 h2,
    st = mkLoop (mkSearch [(h1, start)] {[ start := None ]} {[ start := 0 ]})
                (mkSearch [(h2, goal_buffer n)] {[ goal_buffer n := None ]}
                          {[ goal_buffer n := 0 ]}) ∅ ∅ 0.
Proof.
  intros Hv. assert (0 < n) as Hn by (by destruct Hv).
  unfold initial_loop_state. rewrite goal_state_Ok by done.
  cbn [mbind result_bind].
  destruct (a_star_search_inv n start (goal_buffer n) true Hv)
    as (h1 & _ & -> & _).
  cbn [mbind result_bind].
  destruct (a_star_search_inv n (goal_buffer n) start false
              (goal_buffer_valid n Hn)) as (h2 & _ & -> & _).
  cbn [mbind result_bind]. intros [= <-]. by exists h1, h2.
Qed.

(** After the first iteration each direction has expanded its root. *)
Lemma reachable_roots n start st :
  valid_state n start -> reachable n start st ->
  initial_loop_state n start = Ok st \/
  (start ∈ explored_forward st /\ goal_buffer n ∈ explored_backward st).
Proof.
  intros Hv Hr. induction Hr as [st Hst|st st' Hr IH Hne Hit]; [by left|].
  right.
  destruct (iteration_Continue n st st' Hne Hit)
    as (sr1 & ef1 & n1 & sr2 & eb2 & n2 & He1 & He2 & ->).
  destruct (expand_step_Expanded n _ _ _ _ _ _ _ He1)
    as (f1 & c1 & rest1 & acts1 & Ho1 & _ & _ & Hef & _).
  destruct (expand_step_Expanded n _ _ _ _ _ _ _ He2)
    as (f2 & c2 & rest2 & acts2 & Ho2 & _ & _ & Heb & _).
  cbn [explored_forward explored_backward]. subst ef1 eb2.
  destruct IH as [Hinit|[Hs Hg]].
  - destruct (initial_loop_state_shape n start st Hv Hinit) as (h1 & h2 & ->).
    cbn [fwd bwd open_set] in Ho1, Ho2.
    injection Ho1 as _ <- _. injection Ho2 as _ <- _.
    split; set_solver.
  - split; set_solver.
Qed.

(** With an empty frontier a direction has expanded all that legal moves
    reach from its root. *)
Lemma empty_frontier_closed n root sr ex k :
  dir_inv n root sr ex -> lazy_inv n sr ex -> open_set sr = [] ->
  rtc (legal_move n) root k -> k ∈ ex.
Proof.
  intros Hd Hl Hopen Hr.
  assert (forall k g, g_score sr !! k = Some g -> settled n sr ex k g) as Hset.
  { intros k' g Hg. destruct (lz_settled _ _ _ Hl k' g Hg) as [Hq|Hs]; [|done].
    destruct Hq as (h & _ & Hin). rewrite Hopen in Hin.
    by apply elem_of_nil in Hin. }
  cut (exists g, g_score sr !! k = Some g).
  { intros [g Hg]. by destruct (Hset k g Hg). }
  revert k Hr. apply (rtc_ind_r (fun k => exists g, g_score sr !! k = Some g)).
  - exists 0. apply (inv_root_g _ _ _ _ Hd).
  - intros x y _ Hxy [g Hg]. destruct (Hset x g Hg) as [_ Hnb].
    destruct (Hnb y Hxy) as (gn & Hgn & _). by exists gn.
Qed.

(** When the start is connected to the goal, no frontier is empty at the
    head of the loop. *)
Lemma reachable_frontiers n start st :
  valid_state n start -> rtc (legal_move n) start (goal_buffer n) ->
  reachable n start st ->
  nonempty (open_set (fwd st)) && nonempty (open_set (bwd st)) = true.
Proof.
  intros Hv Hconn Hr.
  destruct (reachable_roots n start st Hv Hr) as [Hinit|[Hs Hg]].
  { by destruct (initial_loop_state_shape n start st Hv Hinit) as (h1 & h2 & ->). }
  destruct (reachable_inv n start st Hv Hr) as [Hdf Hdb].
  destruct (reachable_lazy n start st Hv Hr) as (Hlf & Hlb & Hdisj).
  apply andb_true_iff. split.
  - destruct (open_set (fwd st)) eqn:Hopen; [|done]. exfalso.
    apply (Hdisj (goal_buffer n)); [|done].
    by apply (empty_frontier_closed n start (fwd st)).
  - destruct (open_set (bwd st)) eqn:Hopen; [|done]. exfalso.
    apply (Hdisj start); [done|].
    apply (empty_frontier_closed n (goal_buffer n) (bwd st)); [done..|].
    by apply rtc_legal_sym.
Qed.

Lemma main_loop_finds n start fuel st nodes :
  valid_state n start -> rtc (legal_move n) start (goal_buffer n) ->
  reachable n start st -> main_loop n fuel st <> Returned None nodes.
Proof.
  intros Hv Hconn. revert st.
  induction fuel as [|fuel IH]; intros st Hr; [done|].
  cbn [main_loop].
  pose proof (reachable_frontiers n start st Hv Hconn Hr) as Hne. rewrite Hne.
  destruct (iteration n st) as [[m st'|st']|e] eqn:Hit; [| |done].
  - unfold reconstruct.
    destruct (walk fuel _ (Some m)); [|done].
    by destruct (walk fuel _ (dict_get _ m)).
  - apply IH. by eapply reachable_step.
Qed.

Lemma bidirectional_a_star_finds n start :
  valid_state n start -> rtc (legal_move n) start (goal_buffer n) ->
  (forall fuel nodes, bidirectional_a_star n fuel start <> Returned None nodes) /\
  exists fuel0, forall fuel, fuel0 <= fuel ->
    exists path nodes,
      bidirectional_a_star n fuel start = Returned (Some path) nodes /\
      good_path n start path.
Proof.
  intros Hv Hconn. unfold bidirectional_a_star.
  destruct (initial_loop_state_inv n start Hv) as (st & Hst & Hinv & _).
  rewrite Hst.
  assert (reachable n start st) as Hr by (by constructor).
  split; [intros fuel nodes; by apply (main_loop_finds n start)|].
  destruct (main_loop_terminates n start st Hinv) as [fuel0 Hfuel].
  exists fuel0. intros fuel Hle.
  destruct (Hfuel fuel Hle) as (full_path & nodes & Hrun).
  destruct full_path as [path|].
  - exists path, nodes. split; [done|]. by eapply main_loop_path.
  - by apply (main_loop_finds n start) in Hrun.
Qed.

(** X14. The search is complete: from a valid start state that legal moves
    connect to the goal, it never returns [None], and with enough fuel it
    returns a path of legal moves from the start to the goal. *)
Theorem bidirectional_a_star_complete (n : nat) (start : ndarray) :
  valid_state n start -> rtc (legal_move n) start (goal_buffer n) ->
  (forall fuel nodes, bidirectional_a_star n fuel start <> Returned None nodes) /\
  exists fuel0, forall fuel, fuel0 <= fuel ->
    exists path nodes,
      bidirectional_a_star n fuel start = Returned (Some path) nodes /\
      good_path n start path.
Proof. apply bidirectional_a_star_finds. Qed.

Lemma bidirectional_a_star_complete_witness :
  (forall fuel nodes,
     bidirectional_a_star 3 fuel [1;2;3;4;5;0;7;8;6]%Z <> Returned None nodes) /\
  exists fuel0, forall fuel, fuel0 <= fuel ->
    exists path nodes,
      bidirectional_a_star 3 fuel [1;2;3;4;5;0;7;8;6]%Z =
        Returned (Some path) nodes /\
      good_path 3 [1;2;3;4;5;0;7;8;6]%Z path.
Proof.
  apply (bidirectional_a_star_complete 3 [1;2;3;4;5;0;7;8;6]%Z);
    [decide_valid|].
  apply rtc_once. apply legal_move_sym; [decide_valid|].
  exact legal_move_goal3.
Defined.

Lemma linked_rtc n l a z :
  linked (legal_move n) (a :: l) -> last (a :: l) = Some z ->
  rtc (legal_move n) a z.
Proof.
  intros Hl Hlast. eapply rtc_nsteps_2. by eapply linked_nsteps.
Qed.

Lemma bidirectional_a_star_None n start :
  valid_state n start -> ~ rtc (legal_move n) start (goal_buffer n) ->
  exists fuel0, forall fuel, fuel0 <= fuel ->
    exists nodes, bidirectional_a_star n fuel start = Returned None nodes.
Proof.
  intros Hv Hnot. unfold bidirectional_a_star.
  destruct (initial_loop_state_inv n start Hv) as (st & Hst & Hinv & _).
  rewrite Hst.
  destruct (main_loop_terminates n start st Hinv) as [fuel0 Hfuel].
  exists fuel0. intros fuel Hle.
  destruct (Hfuel fuel Hle) as (full_path & nodes & Hrun).
  destruct full_path as [path|]; [|by exists nodes].
  destruct (main_loop_path n start fuel st path nodes Hinv Hrun)
    as (Hhd & Hlast & Hlink).
  destruct path as [|a l]; [discriminate|]. injection Hhd as ->.
  destruct Hnot. by eapply linked_rtc.
Qed.

(** X15. On a board with an odd side, a valid start state that
    [is_solvable] rejects has no path to the goal, and the search says so:
    with enough fuel it returns [None]. *)
Theorem bidirectional_a_star_rejected_odd (n : nat) (start : ndarray) :
  valid_state n start -> n mod 2 = 1 -> is_solvable start = false ->
  ~ rtc (legal_move n) start (goal_buffer n) /\
  exists fuel0, forall fuel, fuel0 <= fuel ->
    exists nodes, bidirectional_a_star n fuel start = Returned None nodes.
Proof.
  intros Hv Hodd Hsol. assert (0 < n) as Hn by (by destruct Hv).
  assert (~ rtc (legal_move n) start (goal_buffer n)) as Hnot.
  { intros Hr. pose proof (move_parity_rtc n start _ Hv Hr) as Hp.
    rewrite move_parity_goal, move_parity_odd in Hp by done.
    unfold is_solvable in Hsol. apply bool_decide_eq_false in Hsol. auto. }
  split; [done|]. by apply bidirectional_a_star_None.
Qed.

Lemma bidirectional_a_star_rejected_odd_witness :
  ~ rtc (legal_move 3) [1;2;3;4;5;6;8;7;0]%Z (goal_buffer 3) /\
  exists fuel0, forall fuel, fuel0 <= fuel ->
    exists nodes,
      bidirectional_a_star 3 fuel [1;2;3;4;5;6;8;7;0]%Z = Returned None nodes.
Proof.
  apply (bidirectional_a_star_rejected_odd 3 [1;2;3;4;5;6;8;7;0]%Z);
    [decide_valid | reflexivity | reflexivity].
Defined.

(** X16. The states that [randomize_puzzle] builds are solved: on a board
    of dimension at least 2, whatever the generator draws, the search on
    the state returned by [randomize_puzzle] never returns [None] and, with
    enough fuel, returns a path of legal moves from that state to the
    goal. *)
Theorem randomize_puzzle_solved (n steps : nat) (draws : nat -> nat) :
  2 <= n ->
  exists s, randomize_puzzle n steps draws = Ok s /\
    (forall fuel nodes, bidirectional_a_star n fuel s <> Returned None nodes) /\
    exists fuel0, forall fuel, fuel0 <= fuel ->
      exists path nodes,
        bidirectional_a_star n fuel s = Returned (Some path) nodes /\
        good_path n s path.
Proof.
  intros Hn. destruct (randomize_puzzle_nsteps n steps draws Hn) as (s & Hs & Hk).
  assert (valid_state n (goal_buffer n)) as Hg by (apply goal_buffer_valid; lia).
  exists s. split; [done|]. apply bidirectional_a_star_finds.
  - by eapply nsteps_legal_valid.
  - apply rtc_legal_sym; [done|]. by eapply rtc_nsteps_2.
Qed.

Lemma randomize_puzzle_solved_witness :
  exists s, randomize_puzzle 4 6 (fun k => 3 * k) = Ok s /\
    (forall fuel nodes, bidirectional_a_star 4 fuel s <> Returned None nodes) /\
    exists fuel0, forall fuel, fuel0 <= fuel ->
      exists path nodes,
        bidirectional_a_star 4 fuel s = Returned (Some path) nodes /\
        good_path 4 s path.
Proof. apply (randomize_puzzle_solved 4 6 (fun k => 3 * k)). lia. Defined.

(** ** Decoding a path *)

Lemma reconstruct_full_path_Ok n path :
  Forall (fun k => length k = n * n) path ->
  reconstruct_full_path n path = Ok path.
Proof.
  induction 1 as [|k path Hk _ IH]; [done|].
  cbn [reconstruct_full_path]. unfold frombuffer, reshape.
  rewrite bool_decide_true by done. cbn [mbind result_bind].
  by rewrite IH.
Qed.

Lemma linked_valid n l a :
  valid_state n a -> linked (legal_move n) (a :: l) ->
  Forall (valid_state n) (a :: l).
Proof.
  revert a. induction l as [|b l IH]; intros a Hv Hl.
  - by constructor.
  - apply linked_cons in Hl as [Hab Hl]. constructor; [done|].
    apply IH; [|done]. eapply legal_move_valid; [exact Hv|]. by apply Hab.
Qed.

(** X17. [reconstruct_full_path] on a path that the search returned
    raises no [ValueError]: it gives one array per key, every one a valid
    state, the first one the start state and the last one, which [main]
    prints as the solution, the goal state. *)
Theorem reconstruct_full_path_solution (n fuel : nat) (start : ndarray)
    (path : list key) (nodes : nat) :
  valid_state n start ->
  bidirectional_a_star n fuel start = Returned (Some path) nodes ->
  exists states,
    reconstruct_full_path n path = Ok states /\ length states = length path /\
    Forall (valid_state n) states /\
    head states = Some start /\ last states = Some (goal_buffer n).
Proof.
  intros Hv Hrun. unfold bidirectional_a_star in Hrun.
  destruct (initial_loop_state_inv n start Hv) as (st & Hst & Hinv & _).
  rewrite Hst in Hrun.
  destruct (main_loop_path n start fuel st path nodes Hinv Hrun)
    as (Hhd & Hlast & Hlink).
  destruct path as [|a l]; [discriminate|]. injection Hhd as ->.
  pose proof (linked_valid n l start Hv Hlink) as Hall.
  exists (start :: l). split; [|done].
  apply reconstruct_full_path_Ok.
  eapply Forall_impl; [exact Hall|]. intros k. apply valid_length.
Qed.

Lemma reconstruct_full_path_solution_witness :
  exists states,
    reconstruct_full_path 3 [[1;2;3;4;0;6;7;5;8]; [1;2;3;4;5;6;7;0;8];
                             [1;2;3;4;5;6;7;8;0]]%Z = Ok states /\
    length states = length [[1;2;3;4;0;6;7;5;8]; [1;2;3;4;5;6;7;0;8];
                            [1;2;3;4;5;6;7;8;0]]%Z /\
    Forall (valid_state 3) states /\
    head states = Some [1;2;3;4;0;6;7;5;8]%Z /\
    last states = Some (goal_buffer 3).
Proof.
  apply (reconstruct_full_path_solution 3 20 [1;2;3;4;0;6;7;5;8]%Z _ 10);
    [decide_valid | vm_compute; reflexivity].
Defined.

(** X18. [reconstruct_full_path] raises the [ValueError] of [reshape] at
    the first key whose length is not the number of cells of the board,
    and returns the keys unchanged when there is none. *)
Theorem reconstruct_full_path_ValueError (n : nat) (pre post : list key)
    (k : key) :
  Forall (fun k => length k = n * n) pre ->
  reconstruct_full_path n pre = Ok pre /\
  (length k <> n * n ->
   reconstruct_full_path n (pre ++ k :: post) = Raise ValueError).
Proof.
  intros Hpre. split; [by apply reconstruct_full_path_Ok|]. intros Hk.
  induction Hpre as [|k' pre Hk' _ IH].
  - cbn [app reconstruct_full_path]. unfold frombuffer, reshape.
    by rewrite bool_decide_false by done.
  - change ((k' :: pre) ++ k :: post) with (k' :: (pre ++ k :: post)).
    cbn [reconstruct_full_path]. unfold frombuffer, reshape.
    rewrite bool_decide_true by done. cbn [mbind result_bind].
    by rewrite IH.
Qed.

Lemma reconstruct_full_path_ValueError_witness :
  reconstruct_full_path 2 [[1;2;3;0]]%Z = Ok [[1;2;3;0]]%Z /\
  (length [1;2;0]%Z <> 2 * 2 ->
   reconstruct_full_path 2 ([[1;2;3;0]] ++ [1;2;0] :: [])%Z = Raise ValueError).
Proof.
  apply (reconstruct_full_path_ValueError 2 [[1;2;3;0]]%Z [] [1;2;0]%Z).
  apply (bool_decide_unpack _). vm_compute. exact I.
Defined.

(** ** What [nodes_evaluated] counts *)

Lemma relax_count n cur cs sr nodes a sr' nodes' :
  relax n cur cs (sr, nodes) a = Ok (sr', nodes') ->
  nodes' + length (open_set sr) = nodes + length (open_set sr').
Proof.
  intros Hr.
  destruct (relax_cases n cur cs sr nodes a sr' nodes' Hr)
    as (nb & gc & _ & _ & [(-> & -> & _)|(h & _ & -> & -> & _)]); [done|].
  cbn [open_set]. rewrite length_heappush. lia.
Qed.

Lemma for_each_relax_count n cur cs l sr nodes sr' nodes' :
  for_each (relax n cur cs) (sr, nodes) l = Ok (sr', nodes') ->
  nodes' + length (open_set sr) = nodes + length (open_set sr').
Proof.
  revert sr nodes. induction l as [|a l IH]; intros sr nodes Hf.
  - by injection Hf as -> ->.
  - rewrite for_each_cons in Hf. apply bind_Ok in Hf as ([sr1 n1] & Hr & Hf).
    apply relax_count in Hr. apply IH in Hf. lia.
Qed.

Lemma expand_step_count n sr ex oex nodes sr' ex' nodes' :
  expand_step n sr ex oex nodes = Ok (Expanded sr' ex' nodes') ->
  nodes' + length (open_set sr) = nodes + length (open_set sr') + 1.
Proof.
  intros He.
  destruct (expand_step_Expanded n _ _ _ _ _ _ _ He)
    as (f & cur & rest & acts & Ho & _ & _ & _ & _ & Hf).
  apply for_each_relax_count in Hf. cbn [open_set] in Hf.
  rewrite Ho. simpl. lia.
Qed.

Lemma run_iterations_count n k st st' :
  run_iterations n k st = Some st' ->
  nodes_evaluated st' + length (open_set (fwd st)) + length (open_set (bwd st)) =
  nodes_evaluated st + length (open_set (fwd st')) +
  length (open_set (bwd st')) + 2 * k.
Proof.
  revert st. induction k as [|k IH]; intros st Hrun.
  - injection Hrun as ->. lia.
  - cbn [run_iterations] in Hrun.
    destruct (nonempty (open_set (fwd st)) && nonempty (open_set (bwd st)))
      eqn:Hne; [|done].
    destruct (iteration n st) as [[m st1|st1]|e] eqn:Hit; try done.
    destruct (iteration_Continue n st st1 Hne Hit)
      as (sr1 & ef1 & n1 & sr2 & eb2 & n2 & He1 & He2 & ->).
    apply expand_step_count in He1. apply expand_step_count in He2.
    apply IH in Hrun. cbn [fwd bwd nodes_evaluated] in Hrun. lia.
Qed.

(** X19. [nodes_evaluated] counts the pushes, not the pops: at the head
    of the main loop after [k] iterations it is the number of entries of
    the two frontiers plus the two entries popped in each iteration so
    far, less the two entries that the frontiers start with. *)
Theorem nodes_evaluated_counts_pushes (n k : nat) (start : ndarray)
    (st : loop_state) :
  state_after n start k = Some st ->
  nodes_evaluated st + 2 =
  length (open_set (fwd st)) + length (open_set (bwd st)) + 2 * k.
Proof.
  unfold state_after. intros Hrun.
  destruct (initial_loop_state n start) as [st0|e] eqn:Hinit; [|done].
  apply run_iterations_count in Hrun.
  unfold initial_loop_state in Hinit.
  apply bind_Ok in Hinit as (g & _ & Hinit).
  apply bind_Ok in Hinit as (sf & Hsf & Hinit).
  apply bind_Ok in Hinit as (sb & Hsb & Hinit).
  injection Hinit as <-. cbn [fwd bwd nodes_evaluated] in Hrun.
  unfold a_star_search in Hsf, Hsb.
  apply bind_Ok in Hsf as (h1 & _ & Hsf). injection Hsf as <-.
  apply bind_Ok in Hsb as (h2 & _ & Hsb). injection Hsb as <-.
  cbn [open_set heappush length] in Hrun. lia.
Qed.

Lemma nodes_evaluated_counts_pushes_witness :
  nodes_evaluated stale_state + 2 =
  length (open_set (fwd stale_state)) + length (open_set (bwd stale_state)) +
  2 * 18.
Proof.
  apply (nodes_evaluated_counts_pushes 3 18 stale_start stale_state).
  vm_compute. reflexivity.
Defined.

(** ** The first meeting need not give a shortest path *)

Lemma legal_moveb_sound n s s' : legal_moveb n s s' = true -> legal_move n s s'.
Proof.
  unfold legal_moveb, legal_move.
  destruct (available_actions n s) as [acts|e]; [|done].
  intros Hex. apply existsb_exists in Hex as (a & Ha & Hm).
  exists acts, a. split; [done|]. split; [by apply list_elem_of_In|].
  unfold moved in Hm. destruct (do_action n s a) as [t|e]; [|done].
  apply bool_decide_eq_true in Hm. by subst.
Qed.

Lemma linkedb_sound n l : linkedb n l = true -> linked (legal_move n) l.
Proof.
  induction l as [|a l IH]; [done|]. destruct l as [|b l]; [done|].
  intros Hl. cbn [linkedb] in Hl. apply andb_true_iff in Hl as [Hab Hl].
  split; [by apply legal_moveb_sound | by apply IH].
Qed.

(** X20. The path of the first meeting need not be a shortest one: on the
    3 x 3 state [1 7 2 / 4 0 3 / 8 5 6] the search returns a path of 14
    moves after 136 pushes, while 12 legal moves lead from that state to
    the goal. *)
Theorem bidirectional_a_star_not_shortest :
  valid_state 3 detour_start /\
  good_path 3 detour_start detour_shorter /\ length detour_shorter - 1 = 12 /\
  exists path,
    bidirectional_a_star 3 100 detour_start = Returned (Some path) 136 /\
    length path - 1 = 14.
Proof.
  split; [decide_valid|]. split; [|split; [reflexivity|]].
  - split; [reflexivity|]. split; [reflexivity|].
    apply linkedb_sound. vm_compute. reflexivity.
  - eexists. split; [vm_compute; reflexivity|]. reflexivity.
Qed.

(** ** The scores of explored states are shortest distances *)

Lemma head_min (e0 e : entry) rest :
  StronglySorted entry_le (e0 :: rest) -> e ∈ e0 :: rest -> (e0.1 <= e.1)%Z.
Proof.
  intros Hs He. apply elem_of_cons in He as [->|He]; [lia|].
  apply StronglySorted_inv in Hs as [_ Hall].
  rewrite Forall_forall in Hall. specialize (Hall e He).
  unfold entry_le, entry_ltb in Hall.
  destruct (decide (e.1 < e0.1)%Z) as [Hlt|Hge]; [|lia].
  by rewrite bool_decide_true in Hall by done.
Qed.

Lemma manhattan_distance_nsteps n j y x :
  valid_state n y -> nsteps (legal_move n) j y x ->
  exists hy hx, manhattan_distance n y = Ok hy /\ manhattan_distance n x = Ok hx /\
                (hy <= hx + Z.of_nat j)%Z.
Proof.
  intros Hv Hk. induction Hk as [x|j x y z Hxy Hyz IH].
  - rewrite manhattan_distance_total by (by apply valid_length).
    eexists _, _. split; [done|]. split; [done|]. lia.
  - destruct (manhattan_distance_move n x y Hv Hxy) as (h & h' & Hh & Hh' & Hd).
    destruct IH as (hy & hz & Hhy & Hhz & Hle); [by eapply legal_move_valid|].
    assert (hy = h') as -> by congruence.
    exists h, hz. split; [done|]. split; [done|]. lia.
Qed.

Lemma nsteps_legal_sym n j s s' :
  valid_state n s -> nsteps (legal_move n) j s s' -> nsteps (legal_move n) j s' s.
Proof.
  intros Hv Hk. induction Hk as [x|j x y z Hxy Hyz IH]; [constructor|].
  pose proof (legal_move_valid n x y Hv Hxy) as Hy.
  eapply nsteps_r; [by apply IH|]. by apply legal_move_sym.
Qed.

(** A sequence of moves from the root ends in an explored state with a
    score that is not larger than its length, or passes a state that waits
    in the frontier with such a score. *)
Lemma frontier_cut n root sr ex i x :
  dir_inv n root sr ex -> lazy_inv n sr ex ->
  nsteps (legal_move n) i root x ->
  (exists g, g_score sr !! x = Some g /\ g <= i /\ x ∈ ex) \/
  (exists i' y gy hy,
     i' <= i /\ g_score sr !! y = Some gy /\ gy <= i' /\
     manhattan_distance n y = Ok hy /\
     ((Z.of_nat gy + hy)%Z, y) ∈ open_set sr /\
     nsteps (legal_move n) (i - i') y x).
Proof.
  intros Hd Hl. revert x. induction i as [|i IH]; intros x Hk.
  - inversion Hk; subst.
    pose proof (inv_root_g _ _ _ _ Hd) as Hg.
    destruct (lz_settled _ _ _ Hl x 0 Hg) as [(h & Hh & Hin)|[Hex _]].
    + right. exists 0, x, 0, h. repeat split; try done; constructor.
    + left. by exists 0.
  - apply nsteps_inv_r in Hk as (y & Hk & Hyx).
    destruct (IH y Hk) as [(g & Hg & Hle & Hex)|
                           (i' & z & gz & hz & Hi' & Hgz & Hle & Hh & Hin & Hrest)].
    + destruct (lz_settled _ _ _ Hl y g Hg) as [(h & Hh & Hin)|[_ Hnbs]].
      * right. exists i, y, g, h. replace (S i - i) with 1 by lia.
        repeat split; try done; try lia; by apply nsteps_once.
      * destruct (Hnbs x Hyx) as (gx & Hgx & Hlex).
        destruct (lz_settled _ _ _ Hl x gx Hgx) as [(h & Hh & Hin)|[Hex' _]].
        -- right. exists (S i), x, gx, h.
           replace (S i - S i) with 0 by lia.
           repeat split; try done; try lia; constructor.
        -- left. exists gx. repeat split; try done. lia.
    + right. exists i', z, gz, hz.
      replace (S i - i') with (S (i - i')) by lia.
      repeat split; try done; try lia; by eapply nsteps_r.
Qed.

(** The state at the head of the frontier carries a shortest distance. *)
Lemma pop_optimal n root sr ex f cur rest gc :
  dir_inv n root sr ex -> lazy_inv n sr ex -> explored_optimal n root sr ex ->
  open_set sr = (f, cur) :: rest -> g_score sr !! cur = Some gc ->
  forall j, nsteps (legal_move n) j root cur -> gc <= j.
Proof.
  intros Hd Hl Hopt Hopen Hgc j Hj.
  destruct (decide (cur ∈ ex)) as [Hex|Hex]; [by eapply Hopt|].
  pose proof (lz_sorted _ _ _ Hl) as Hsorted. rewrite Hopen in Hsorted.
  destruct (lz_lower _ _ _ Hl (f, cur)) as (g' & hc & Hg' & Hhc & Hlow).
  { rewrite Hopen. apply list_elem_of_here. }
  cbn [fst snd] in Hg', Hhc, Hlow. assert (g' = gc) as -> by congruence.
  destruct (frontier_cut n root sr ex j cur Hd Hl Hj)
    as [(g & Hg & Hle & Hex')|
        (i' & y & gy & hy & Hi' & Hgy & Hle & Hhy & Hin & Hrest)]; [done|].
  rewrite Hopen in Hin. pose proof (head_min _ _ _ Hsorted Hin) as Hmin.
  cbn [fst snd] in Hmin.
  assert (valid_state n y) as Hvy by (eapply inv_g_valid; eauto).
  destruct (manhattan_distance_nsteps n _ y cur Hvy Hrest)
    as (hy' & hc' & Hhy' & Hhc' & Hcons).
  assert (hy' = hy) as -> by congruence.
  assert (hc' = hc) as -> by congruence.
  lia.
Qed.

Lemma relax_mono n cur cs gc sr nodes a sr' nodes' :
  g_score sr !! cur = Some gc ->
  relax n cur cs (sr, nodes) a = Ok (sr', nodes') ->
  g_score sr' !! cur = Some gc /\
  forall k g, g_score sr' !! k = Some g ->
    g_score sr !! k = None \/ exists g0, g_score sr !! k = Some g0 /\ g <= g0.
Proof.
  intros Hgc Hr.
  apply relax_cases in Hr as (nb & gc' & Hdo & Hgc' & Hcase).
  assert (gc' = gc) as -> by congruence.
  destruct Hcase as [(-> & _ & _) | (h & Hh & -> & _ & Hbetter)].
  { split; [done|]. intros k g Hk. right. by exists g. }
  cbn [g_score].
  assert (nb <> cur) as Hne.
  { intros ->. destruct Hbetter as [?|(gold & ? & ?)]; [congruence|].
    assert (gold = gc) by congruence. lia. }
  split; [by rewrite lookup_insert_ne by done|].
  intros k g Hk. destruct (decide (nb = k)) as [<-|Hnk].
  - rewrite lookup_insert_eq in Hk. injection Hk as <-.
    destruct Hbetter as [?|(gold & ? & ?)]; [by left|].
    right. exists gold. split; [done|lia].
  - rewrite lookup_insert_ne in Hk by done. right. by exists g.
Qed.

Lemma for_each_relax_mono n cur cs gc l sr nodes sr' nodes' :
  g_score sr !! cur = Some gc ->
  for_each (relax n cur cs) (sr, nodes) l = Ok (sr', nodes') ->
  g_score sr' !! cur = Some gc /\
  forall k g, g_score sr' !! k = Some g ->
    g_score sr !! k = None \/ exists g0, g_score sr !! k = Some g0 /\ g <= g0.
Proof.
  revert sr nodes. induction l as [|a l IH]; intros sr nodes Hgc Hf.
  - injection Hf as <- <-. split; [done|]. intros k g Hk. right. by exists g.
  - rewrite for_each_cons in Hf. apply bind_Ok in Hf as ([sr1 n1] & Hr & Hf).
    destruct (relax_mono _ _ _ _ _ _ _ _ _ Hgc Hr) as [Hgc1 Hm1].
    destruct (IH sr1 n1 Hgc1 Hf) as [Hgc' Hm']. split; [done|].
    intros k g Hk. destruct (Hm' k g Hk) as [Hnone|(g1 & Hg1 & Hle1)].
    + destruct (g_score sr !! k) as [g0|] eqn:Hk0; [|by left].
      destruct (g_score sr1 !! k) as [g1|] eqn:Hk1; [done|].
      exfalso. clear -Hr Hk0 Hk1.
      apply relax_cases in Hr as (nb & gc' & _ & _ & Hcase).
      destruct Hcase as [(-> & _ & _) | (h & _ & -> & _ & _)]; [congruence|].
      cbn [g_score] in Hk1. apply lookup_insert_None in Hk1 as [? _]. congruence.
    + destruct (Hm1 k g1 Hg1) as [Hnone|(g0 & Hg0 & Hle0)]; [by left|].
      right. exists g0. split; [done|lia].
Qed.

(** Expanding a state keeps the scores of the explored states optimal. *)
Lemma expand_step_optimal n root sr ex oex nodes sr' ex' nodes' :
  dir_inv n root sr ex -> lazy_inv n sr ex -> explored_optimal n root sr ex ->
  expand_step n sr ex oex nodes = Ok (Expanded sr' ex' nodes') ->
  explored_optimal n root sr' ex'.
Proof.
  intros Hd Hl Hopt He.
  destruct (expand_step_Expanded n _ _ _ _ _ _ _ He)
    as (f & cur & rest & acts & Hopen & _ & _ & -> & _ & Hf).
  assert (is_Some (g_score sr !! cur)) as [gc Hgc].
  { apply (inv_open _ _ _ _ Hd (f, cur)). rewrite Hopen. apply list_elem_of_here. }
  destruct (for_each_relax_mono n cur cur gc acts
              (mkSearch rest (came_from sr) (g_score sr)) _ _ _ Hgc Hf)
    as [Hgc' Hm].
  cbn [g_score] in Hm.
  intros k g Hk Hg j Hj.
  destruct (decide (k = cur)) as [->|Hne].
  - assert (g = gc) as -> by congruence.
    by eapply (pop_optimal n root sr ex f cur rest gc).
  - assert (k ∈ ex) as Hex by set_solver.
    destruct (Hm k g Hg) as [Hnone|(g0 & Hg0 & Hle)].
    + destruct (inv_explored _ _ _ _ Hd k Hex) as [g0 Hg0]. congruence.
    + pose proof (Hopt k g0 Hex Hg0 j Hj). lia.
Qed.

Lemma reachable_optimal n start st :
  valid_state n start -> reachable n start st ->
  explored_optimal n start (fwd st) (explored_forward st) /\
  explored_optimal n (goal_buffer n) (bwd st) (explored_backward st).
Proof.
  intros Hv Hr. induction Hr as [st Hst|st st' Hr IH Hne Hit].
  - destruct (initial_loop_state_shape n start st Hv Hst) as (h1 & h2 & ->).
    split; intros k g Hk; by apply elem_of_empty in Hk.
  - destruct IH as [Hof Hob].
    destruct (reachable_inv n start st Hv Hr) as [Hdf Hdb].
    destruct (reachable_lazy n start st Hv Hr) as (Hlf & Hlb & _).
    destruct (iteration_Continue n st st' Hne Hit)
      as (sr1 & ef1 & n1 & sr2 & eb2 & n2 & He1 & He2 & ->).
    cbn [fwd bwd explored_forward explored_backward]. split.
    + by eapply (expand_step_optimal n start (fwd st)).
    + by eapply (expand_step_optimal n (goal_buffer n) (bwd st)).
Qed.

(** The predecessor links lead from the root to a state in at most as many
    moves as its score. *)
Lemma chain_le n root sr ex k g :
  dir_inv n root sr ex -> g_score sr !! k = Some g ->
  exists j, j <= g /\ nsteps (legal_move n) j root k.
Proof.
  intros Hd. revert k. induction g as [g IH] using lt_wf_ind. intros k Hg.
  destruct (inv_g_came _ _ _ _ Hd k) as [[p|] Hc]; [by eexists| |].
  - destruct (inv_came_some _ _ _ _ Hd k p Hc) as (gp & gk & Hgp & Hgk & Hlt & Hm).
    assert (gk = g) as -> by congruence.
    destruct (IH gp Hlt p Hgp) as (j & Hj & Hsteps).
    exists (S j). split; [lia|]. by eapply nsteps_r.
  - rewrite (inv_came_none _ _ _ _ Hd k Hc). exists 0. split; [lia|constructor].
Qed.

Lemma explored_shortest n root sr ex k :
  dir_inv n root sr ex -> explored_optimal n root sr ex -> k ∈ ex ->
  exists g, g_score sr !! k = Some g /\ shortest n root k g.
Proof.
  intros Hd Hopt Hex. destruct (inv_explored _ _ _ _ Hd k Hex) as [g Hg].
  exists g. split; [done|].
  destruct (chain_le n root sr ex k g Hd Hg) as (j & Hj & Hsteps).
  pose proof (Hopt k g Hex Hg j Hsteps) as Hle.
  assert (j = g) as -> by lia. split; [done|]. by apply Hopt.
Qed.

(** X21. In both directions the score of an explored state is the least
    number of legal moves that lead to it from the root of the direction:
    at the head of the main loop after any number of iterations, every
    state of [explored_forward] has in [g_score_forward] its shortest
    distance from the start state, and every state of [explored_backward]
    has in [g_score_backward] its shortest distance from the goal. *)
Theorem explored_scores_shortest (n k : nat) (start : ndarray)
    (st : loop_state) :
  valid_state n start -> state_after n start k = Some st ->
  (forall s, s ∈ explored_forward st ->
     exists g, g_score (fwd st) !! s = Some g /\ shortest n start s g) /\
  (forall s, s ∈ explored_backward st ->
     exists g, g_score (bwd st) !! s = Some g /\
               shortest n (goal_buffer n) s g).
Proof.
  intros Hv Hst. apply state_after_reachable in Hst.
  destruct (reachable_inv n start st Hv Hst) as [Hdf Hdb].
  destruct (reachable_optimal n start st Hv Hst) as [Hof Hob].
  split; intros s Hs; by eapply explored_shortest.
Qed.

Lemma explored_scores_shortest_witness :
  (forall s, s ∈ explored_forward stale_state ->
     exists g, g_score (fwd stale_state) !! s = Some g /\
               shortest 3 stale_start s g) /\
  (forall s, s ∈ explored_backward stale_state ->
     exists g, g_score (bwd stale_state) !! s = Some g /\
               shortest 3 (goal_buffer 3) s g).
Proof.
  apply (explored_scores_shortest 3 18 stale_start stale_state);
    [decide_valid | vm_compute; reflexivity].
Defined.

(** ** The returned path and its meeting node *)

Lemma expand_step_Meeting n sr ex oex nodes m sr' ex' :
  expand_step n sr ex oex nodes = Ok (Meeting m sr' ex') ->
  exists f rest,
    open_set sr = (f, m) :: rest /\ m ∈ oex /\
    sr' = mkSearch rest (came_from sr) (g_score sr) /\ ex' = ex ∪ {[ m ]}.
Proof.
  unfold expand_step. intros Hs.
  apply bind_Ok in Hs as ([[f cur] rest] & Hpop & Hs).
  apply bind_Ok in Hs as (cs & Hcs & Hs).
  destruct (decide (cur ∈ oex)) as [Hmeet|Hmeet];
    [rewrite bool_decide_true in Hs by done
    |rewrite bool_decide_false in Hs by done].
  - injection Hs as <- <- <-. exists f, rest. repeat split; try done.
    unfold heappop in Hpop. destruct (open_set sr); by simplify_eq.
  - apply bind_Ok in Hs as (acts & _ & Hs).
    apply bind_Ok in Hs as ([sr1 nodes1] & _ & Hs). discriminate.
Qed.

Lemma iteration_Break n st m st' :
  nonempty (open_set (fwd st)) && nonempty (open_set (bwd st)) = true ->
  iteration n st = Ok (Break m st') ->
  (exists sr ef,
     expand_step n (fwd st) (explored_forward st) (explored_backward st)
       (nodes_evaluated st) = Ok (Meeting m sr ef) /\
     st' = mkLoop sr (bwd st) ef (explored_backward st) (nodes_evaluated st)) \/
  (exists sr1 ef1 n1 sr2 eb2,
     expand_step n (fwd st) (explored_forward st) (explored_backward st)
       (nodes_evaluated st) = Ok (Expanded sr1 ef1 n1) /\
     expand_step n (bwd st) (explored_backward st) ef1 n1
       = Ok (Meeting m sr2 eb2) /\
     st' = mkLoop sr1 sr2 ef1 eb2 n1).
Proof.
  intros Hne Hit. apply andb_true_iff in Hne as [Hnf Hnb].
  unfold iteration in Hit. rewrite Hnf in Hit.
  apply bind_Ok in Hit as (r1 & Hr1 & Hit).
  apply bind_Ok in Hr1 as (s1 & Hs1 & Hr1).
  destruct s1 as [m1 sr1 ef1 | sr1 ef1 n1]; injection Hr1 as <-.
  - injection Hit as <- <-. left. eauto.
  - cbn [bwd nodes_evaluated explored_backward explored_forward] in Hit.
    rewrite Hnb in Hit.
    apply bind_Ok in Hit as (s2 & Hs2 & Hit).
    destruct s2 as [m2 sr2 eb2 | sr2 eb2 n2]; [|discriminate].
    injection Hit as <- <-. cbn [fwd] in *. right. eauto 10.
Qed.

(** The walk along the predecessors of a state visits at most as many
    states as its score plus one. *)
Lemma walk_length n root sr ex fuel k g p :
  dir_inv n root sr ex -> g_score sr !! k = Some g ->
  walk fuel (came_from sr) (Some k) = Some p ->
  head p = Some k /\ length p <= g + 1.
Proof.
  intros Hd. revert k g p. induction fuel as [|fuel IH]; intros k g p Hg Hw;
    [discriminate|].
  cbn [walk] in Hw. unfold dict_get in Hw.
  destruct (came_from sr !! k) as [[p'|]|] eqn:Hc.
  - destruct (inv_came_some _ _ _ _ Hd k p' Hc)
      as (gp & gk & Hgp & Hgk & Hlt & _).
    assert (gk = g) as -> by congruence.
    destruct (walk fuel (came_from sr) (Some p')) as [q|] eqn:Hq; [|discriminate].
    injection Hw as <-. destruct (IH p' gp q Hgp Hq) as [_ Hlen].
    split; [done|]. simpl. lia.
  - rewrite walk_None in Hw. injection Hw as <-. split; [done|]. simpl. lia.
  - rewrite walk_None in Hw. injection Hw as <-. split; [done|]. simpl. lia.
Qed.

Lemma walk_pred_length n root sr ex fuel k g p :
  dir_inv n root sr ex -> g_score sr !! k = Some g ->
  walk fuel (came_from sr) (dict_get (came_from sr) k) = Some p ->
  length p <= g.
Proof.
  intros Hd Hg Hw. unfold dict_get in Hw.
  destruct (came_from sr !! k) as [[p'|]|] eqn:Hc.
  - destruct (inv_came_some _ _ _ _ Hd k p' Hc)
      as (gp & gk & Hgp & Hgk & Hlt & _).
    assert (gk = g) as -> by congruence.
    destruct (walk_length n root sr ex fuel p' gp p Hd Hgp Hw) as [_ Hlen]. lia.
  - rewrite walk_None in Hw. injection Hw as <-. simpl. lia.
  - rewrite walk_None in Hw. injection Hw as <-. simpl. lia.
Qed.

(** At a meeting both scores of the meeting node are shortest distances. *)
Lemma break_scores n start st m st' :
  valid_state n start -> reachable n start st ->
  nonempty (open_set (fwd st)) && nonempty (open_set (bwd st)) = true ->
  iteration n st = Ok (Break m st') ->
  exists gf gb,
    g_score (fwd st') !! m = Some gf /\ g_score (bwd st') !! m = Some gb /\
    (forall j, nsteps (legal_move n) j start m -> gf <= j) /\
    (forall j, nsteps (legal_move n) j (goal_buffer n) m -> gb <= j).
Proof.
  intros Hv Hr Hne Hit.
  destruct (reachable_inv n start st Hv Hr) as [Hdf Hdb].
  destruct (reachable_lazy n start st Hv Hr) as (Hlf & Hlb & _).
  destruct (reachable_optimal n start st Hv Hr) as [Hof Hob].
  destruct (iteration_Break n st m st' Hne Hit)
    as [(sr & ef & He & ->)|(sr1 & ef1 & n1 & sr2 & eb2 & He1 & He2 & ->)].
  - destruct (expand_step_Meeting n _ _ _ _ _ _ _ He)
      as (f & rest & Hopen & Hm & -> & ->).
    cbn [fwd bwd g_score].
    assert (is_Some (g_score (fwd st) !! m)) as [gf Hgf].
    { apply (inv_open _ _ _ _ Hdf (f, m)). rewrite Hopen. apply list_elem_of_here. }
    destruct (inv_explored _ _ _ _ Hdb m Hm) as [gb Hgb].
    exists gf, gb. split; [done|]. split; [done|]. split.
    + by eapply (pop_optimal n start (fwd st)).
    + intros j Hj. by eapply Hob.
  - destruct (expand_step_Meeting n _ _ _ _ _ _ _ He2)
      as (f & rest & Hopen & Hm & -> & ->).
    cbn [fwd bwd g_score].
    apply andb_true_iff in Hne as [Hnf Hnb].
    destruct (expand_step_inv n start (fwd st) (explored_forward st)
                (explored_backward st) (nodes_evaluated st) Hdf Hnf)
      as (r & Hr1 & Hpost).
    rewrite He1 in Hr1. injection Hr1 as <-.
    destruct Hpost as (_ & Hdf1 & _).
    pose proof (expand_step_optimal n start _ _ _ _ _ _ _ Hdf Hlf Hof He1) as Hof1.
    destruct (inv_explored _ _ _ _ Hdf1 m Hm) as [gf Hgf].
    assert (is_Some (g_score (bwd st) !! m)) as [gb Hgb].
    { apply (inv_open _ _ _ _ Hdb (f, m)). rewrite Hopen. apply list_elem_of_here. }
    exists gf, gb. split; [done|]. split; [done|]. split.
    + intros j Hj. by eapply Hof1.
    + by eapply (pop_optimal n (goal_buffer n) (bwd st)).
Qed.

Lemma main_loop_through_meeting n start fuel st path nodes :
  valid_state n start -> reachable n start st ->
  main_loop n fuel st = Returned (Some path) nodes ->
  exists m, m ∈ path /\
    forall j1 j2,
      nsteps (legal_move n) j1 start m ->
      nsteps (legal_move n) j2 m (goal_buffer n) ->
      length path - 1 <= j1 + j2.
Proof.
  intros Hv. revert st. induction fuel as [|fuel IH]; intros st Hr Hrun; [done|].
  cbn [main_loop] in Hrun.
  destruct (nonempty (open_set (fwd st)) && nonempty (open_set (bwd st)))
    eqn:Hne; [|done].
  pose proof (reachable_inv n start st Hv Hr) as Hinv.
  apply andb_true_iff in Hne as Hne'. destruct Hne' as [Hnf Hnb].
  destruct (iteration_inv n start st Hinv Hnf Hnb) as (r & Hit & Hpost).
  rewrite Hit in Hrun. destruct r as [m st'|st'].
  - destruct Hpost as ([Hdf Hdb] & _ & _).
    destruct (break_scores n start st m st' Hv Hr Hne Hit)
      as (gf & gb & Hgf & Hgb & Hof & Hob).
    unfold reconstruct in Hrun.
    destruct (walk fuel (came_from (fwd st')) (Some m)) as [pf|] eqn:Hpf;
      [|done].
    destruct (walk fuel (came_from (bwd st')) (dict_get (came_from (bwd st')) m))
      as [pb|] eqn:Hpb; [|done].
    injection Hrun as <- _.
    destruct (walk_length n start _ _ fuel m gf pf Hdf Hgf Hpf) as [Hhd Hlf].
    pose proof (walk_pred_length n _ _ _ fuel m gb pb Hdb Hgb Hpb) as Hlb.
    exists m. split.
    + apply elem_of_app. left. apply elem_of_reverse.
      destruct pf as [|x pf]; [discriminate|]. injection Hhd as ->.
      apply list_elem_of_here.
    + intros j1 j2 Hj1 Hj2.
      assert (valid_state n m) as Hvm by (eapply (inv_g_valid _ _ _ _ Hdf); eauto).
      apply (nsteps_legal_sym n j2 m _ Hvm) in Hj2.
      pose proof (Hof j1 Hj1). pose proof (Hob j2 Hj2).
      rewrite length_app, length_reverse. lia.
  - destruct Hpost as [_ _]. apply (IH st'); [|done].
    by eapply reachable_step.
Qed.

(** X22. A returned path is a shortest one among the paths through its
    meeting node: some state [m] of the path is such that no sequence of
    legal moves from the start state to [m] followed by one from [m] to
    the goal has fewer moves than the path. *)
Theorem bidirectional_a_star_shortest_through_meeting (n fuel : nat)
    (start : ndarray) (path : list key) (nodes : nat) :
  valid_state n start ->
  bidirectional_a_star n fuel start = Returned (Some path) nodes ->
  exists m, m ∈ path /\
    forall j1 j2,
      nsteps (legal_move n) j1 start m ->
      nsteps (legal_move n) j2 m (goal_buffer n) ->
      length path - 1 <= j1 + j2.
Proof.
  intros Hv Hrun. unfold bidirectional_a_star in Hrun.
  destruct (initial_loop_state n start) as [st|e] eqn:Hst; [|done].
  apply (main_loop_through_meeting n start fuel st path nodes); [done| |done].
  by constructor.
Qed.

Lemma bidirectional_a_star_shortest_through_meeting_witness :
  exists m, m ∈ [[1;2;3;4;0;6;7;5;8]; [1;2;3;4;5;6;7;0;8];
                 [1;2;3;4;5;6;7;8;0]]%Z /\
    forall j1 j2,
      nsteps (legal_move 3) j1 [1;2;3;4;0;6;7;5;8]%Z m ->
      nsteps (legal_move 3) j2 m (goal_buffer 3) ->
      length [[1;2;3;4;0;6;7;5;8]; [1;2;3;4;5;6;7;0;8];
              [1;2;3;4;5;6;7;8;0]]%Z - 1 <= j1 + j2.
Proof.
  apply (bidirectional_a_star_shortest_through_meeting 3 20
           [1;2;3;4;0;6;7;5;8]%Z _ 10);
    [decide_valid | vm_compute; reflexivity].
Defined.

(** ** The cost is never zero *)

(** The blank of a valid state on a board of dimension at least 2 has two
    moves with different results. *)
Lemma two_neighbours n s :
  2 <= n -> valid_state n s ->
  exists s1 s2, legal_move n s s1 /\ legal_move n s s2 /\ s1 <> s2.
Proof.
  intros Hn Hv. pose proof (valid_length n s Hv) as Hlen.
  destruct (valid_blank n s Hv) as (i & Hil & Hi & Hz & _).
  pose proof (available_actions_moves n s _ _ Hz) as Hacts.
  destruct (coords_lt n i Hil) as [Hx Hy].
  pose proof (moves_at_length n _ _ Hn Hx Hy) as Hlen2.
  pose proof (moves_at_NoDup n (i / n) (i mod n)) as Hnd.
  destruct (moves_at n (i / n) (i mod n)) as [|a1 [|a2 l]] eqn:Hm;
    [simpl in Hlen2; lia..|].
  assert (a1 ≠ a2) as Hne.
  { apply NoDup_cons in Hnd as [Hnin _]. intros ->. apply Hnin.
    apply list_elem_of_here. }
  assert (a1 ∈ moves_at n (i / n) (i mod n)) as H1
    by (rewrite Hm; apply list_elem_of_here).
  assert (a2 ∈ moves_at n (i / n) (i mod n)) as H2
    by (rewrite Hm; apply list_elem_of_further, list_elem_of_here).
  destruct (move_spec n s i a1 Hv Hi H1)
    as (t1 & v1 & Ha1 & _ & Ht1 & Hti1 & Hs1 & Hv1 & Hdo1).
  destruct (move_spec n s i a2 Hv Hi H2)
    as (t2 & v2 & Ha2 & _ & Ht2 & Hti2 & Hs2 & Hv2 & Hdo2).
  exists (<[t1 := 0%Z]> (<[i := v1]> s)), (<[t2 := 0%Z]> (<[i := v2]> s)).
  split; [|split].
  - exists (moves_at n (i / n) (i mod n)), a1. by rewrite Hm in *.
  - exists (moves_at n (i / n) (i mod n)), a2. by rewrite Hm in *.
  - intros Heq. assert (t1 <> t2) as Hne12 by (intros ->; congruence).
    assert (<[t1 := 0%Z]> (<[i := v1]> s) !! t1 = Some 0%Z) as Hl1.
    { rewrite swap_lookup by lia. by rewrite decide_True. }
    rewrite Heq, swap_lookup in Hl1 by lia.
    rewrite decide_False, decide_False in Hl1 by done. congruence.
Qed.

Lemma two_entries (l : list entry) e1 e2 :
  e1 ∈ l -> e2 ∈ l -> e1 <> e2 -> 2 <= length l.
Proof.
  intros H1 H2 Hne. destruct l as [|a [|b l]]; simpl; [|exfalso|lia].
  - by apply elem_of_nil in H1.
  - apply list_elem_of_singleton in H1, H2. congruence.
Qed.

(** The first expansion of a direction: the root is explored, every
    entry of the frontier has priority one plus the heuristic of its
    state, and every neighbour of the root has an entry. *)
Lemma first_expansion_frontier n root h oex sr1 ex1 n0 n1 :
  valid_state n root -> manhattan_distance n root = Ok h ->
  expand_step n (mkSearch [(h, root)] {[ root := None ]} {[ root := 0 ]})
    ∅ oex n0 = Ok (Expanded sr1 ex1 n1) ->
  ex1 = {[ root ]} /\ dir_inv n root sr1 ex1 /\ lazy_inv n sr1 ex1 /\
  (forall e, e ∈ open_set sr1 ->
     exists he, manhattan_distance n e.2 = Ok he /\ e.1 = (1 + he)%Z) /\
  (forall nb, legal_move n root nb ->
     exists e, e ∈ open_set sr1 /\ e.2 = nb).
Proof.
  intros Hv Hh He.
  set (sr0 := mkSearch [(h, root)] {[ root := None ]} {[ root := 0 ]}) in *.
  destruct (a_star_search_inv n root root true Hv) as (h' & Hh' & _ & Hd0).
  assert (h' = h) as -> by congruence. fold sr0 in Hd0.
  pose proof (a_star_search_lazy n h root Hh) as Hl0. fold sr0 in Hl0.
  pose proof (expand_step_lazy n root _ _ _ _ _ _ _ Hd0 Hl0 He) as Hl1.
  destruct (expand_step_inv n root sr0 ∅ oex n0 Hd0 eq_refl) as (r & Hr & Hpost).
  rewrite He in Hr. injection Hr as <-. destruct Hpost as (_ & Hd1 & _).
  destruct (expand_step_Expanded n _ _ _ _ _ _ _ He)
    as (f & cur & rest & acts & Hopen & _ & _ & -> & _ & Hf).
  cbn [open_set sr0] in Hopen. injection Hopen as <- <- <-.
  assert ((∅ : gset key) ∪ {[root]} = {[root]}) as Hex by set_solver.
  rewrite Hex in *. split; [done|]. split; [done|]. split; [done|].
  assert (forall e, e ∈ open_set sr1 ->
            exists he, manhattan_distance n e.2 = Ok he /\ e.1 = (1 + he)%Z)
    as Hentries.
  { intros e Hin.
    destruct (for_each_relax_entries _ _ _ _ _ _ _ _ Hf e Hin)
      as [Hnil|(gc & he & Hgc & Hhe & Hf1)].
    - by apply elem_of_nil in Hnil.
    - unfold sr0 in Hgc. cbn [g_score] in Hgc.
      rewrite lookup_singleton_eq in Hgc.
      injection Hgc as <-. exists he. split; [done|]. rewrite Hf1. simpl. lia. }
  split; [done|].
  pose proof (inv_root_g _ _ _ _ Hd1) as Hg0.
  destruct (lz_settled _ _ _ Hl1 root 0 Hg0) as [(hs & Hhs & Hin)|[_ Hnbs]].
  { destruct (Hentries _ Hin) as (he & Hhe & Hf1). cbn [fst snd] in Hhe, Hf1.
    assert (he = hs) as -> by congruence. lia. }
  intros nb Hm. destruct (Hnbs nb Hm) as (gn & Hgn & _).
  destruct (lz_settled _ _ _ Hl1 nb gn Hgn) as [(hn & _ & Hin)|[Hexn _]].
  - by eexists.
  - pose proof (legal_move_ne n root nb Hv Hm). set_solver.
Qed.

(** The first forward expansion pushes at least two entries. *)
Lemma first_expansion n start h sr1 ef1 n1 :
  2 <= n -> valid_state n start -> manhattan_distance n start = Ok h ->
  expand_step n (mkSearch [(h, start)] {[ start := None ]} {[ start := 0 ]})
    ∅ ∅ 0 = Ok (Expanded sr1 ef1 n1) ->
  2 <= n1.
Proof.
  intros Hn Hv Hh He.
  pose proof (expand_step_count n _ _ _ _ _ _ _ He) as Hcount.
  cbn [open_set length] in Hcount.
  destruct (first_expansion_frontier n start h ∅ sr1 ef1 0 n1 Hv Hh He)
    as (_ & _ & _ & _ & Hq).
  destruct (two_neighbours n start Hn Hv) as (s1 & s2 & Hm1 & Hm2 & Hne).
  destruct (Hq s1 Hm1) as (e1 & Hin1 & He1).
  destruct (Hq s2 Hm2) as (e2 & Hin2 & He2).
  assert (2 <= length (open_set sr1)); [|lia].
  apply (two_entries _ e1 e2); [done..|]. congruence.
Qed.

Lemma relax_nodes_le n cur cs sr nodes a sr' nodes' :
  relax n cur cs (sr, nodes) a = Ok (sr', nodes') -> nodes <= nodes'.
Proof.
  intros Hr.
  destruct (relax_cases n cur cs sr nodes a sr' nodes' Hr)
    as (nb & gc & _ & _ & [(_ & -> & _)|(h & _ & _ & -> & _)]); lia.
Qed.

Lemma for_each_relax_nodes_le n cur cs l sr nodes sr' nodes' :
  for_each (relax n cur cs) (sr, nodes) l = Ok (sr', nodes') -> nodes <= nodes'.
Proof.
  revert sr nodes. induction l as [|a l IH]; intros sr nodes Hf.
  - injection Hf as _ ->. lia.
  - rewrite for_each_cons in Hf. apply bind_Ok in Hf as ([sr1 n1] & Hr & Hf).
    apply relax_nodes_le in Hr. apply IH in Hf. lia.
Qed.

Lemma expand_step_nodes_le n sr ex oex nodes sr' ex' nodes' :
  expand_step n sr ex oex nodes = Ok (Expanded sr' ex' nodes') ->
  nodes <= nodes'.
Proof.
  intros He.
  destruct (expand_step_Expanded n _ _ _ _ _ _ _ He)
    as (f & cur & rest & acts & _ & _ & _ & _ & _ & Hf).
  by apply for_each_relax_nodes_le in Hf.
Qed.

(** The counter never goes down. *)
Lemma main_loop_nodes_le n fuel st p nodes :
  main_loop n fuel st = Returned p nodes -> nodes_evaluated st <= nodes.
Proof.
  revert st. induction fuel as [|fuel IH]; intros st Hrun; [done|].
  cbn [main_loop] in Hrun.
  destruct (nonempty (open_set (fwd st)) && nonempty (open_set (bwd st)))
    eqn:Hne.
  - destruct (iteration n st) as [[m st'|st']|e] eqn:Hit; [| |done].
    + assert (nodes = nodes_evaluated st') as ->.
      { unfold reconstruct in Hrun.
        destruct (walk fuel _ (Some m)); [|done].
        destruct (walk fuel _ (dict_get _ m)); [|done]. by injection Hrun. }
      destruct (iteration_Break n st m st' Hne Hit)
        as [(sr & ef & _ & ->)|(sr1 & ef1 & n1 & sr2 & eb2 & He1 & _ & ->)];
        cbn [nodes_evaluated]; [lia|].
      by apply expand_step_nodes_le in He1.
    + destruct (iteration_Continue n st st' Hne Hit)
        as (sr1 & ef1 & n1 & sr2 & eb2 & n2 & He1 & He2 & ->).
      apply expand_step_nodes_le in He1, He2. apply IH in Hrun.
      cbn [nodes_evaluated] in Hrun. lia.
  - injection Hrun as _ <-. lia.
Qed.

(** X23. On a board of dimension at least 2 the search never returns a
    cost below 2, whether it finds a path or not: the first forward
    expansion pushes at least two neighbours of the start state.  So the
    branch of [main] for a cost of 0 is never taken. *)
Theorem bidirectional_a_star_cost_positive (n fuel : nat) (start : ndarray)
    (full_path : option (list key)) (nodes : nat) :
  2 <= n -> valid_state n start ->
  bidirectional_a_star n fuel start = Returned full_path nodes ->
  2 <= nodes.
Proof.
  intros Hn Hv Hrun. unfold bidirectional_a_star in Hrun.
  destruct (initial_loop_state n start) as [st|e] eqn:Hst; [|done].
  destruct (initial_loop_state_shape n start st Hv Hst) as (h1 & h2 & ->).
  assert (manhattan_distance n start = Ok h1) as Hh1.
  { destruct (a_star_search_inv n start (goal_buffer n) true Hv)
      as (h & Hh & Heq & _).
    unfold initial_loop_state in Hst. rewrite goal_state_Ok in Hst by lia.
    cbn [mbind result_bind] in Hst. rewrite Heq in Hst.
    cbn [mbind result_bind] in Hst.
    apply bind_Ok in Hst as (sb & _ & Hst). by injection Hst as <-. }
  destruct fuel as [|fuel]; [done|]. cbn [main_loop] in Hrun.
  cbn [fwd bwd open_set nonempty andb] in Hrun.
  match type of Hrun with
  | context [iteration n ?s] => set (st0 := s) in *
  end.
  assert (nonempty (open_set (fwd st0)) && nonempty (open_set (bwd st0)) = true)
    as Hne by done.
  destruct (iteration n st0) as [[m st'|st']|e] eqn:Hit; [| |done].
  - assert (nodes = nodes_evaluated st') as ->.
    { unfold reconstruct in Hrun.
      destruct (walk fuel _ (Some m)); [|done].
      destruct (walk fuel _ (dict_get _ m)); [|done]. by injection Hrun. }
    destruct (iteration_Break n st0 m st' Hne Hit)
      as [(sr & ef & He & ->)|(sr1 & ef1 & n1 & sr2 & eb2 & He1 & _ & ->)].
    + destruct (expand_step_Meeting n _ _ _ _ _ _ _ He) as (f & rest & _ & Hm & _).
      cbn [explored_backward st0] in Hm. by apply elem_of_empty in Hm.
    + cbn [nodes_evaluated]. by eapply (first_expansion n start h1).
  - destruct (iteration_Continue n st0 st' Hne Hit)
      as (sr1 & ef1 & n1 & sr2 & eb2 & n2 & He1 & He2 & ->).
    pose proof (first_expansion n start h1 _ _ _ Hn Hv Hh1 He1).
    apply expand_step_nodes_le in He2. apply main_loop_nodes_le in Hrun.
    cbn [nodes_evaluated] in Hrun. lia.
Qed.

Lemma bidirectional_a_star_cost_positive_witness :
  bidirectional_a_star 3 20 [1;2;3;4;0;6;7;5;8]%Z =
    Returned (Some [[1;2;3;4;0;6;7;5;8]; [1;2;3;4;5;6;7;0;8];
                    [1;2;3;4;5;6;7;8;0]]%Z) 10 /\
  2 <= 10.
Proof.
  split; [vm_compute; reflexivity|].
  apply (bidirectional_a_star_cost_positive 3 20 [1;2;3;4;0;6;7;5;8]%Z
           (Some [[1;2;3;4;0;6;7;5;8]; [1;2;3;4;5;6;7;0;8];
                  [1;2;3;4;5;6;7;8;0]]%Z) 10);
    [lia | decide_valid | vm_compute; reflexivity].
Defined.

(** ** The returned path visits no state twice *)

Lemma for_each_relax_pred (n : nat) (cur : key) (cs : ndarray)
    (l : list Action) (sr : search) (nodes : nat) (sr' : search)
    (nodes' : nat) (ex : gset key) :
  cur ∈ ex -> pred_explored sr ex ->
  for_each (relax n cur cs) (sr, nodes) l = Ok (sr', nodes') ->
  pred_explored sr' ex.
Proof.
  intros Hcur. revert sr nodes. induction l as [|a l IH]; intros sr nodes Hp Hf.
  - by injection Hf as <- _.
  - rewrite for_each_cons in Hf. apply bind_Ok in Hf as ([sr1 n1] & Hr & Hf).
    apply (IH sr1 n1); [|done].
    destruct (relax_cases n cur cs sr nodes a sr1 n1 Hr)
      as (nb & gc & _ & _ & [(-> & _ & _)|(h & _ & -> & _ & _)]); [done|].
    intros k p Hk. cbn [came_from] in Hk.
    destruct (decide (nb = k)) as [<-|Hne].
    + rewrite lookup_insert_eq in Hk. by injection Hk as <-.
    + rewrite lookup_insert_ne in Hk by done. by eapply Hp.
Qed.

Lemma expand_step_pred n sr ex oex nodes sr' ex' nodes' :
  pred_explored sr ex ->
  expand_step n sr ex oex nodes = Ok (Expanded sr' ex' nodes') ->
  pred_explored sr' ex'.
Proof.
  intros Hp He.
  destruct (expand_step_Expanded n _ _ _ _ _ _ _ He)
    as (f & cur & rest & acts & _ & _ & _ & -> & _ & Hf).
  assert (cur ∈ ex ∪ {[cur]}) as Hcur by set_solver.
  apply (for_each_relax_pred n cur cur acts _ _ _ _ _ Hcur) in Hf; [done|].
  intros k p Hk. cbn [came_from] in Hk. specialize (Hp k p Hk). set_solver.
Qed.

Lemma reachable_pred n start st :
  valid_state n start -> reachable n start st ->
  pred_explored (fwd st) (explored_forward st) /\
  pred_explored (bwd st) (explored_backward st).
Proof.
  intros Hv Hr. induction Hr as [st Hst|st st' Hr IH Hne Hit].
  - destruct (initial_loop_state_shape n start st Hv Hst) as (h1 & h2 & ->).
    split; intros k p Hk; cbn [fwd bwd came_from] in Hk;
      apply lookup_singleton_Some in Hk as [_ [=]].
  - destruct IH as [Hpf Hpb].
    destruct (iteration_Continue n st st' Hne Hit)
      as (sr1 & ef1 & n1 & sr2 & eb2 & n2 & He1 & He2 & ->).
    cbn [fwd bwd explored_forward explored_backward].
    split; [exact (expand_step_pred n _ _ _ _ _ _ _ Hpf He1)
           |exact (expand_step_pred n _ _ _ _ _ _ _ Hpb He2)].
Qed.

(** The state of the loop at a meeting: the predecessors are explored and
    the meeting node is the only state explored in both directions. *)
Lemma break_explored n start st m st' :
  valid_state n start -> reachable n start st ->
  nonempty (open_set (fwd st)) && nonempty (open_set (bwd st)) = true ->
  iteration n st = Ok (Break m st') ->
  pred_explored (fwd st') (explored_forward st') /\
  pred_explored (bwd st') (explored_backward st') /\
  forall x, x ∈ explored_forward st' -> x ∈ explored_backward st' -> x = m.
Proof.
  intros Hv Hr Hne Hit.
  destruct (reachable_pred n start st Hv Hr) as [Hpf Hpb].
  destruct (reachable_lazy n start st Hv Hr) as (_ & _ & Hdisj).
  destruct (iteration_Break n st m st' Hne Hit)
    as [(sr & ef & He & ->)|(sr1 & ef1 & n1 & sr2 & eb2 & He1 & He2 & ->)].
  - destruct (expand_step_Meeting n _ _ _ _ _ _ _ He)
      as (f & rest & _ & Hm & -> & ->).
    cbn [fwd bwd explored_forward explored_backward]. split; [|split; [done|]].
    + intros k p Hk. cbn [came_from] in Hk. specialize (Hpf k p Hk). set_solver.
    + set_solver.
  - destruct (expand_step_Meeting n _ _ _ _ _ _ _ He2)
      as (f & rest & _ & Hm & -> & ->).
    pose proof (expand_step_pred n _ _ _ _ _ _ _ Hpf He1) as Hpf1.
    destruct (expand_step_Expanded n _ _ _ _ _ _ _ He1)
      as (f1 & cur & rest1 & acts & _ & _ & Hcur & -> & _ & _).
    cbn [fwd bwd explored_forward explored_backward]. split; [done|]. split.
    + intros k p Hk. cbn [came_from] in Hk. specialize (Hpb k p Hk). set_solver.
    + set_solver.
Qed.

(** The walk along the predecessors of [k]: after [k] only explored states
    with smaller scores, and no state twice. *)
Lemma walk_chain n root sr ex fuel k g p :
  dir_inv n root sr ex -> pred_explored sr ex -> g_score sr !! k = Some g ->
  walk fuel (came_from sr) (Some k) = Some p ->
  exists q, p = k :: q /\ NoDup p /\
    forall x, x ∈ q ->
      x ∈ ex /\ exists gx, g_score sr !! x = Some gx /\ gx < g.
Proof.
  intros Hd Hp. revert k g p. induction fuel as [|fuel IH]; intros k g p Hg Hw;
    [discriminate|].
  cbn [walk] in Hw. unfold dict_get in Hw.
  destruct (came_from sr !! k) as [[p'|]|] eqn:Hc.
  - destruct (inv_came_some _ _ _ _ Hd k p' Hc)
      as (gp & gk & Hgp & Hgk & Hlt & _).
    assert (gk = g) as -> by congruence.
    destruct (walk fuel (came_from sr) (Some p')) as [q|] eqn:Hq; [|discriminate].
    injection Hw as <-.
    destruct (IH p' gp q Hgp Hq) as (q' & -> & Hnd & Hall).
    assert (forall x, x ∈ p' :: q' ->
              x ∈ ex /\ exists gx, g_score sr !! x = Some gx /\ gx < g) as Hall'.
    { intros x Hx. apply elem_of_cons in Hx as [->|Hx].
      - split; [by eapply Hp|]. by exists gp.
      - destruct (Hall x Hx) as (Hex & gx & Hgx & Hlt').
        split; [done|]. exists gx. split; [done|lia]. }
    exists (p' :: q'). split; [done|]. split; [|done].
    apply NoDup_cons. split; [|done]. intros Hin.
    destruct (Hall' k Hin) as (_ & gx & Hgx & Hlt'').
    assert (gx = g) by congruence. lia.
  - rewrite walk_None in Hw. injection Hw as <-. exists []. split; [done|].
    split; [apply NoDup_singleton|]. intros x Hx. by apply elem_of_nil in Hx.
  - rewrite walk_None in Hw. injection Hw as <-. exists []. split; [done|].
    split; [apply NoDup_singleton|]. intros x Hx. by apply elem_of_nil in Hx.
Qed.

Lemma walk_pred_chain n root sr ex fuel k g p :
  dir_inv n root sr ex -> pred_explored sr ex -> g_score sr !! k = Some g ->
  walk fuel (came_from sr) (dict_get (came_from sr) k) = Some p ->
  NoDup p /\
  forall x, x ∈ p -> x ∈ ex /\ exists gx, g_score sr !! x = Some gx /\ gx < g.
Proof.
  intros Hd Hp Hg Hw. unfold dict_get in Hw.
  destruct (came_from sr !! k) as [[p'|]|] eqn:Hc.
  - destruct (inv_came_some _ _ _ _ Hd k p' Hc)
      as (gp & gk & Hgp & Hgk & Hlt & _).
    assert (gk = g) as -> by congruence.
    destruct (walk_chain n root sr ex fuel p' gp p Hd Hp Hgp Hw)
      as (q & -> & Hnd & Hall).
    split; [done|]. intros x Hx. apply elem_of_cons in Hx as [->|Hx].
    + split; [by eapply Hp|]. by exists gp.
    + destruct (Hall x Hx) as (Hex & gx & Hgx & Hlt').
      split; [done|]. exists gx. split; [done|lia].
  - rewrite walk_None in Hw. injection Hw as <-.
    split; [constructor|]. intros x Hx. by apply elem_of_nil in Hx.
  - rewrite walk_None in Hw. injection Hw as <-.
    split; [constructor|]. intros x Hx. by apply elem_of_nil in Hx.
Qed.

Lemma main_loop_NoDup n start fuel st path nodes :
  valid_state n start -> reachable n start st ->
  main_loop n fuel st = Returned (Some path) nodes -> NoDup path.
Proof.
  intros Hv. revert st. induction fuel as [|fuel IH]; intros st Hr Hrun; [done|].
  cbn [main_loop] in Hrun.
  destruct (nonempty (open_set (fwd st)) && nonempty (open_set (bwd st)))
    eqn:Hne; [|done].
  pose proof (reachable_inv n start st Hv Hr) as Hinv.
  apply andb_true_iff in Hne as Hne'. destruct Hne' as [Hnf Hnb].
  destruct (iteration_inv n start st Hinv Hnf Hnb) as (r & Hit & Hpost).
  rewrite Hit in Hrun. destruct r as [m st'|st'].
  - destruct Hpost as ([Hdf Hdb] & [gf Hgf] & [gb Hgb]).
    destruct (break_explored n start st m st' Hv Hr Hne Hit)
      as (Hpf & Hpb & Honly).
    unfold reconstruct in Hrun.
    destruct (walk fuel (came_from (fwd st')) (Some m)) as [pf|] eqn:Hwf;
      [|done].
    destruct (walk fuel (came_from (bwd st')) (dict_get (came_from (bwd st')) m))
      as [pb|] eqn:Hwb; [|done].
    injection Hrun as <- _.
    destruct (walk_chain n start _ _ fuel m gf pf Hdf Hpf Hgf Hwf)
      as (qf & -> & Hndf & Hallf).
    destruct (walk_pred_chain n _ _ _ fuel m gb pb Hdb Hpb Hgb Hwb)
      as (Hndb & Hallb).
    apply NoDup_app. split; [by rewrite reverse_Permutation|]. split; [|done].
    intros x Hx Hxb. rewrite elem_of_reverse in Hx.
    destruct (Hallb x Hxb) as (Hexb & gx & Hgx & Hlt).
    apply elem_of_cons in Hx as [->|Hx].
    + assert (gx = gb) by congruence. lia.
    + destruct (Hallf x Hx) as (Hexf & _).
      rewrite (Honly x Hexf Hexb) in Hgx. assert (gx = gb) by congruence. lia.
  - destruct Hpost as [_ _]. apply (IH st'); [|done].
    by eapply reachable_step.
Qed.

(** X24. A returned path visits no state twice. *)
Theorem bidirectional_a_star_path_NoDup (n fuel : nat) (start : ndarray)
    (path : list key) (nodes : nat) :
  valid_state n start ->
  bidirectional_a_star n fuel start = Returned (Some path) nodes ->
  NoDup path.
Proof.
  intros Hv Hrun. unfold bidirectional_a_star in Hrun.
  destruct (initial_loop_state n start) as [st|e] eqn:Hst; [|done].
  apply (main_loop_NoDup n start fuel st path nodes); [done| |done].
  by constructor.
Qed.

Lemma bidirectional_a_star_path_NoDup_witness :
  NoDup [[1;2;3;4;0;6;7;5;8]; [1;2;3;4;5;6;7;0;8]; [1;2;3;4;5;6;7;8;0]]%Z.
Proof.
  apply (bidirectional_a_star_path_NoDup 3 20 [1;2;3;4;0;6;7;5;8]%Z _ 10);
    [decide_valid | vm_compute; reflexivity].
Defined.

(** ** A start state one move from the goal *)

Lemma manhattan_distance_zero_goal n s :
  valid_state n s -> manhattan_distance n s = Ok 0%Z -> s = goal_buffer n.
Proof.
  intros Hv Hmd. pose proof (valid_length _ _ Hv) as Hlen.
  assert (0 < n) as Hn by (by destruct Hv).
  rewrite manhattan_distance_total in Hmd by done. injection Hmd as Hz.
  pose proof (proj1 (Zsum_zero (cell_cost n s) (cells n) (cell_cost_nonneg n s)) Hz)
    as Hz'. clear Hz. rename Hz' into Hz.
  assert (forall i v, s !! i = Some v -> v = 0%Z \/ v = Z.of_nat (i + 1)) as Hcell.
  { intros i v Hi.
    assert (i < n * n) as Hil by (rewrite <- Hlen; by eapply lookup_lt_Some).
    destruct (coords_lt n i Hil) as [Hx Hy].
    specialize (Hz (i / n, i mod n) (proj2 (elem_of_cells _ _ _) (conj Hx Hy))).
    apply (cell_cost_zero n s _ _ v) in Hz; try done.
    - by rewrite coords_index in Hz.
    - by rewrite coords_index. }
  destruct (valid_blank n s Hv) as (b & Hbl & Hb & _ & Huniq).
  assert (b = n * n - 1) as ->.
  { destruct (lookup_lt_is_Some_2 s (n * n - 1)) as [v Hlast]; [lia|].
    destruct (Hcell _ _ Hlast) as [-> | ->]; [symmetry; by apply Huniq|].
    apply list_elem_of_lookup_2, (valid_elem n s _ Hv) in Hlast. lia. }
  apply list_eq. intros i. destruct (decide (i < n * n)) as [Hi|Hi].
  - rewrite goal_buffer_lookup by done.
    destruct (lookup_lt_is_Some_2 s i) as [v Hiv]; [lia|]. rewrite Hiv.
    case_bool_decide.
    + destruct (Hcell _ _ Hiv) as [-> | ->]; [|done].
      apply Huniq in Hiv. lia.
    + replace i with (n * n - 1) in Hiv by lia. congruence.
  - rewrite !lookup_ge_None_2; [done|rewrite goal_buffer_length; lia|lia].
Qed.

Lemma dir_root_unique n root sr ex k :
  dir_inv n root sr ex -> g_score sr !! k = Some 0 -> k = root.
Proof.
  intros Hd Hg. destruct (inv_g_came _ _ _ _ Hd k) as [[p|] Hc]; [by eexists| |].
  - destruct (inv_came_some _ _ _ _ Hd k p Hc) as (gp & gk & _ & Hgk & Hlt & _).
    assert (gk = 0) by congruence. lia.
  - by apply (inv_came_none _ _ _ _ Hd).
Qed.

Lemma iteration_steps_Continue n st sr1 ef1 n1 sr2 eb2 n2 :
  nonempty (open_set (fwd st)) = true -> nonempty (open_set (bwd st)) = true ->
  expand_step n (fwd st) (explored_forward st) (explored_backward st)
    (nodes_evaluated st) = Ok (Expanded sr1 ef1 n1) ->
  expand_step n (bwd st) (explored_backward st) ef1 n1
    = Ok (Expanded sr2 eb2 n2) ->
  iteration n st = Ok (Continue (mkLoop sr1 sr2 ef1 eb2 n2)).
Proof.
  intros Hnf Hnb He1 He2. unfold iteration. rewrite Hnf, He1.
  cbn [mbind result_bind bwd explored_backward explored_forward nodes_evaluated].
  rewrite Hnb, He2. reflexivity.
Qed.

Lemma iteration_steps_Break n st m sr ef :
  nonempty (open_set (fwd st)) = true ->
  expand_step n (fwd st) (explored_forward st) (explored_backward st)
    (nodes_evaluated st) = Ok (Meeting m sr ef) ->
  iteration n st =
  Ok (Break m (mkLoop sr (bwd st) ef (explored_backward st) (nodes_evaluated st))).
Proof.
  intros Hnf He. unfold iteration. rewrite Hnf, He. reflexivity.
Qed.

Lemma initial_loop_state_eq n start :
  valid_state n start ->
  exists h1 h2,
    manhattan_distance n start = Ok h1 /\
    manhattan_distance n (goal_buffer n) = Ok h2 /\
    initial_loop_state n start =
    Ok (mkLoop (mkSearch [(h1, start)] {[ start := None ]} {[ start := 0 ]})
               (mkSearch [(h2, goal_buffer n)] {[ goal_buffer n := None ]}
                         {[ goal_buffer n := 0 ]}) ∅ ∅ 0).
Proof.
  intros Hv. assert (0 < n) as Hn by (by destruct Hv).
  unfold initial_loop_state. rewrite goal_state_Ok by done.
  cbn [mbind result_bind].
  destruct (a_star_search_inv n start (goal_buffer n) true Hv)
    as (h1 & Hh1 & -> & _).
  cbn [mbind result_bind].
  destruct (a_star_search_inv n (goal_buffer n) start false
              (goal_buffer_valid n Hn)) as (h2 & Hh2 & -> & _).
  cbn [mbind result_bind]. by exists h1, h2.
Qed.

(** X25. From a valid start state that one legal move separates from the
    goal, the search returns the path of that one move: the start state,
    then the goal. *)
Theorem bidirectional_a_star_one_move (n fuel : nat) (start : ndarray) :
  valid_state n start -> legal_move n start (goal_buffer n) -> 4 <= fuel ->
  exists nodes,
    bidirectional_a_star n fuel start =
    Returned (Some [start; goal_buffer n]) nodes.
Proof.
  intros Hv Hm Hfuel. assert (0 < n) as Hn by (by destruct Hv).
  pose proof (goal_buffer_valid n Hn) as Hvg.
  pose proof (legal_move_ne n _ _ Hv Hm) as Hsg.
  pose proof (legal_move_sym n _ _ Hv Hm) as Hm'.
  unfold bidirectional_a_star.
  destruct (initial_loop_state_eq n start Hv) as (h1 & h2 & Hh1 & Hh2 & ->).
  set (sf0 := mkSearch [(h1, start)] {[ start := None ]} {[ start := 0 ]}).
  set (sb0 := mkSearch [(h2, goal_buffer n)] {[ goal_buffer n := None ]}
                       {[ goal_buffer n := 0 ]}).
  (* the first iteration: both roots are expanded *)
  destruct (a_star_search_inv n start start true Hv) as (h & Hh & _ & Hdf0).
  assert (h = h1) as -> by congruence. fold sf0 in Hdf0.
  destruct (a_star_search_inv n (goal_buffer n) start true Hvg)
    as (h & Hh' & _ & Hdb0).
  assert (h = h2) as -> by congruence. fold sb0 in Hdb0.
  destruct (expand_step_inv n start sf0 ∅ ∅ 0 Hdf0 eq_refl) as (r1 & He1 & Hp1).
  destruct r1 as [m sr ex|sr1 ef1 n1].
  { destruct Hp1 as (Hin & _). by apply elem_of_empty in Hin. }
  clear Hp1.
  destruct (first_expansion_frontier n start h1 ∅ sr1 ef1 0 n1 Hv Hh1 He1)
    as (-> & Hdf1 & Hlf1 & Hentf & Hnbf).
  destruct (expand_step_inv n (goal_buffer n) sb0 ∅ {[start]} n1 Hdb0 eq_refl)
    as (r2 & He2 & Hp2).
  destruct r2 as [m sr ex|sb1 eb1 n2].
  { destruct (expand_step_Meeting n _ _ _ _ _ _ _ He2)
      as (f & rest & Hopen & Hin & _).
    cbn [open_set sb0] in Hopen. injection Hopen as _ <- _. set_solver. }
  clear Hp2.
  destruct (first_expansion_frontier n (goal_buffer n) h2 _ sb1 eb1 n1 n2
              Hvg Hh2 He2) as (-> & Hdb1 & Hlb1 & Hentb & Hnbb).
  set (st0 := mkLoop sf0 sb0 ∅ ∅ 0).
  assert (iteration n st0 =
          Ok (Continue (mkLoop sr1 sb1 {[start]} {[goal_buffer n]} n2))) as Hit0.
  { by apply (iteration_steps_Continue n st0 sr1 {[start]} n1 sb1
                {[goal_buffer n]} n2). }
  (* the second iteration: the forward search pops the goal *)
  destruct (Hnbf _ Hm) as (eg & Hing & Heg).
  destruct (Hnbb _ Hm') as (es & Hins & Hes).
  destruct (Hentf _ Hing) as (hg & Hhg & Hfg). rewrite Heg in Hhg.
  rewrite manhattan_distance_goal in Hhg by done. injection Hhg as <-.
  destruct (open_set sr1) as [|[f cur] rest] eqn:Hopenf;
    [by apply elem_of_nil in Hing|].
  assert (cur = goal_buffer n) as ->.
  { pose proof (lz_sorted _ _ _ Hlf1) as Hsorted. rewrite Hopenf in Hsorted.
    pose proof (head_min _ _ _ Hsorted Hing) as Hmin. cbn [fst] in Hmin.
    destruct (Hentf (f, cur)) as (hc & Hhc & Hfc); [apply list_elem_of_here|].
    cbn [fst snd] in Hhc, Hfc.
    pose proof (manhattan_distance_nonneg n cur hc Hhc).
    assert (hc = 0%Z) as -> by lia.
    apply manhattan_distance_zero_goal; [|done].
    apply (inv_g_valid _ _ _ _ Hdf1), (inv_open _ _ _ _ Hdf1 (f, cur)).
    rewrite Hopenf. apply list_elem_of_here. }
  set (st1 := mkLoop sr1 sb1 {[start]} {[goal_buffer n]} n2) in *.
  assert (nonempty (open_set (fwd st1)) = true) as Hnf1
    by (cbn [fwd st1]; by rewrite Hopenf).
  assert (nonempty (open_set (bwd st1)) = true) as Hnb1.
  { cbn [bwd st1]. destruct (open_set sb1); [by apply elem_of_nil in Hins|done]. }
  assert (iteration n st1 =
          Ok (Break (goal_buffer n)
                (mkLoop (mkSearch rest (came_from sr1) (g_score sr1)) sb1
                        ({[start]} ∪ {[goal_buffer n]}) {[goal_buffer n]} n2)))
    as Hit1.
  { apply (iteration_steps_Break n st1); [done|]. cbn [fwd st1 explored_forward
      explored_backward nodes_evaluated].
    apply (expand_step_meeting n sr1 _ _ _ f (goal_buffer n) rest Hopenf).
    - by apply valid_length.
    - set_solver. }
  (* the two walks *)
  assert (came_from sr1 !! goal_buffer n = Some (Some start)) as Hcg.
  { assert (is_Some (g_score sr1 !! goal_buffer n)) as Hsome.
    { apply (inv_open _ _ _ _ Hdf1 (f, goal_buffer n)). rewrite Hopenf.
      apply list_elem_of_here. }
    destruct (inv_g_came _ _ _ _ Hdf1 _ Hsome) as [[p|] Hc].
    - destruct (inv_came_some _ _ _ _ Hdf1 _ p Hc)
        as (gp & gk & Hgp & Hgk & Hlt & Hmove).
      assert (eg ∈ open_set sr1) as Hing' by (by rewrite Hopenf).
      destruct (lz_lower _ _ _ Hlf1 eg Hing') as (g' & h' & Hg' & Hh'' & Hle).
      rewrite Heg in Hg', Hh''.
      rewrite manhattan_distance_goal in Hh'' by done. injection Hh'' as <-.
      assert (g' = gk) as -> by congruence.
      assert (gp = 0) as -> by lia.
      by rewrite (dir_root_unique n start sr1 _ p Hdf1 Hgp) in Hc.
    - by apply (inv_came_none _ _ _ _ Hdf1) in Hc. }
  pose proof (inv_root_came _ _ _ _ Hdf1) as Hcs.
  pose proof (inv_root_came _ _ _ _ Hdb1) as Hcb.
  destruct fuel as [|[|[|[|fuel]]]]; try lia.
  exists n2. cbn [main_loop]. fold st0.
  assert (nonempty (open_set (fwd st0)) && nonempty (open_set (bwd st0)) = true)
    as -> by done.
  rewrite Hit0. fold st1. cbn [main_loop]. rewrite Hnf1, Hnb1, Hit1.
  cbn [andb reconstruct fwd bwd came_from nodes_evaluated walk].
  unfold dict_get. rewrite Hcg, Hcs, Hcb, ?walk_None. reflexivity.
Qed.

Lemma bidirectional_a_star_one_move_witness :
  exists nodes,
    bidirectional_a_star 3 4 [1;2;3;4;5;0;7;8;6]%Z =
    Returned (Some [[1;2;3;4;5;0;7;8;6]%Z; goal_buffer 3]) nodes.
Proof.
  apply (bidirectional_a_star_one_move 3 4 [1;2;3;4;5;0;7;8;6]%Z);
    [decide_valid | | lia].
  apply legal_moveb_sound. vm_compute. reflexivity.
Defined.
